(** * PyHIST command line: a shallow embedding of [src/parser_input.py]

    [build_parser] assembles an [argparse.ArgumentParser]: one positional
    argument (the slide) and seventeen options, besides [-h/--help].  The
    model has three layers:

    - the Python values and builtins the parser relies on ([str], [int],
      [float], [itertools.permutations], [set]);
    - the part of [argparse] that [build_parser] exercises ([add_argument],
      [parse_args] with its option recognition, abbreviations, [--opt=value],
      the [--] separator, [store], [store_true] and [help] actions);
    - [build_parser] itself, written call by call as in the source.

    Then come the properties of the [argparse] model (what a parse that
    returns has done, and that the model always reaches an outcome), the
    declarations of [build_parser] in closed form, and the behaviour of the
    command line of PyHIST.

    A Python [str] is modelled by its UTF-8 encoding, one [ascii] for a
    byte; the option strings that a parser declares are ASCII strings. *)

From Corelib Require Import SpecFloat.
From Stdlib Require Import ZArith Ascii String Lia.
From stdpp Require Import base option list strings gmap.

Local Open Scope string_scope.
Local Open Scope list_scope.
Local Open Scope Z_scope.

(** ** Python strings *)

Module Str.

(** [c in s] for a one-character [c]. *)
Fixpoint contains (c : ascii) (s : string) : bool :=
  match s with
  | EmptyString => false
  | String d r => if Ascii.eqb c d then true else contains c r
  end.

(** [s.startswith(prefix)]. *)
Fixpoint startswith (s prefix : string) : bool :=
  match prefix, s with
  | EmptyString, _ => true
  | String _ _, EmptyString => false
  | String a p, String b r => if Ascii.eqb a b then startswith r p else false
  end.

(** [s.split(sep, 1)] for a [sep] that occurs in [s]: the text before the
    first [sep] and the text after it. *)
Fixpoint split1 (sep : ascii) (s : string) : string * string :=
  match s with
  | EmptyString => (EmptyString, EmptyString)
  | String c r =>
      if Ascii.eqb c sep then (EmptyString, r)
      else let '(a, b) := split1 sep r in (String c a, b)
  end.

(** [s[:2]] and [s[2:]]. *)
Definition take2 (s : string) : string :=
  match s with
  | String a (String b _) => String a (String b EmptyString)
  | _ => s
  end.

Definition drop2 (s : string) : string :=
  match s with
  | String _ (String _ r) => r
  | _ => EmptyString
  end.

(** [s.lstrip(c)] for a one-character set. *)
Fixpoint lstrip (c : ascii) (s : string) : string :=
  match s with
  | String d r => if Ascii.eqb c d then lstrip c r else s
  | EmptyString => EmptyString
  end.

(** [s.replace(a, b)] for single characters. *)
Fixpoint replace (a b : ascii) (s : string) : string :=
  match s with
  | EmptyString => EmptyString
  | String c r => String (if Ascii.eqb c a then b else c) (replace a b r)
  end.

(** [''.join(parts)]. *)
Definition join (parts : list string) : string :=
  fold_right String.append EmptyString parts.

(** The six low bits of a continuation byte [10xxxxxx]. *)
Definition continuation (b : ascii) : option N :=
  let n := N_of_ascii b in
  if ((128 <=? n) && (n <? 192))%N then Some (n - 128)%N else None.

(** The code point that starts a list of bytes, with the bytes after
    it: [None] when the first byte does not start a well-formed UTF-8
    sequence (overlong forms, surrogates and code points above
    [U+10FFFF] are not well formed). *)
Definition decode1 (l : list ascii) : option (N * list ascii) :=
  match l with
  | [] => None
  | b0 :: r =>
      let n0 := N_of_ascii b0 in
      if (n0 <? 0x80)%N then Some (n0, r)
      else if (n0 <? 0xC2)%N then None
      else if (n0 <? 0xE0)%N then
        match r with
        | b1 :: r =>
            x1 ← continuation b1;
            Some ((n0 - 0xC0) * 64 + x1, r)%N
        | _ => None
        end
      else if (n0 <? 0xF0)%N then
        match r with
        | b1 :: b2 :: r =>
            x1 ← continuation b1;
            x2 ← continuation b2;
            let cp := ((n0 - 0xE0) * 4096 + x1 * 64 + x2)%N in
            if ((0x800 <=? cp) && negb ((0xD800 <=? cp) && (cp <? 0xE000)))%N
            then Some (cp, r) else None
        | _ => None
        end
      else if (n0 <? 0xF5)%N then
        match r with
        | b1 :: b2 :: b3 :: r =>
            x1 ← continuation b1;
            x2 ← continuation b2;
            x3 ← continuation b3;
            let cp :=
              ((n0 - 0xF0) * 262144 + x1 * 4096 + x2 * 64 + x3)%N in
            if ((0x10000 <=? cp) && (cp <? 0x110000))%N
            then Some (cp, r) else None
        | _ => None
        end
      else None
  end.

(** The code points of a list of bytes.  A byte [b] outside of a
    well-formed sequence is the lone surrogate [U+DC00 + b], as in the
    strings of [sys.argv] (error handler [surrogateescape]).  A code
    point takes one byte at least, so [fuel] is enough when it is the
    number of bytes. *)
Fixpoint decode (fuel : nat) (l : list ascii) : list N :=
  match fuel, l with
  | S fuel, b :: r =>
      match decode1 l with
      | Some (cp, r') => cp :: decode fuel r'
      | None => (0xDC00 + N_of_ascii b)%N :: decode fuel r
      end
  | _, _ => []
  end.

(** The characters of a string, as code points. *)
Definition code_points (s : string) : list N :=
  let l := list_ascii_of_string s in decode (List.length l) l.

End Str.

(** ** Python values *)

(** The values a namespace attribute of this parser can hold.  A float is
    an IEEE 754 binary64 number, as in CPython. *)
#[warnings="-register-all"]
Inductive pyval : Type :=
| PNone
| PBool (b : bool)
| PInt (z : Z)
| PFloat (f : spec_float)
| PStr (s : string)
| PList (l : list pyval).

(** ** The builtins used as [type=] converters *)

Module builtins.

(** [Py_UNICODE_TODECIMAL]: the decimal digits (category [Nd]) of
    Unicode 14.0, the version of CPython 3.11.  They come in runs of
    the digits zero to nine: the first code point of each run and its
    length. *)
Definition decimal_runs : list (N * N) :=
  [(0x30, 10); (0x660, 10); (0x6F0, 10); (0x7C0, 10); (0x966, 10);
   (0x9E6, 10); (0xA66, 10); (0xAE6, 10); (0xB66, 10); (0xBE6, 10);
   (0xC66, 10); (0xCE6, 10); (0xD66, 10); (0xDE6, 10); (0xE50, 10);
   (0xED0, 10); (0xF20, 10); (0x1040, 10); (0x1090, 10); (0x17E0, 10);
   (0x1810, 10); (0x1946, 10); (0x19D0, 10); (0x1A80, 10); (0x1A90, 10);
   (0x1B50, 10); (0x1BB0, 10); (0x1C40, 10); (0x1C50, 10); (0xA620, 10);
   (0xA8D0, 10); (0xA900, 10); (0xA9D0, 10); (0xA9F0, 10); (0xAA50, 10);
   (0xABF0, 10); (0xFF10, 10); (0x104A0, 10); (0x10D30, 10); (0x11066, 10);
   (0x110F0, 10); (0x11136, 10); (0x111D0, 10); (0x112F0, 10);
   (0x11450, 10); (0x114D0, 10); (0x11650, 10); (0x116C0, 10);
   (0x11730, 10); (0x118E0, 10); (0x11950, 10); (0x11C50, 10);
   (0x11D50, 10); (0x11DA0, 10); (0x16A60, 10); (0x16AC0, 10);
   (0x16B50, 10); (0x1D7CE, 50); (0x1E140, 10); (0x1E2F0, 10);
   (0x1E950, 10); (0x1FBF0, 10)]%N.

Definition decimal (cp : N) : option N :=
  match find (fun '(start, len) => (start <=? cp) && (cp <? start + len))%N
             decimal_runs with
  | Some (start, _) => Some ((cp - start) mod 10)%N
  | None => None
  end.

(** [Py_UNICODE_ISDECIMAL], which is also [\d] of [re] on a [str]. *)
Definition is_decimal (cp : N) : bool :=
  match decimal cp with Some _ => true | None => false end.

(** [Py_UNICODE_ISSPACE] from [U+007F] on. *)
Definition is_unicode_space (cp : N) : bool :=
  existsb (N.eqb cp)
    [0x85; 0xA0; 0x1680; 0x2000; 0x2001; 0x2002; 0x2003; 0x2004; 0x2005;
     0x2006; 0x2007; 0x2008; 0x2009; 0x200A; 0x2028; 0x2029; 0x202F;
     0x205F; 0x3000]%N.

(** [_PyUnicode_TransformDecimalAndSpaceToASCII], through which [int]
    and [float] read a [str]: a space becomes [' '], a decimal digit
    its ASCII digit, and the string ends in ['?'] at the first
    character that is neither. *)
Fixpoint transform (l : list N) : list ascii :=
  match l with
  | [] => []
  | cp :: r =>
      if (cp <? 127)%N then ascii_of_N cp :: transform r
      else if is_unicode_space cp then " "%char :: transform r
      else match decimal cp with
           | Some d => ascii_of_N (48 + d) :: transform r
           | None => ["?"%char]
           end
  end.

(** [Py_ISSPACE]. *)
Definition is_space (c : ascii) : bool :=
  let n := nat_of_ascii c in
  (((9 <=? n) && (n <=? 13)) || (n =? 32))%nat.

Definition is_digit (c : ascii) : bool :=
  let n := nat_of_ascii c in ((48 <=? n) && (n <=? 57))%nat.

Definition digit_value (c : ascii) : Z := Z.of_nat (nat_of_ascii c) - 48.

Fixpoint lstrip (l : list ascii) : list ascii :=
  match l with
  | c :: r => if is_space c then lstrip r else l
  | [] => []
  end.

(** [s.strip()]: whitespace removed at both ends. *)
Definition strip (l : list ascii) : list ascii :=
  rev (lstrip (rev (lstrip l))).

(** An optional sign in front of a numeral. *)
Definition split_sign (l : list ascii) : bool * list ascii :=
  match l with
  | "-"%char :: r => (true, r)
  | "+"%char :: r => (false, r)
  | _ => (false, l)
  end.

(** [str(s)] on a string is the string. *)
Definition str (s : string) : option string := Some s.

(** Digits of a decimal integer literal; one underscore may separate two
    digits.  [prev_us] tells that the previous character was an
    underscore. *)
Fixpoint int_digits (prev_us : bool) (acc : Z) (l : list ascii) : option Z :=
  match l with
  | [] => if prev_us then None else Some acc
  | c :: r =>
      if is_digit c then int_digits false (10 * acc + digit_value c) r
      else if Ascii.eqb c "_" then
        if prev_us then None else int_digits true acc r
      else None
  end.

(** [sys.get_int_max_str_digits()]: longer numerals are refused. *)
Definition int_max_str_digits : nat := 4300.

(** [int(s)] in base ten: [None] stands for [ValueError]. *)
Definition int (s : string) : option Z :=
  let '(neg, l) := split_sign (strip (transform (Str.code_points s))) in
  match l with
  | c :: _ =>
      if is_digit c then
        if (List.length (filter (fun d => is_digit d = true) l)
            <=? int_max_str_digits)%nat then
          match int_digits false 0 l with
          | Some z => Some (if neg then - z else z)
          | None => None
          end
        else None
      else None
  | [] => None
  end.

(** Underscores of a float literal: each one must stand between two
    digits; they are dropped. [prev] is the previous character. *)
Fixpoint remove_underscores (prev : ascii) (l : list ascii)
  : option (list ascii) :=
  match l with
  | [] => if Ascii.eqb prev "_" then None else Some []
  | c :: r =>
      if Ascii.eqb c "_" then
        if is_digit prev then remove_underscores c r else None
      else if Ascii.eqb prev "_" && negb (is_digit c) then None
      else cons c <$> remove_underscores c r
  end.

Definition lower (c : ascii) : ascii :=
  let n := nat_of_ascii c in
  if ((65 <=? n) && (n <=? 90))%nat then ascii_of_nat (n + 32) else c.

(** A maximal run of digits: its value, its length and the rest. *)
Fixpoint digit_run (acc : Z) (len : nat) (l : list ascii)
  : Z * nat * list ascii :=
  match l with
  | c :: r =>
      if is_digit c then digit_run (10 * acc + digit_value c) (S len) r
      else (acc, len, l)
  | [] => (acc, len, [])
  end.

(** The exponent part [e[+-]ddd]; absent when [l] is empty. *)
Definition exponent (l : list ascii) : option Z :=
  match l with
  | [] => Some 0
  | c :: r =>
      if Ascii.eqb (lower c) "e" then
        let '(neg, r) := split_sign r in
        match digit_run 0 0 r with
        | (_, O, _) => None
        | (v, _, []) => Some (if neg then - v else v)
        | _ => None
        end
      else None
  end.

(** The binary64 number nearest to [m * 10 ^ e] (ties to even). *)
Definition binary64_of_decimal (neg : bool) (m e : Z) : spec_float :=
  match m with
  | Zpos _ =>
      if 0 <=? e then
        binary_normalize 53 1024 (cond_Zopp neg (m * 10 ^ e)) 0 neg
      else
        let '(q, e', l) := SFdiv_core_binary 53 1024 m 0 (10 ^ (- e)) 0 in
        binary_round_aux 53 1024 neg q e' l
  | _ => S754_zero neg
  end.

(** [float(s)]: [None] stands for [ValueError]. *)
Definition float (s : string) : option spec_float :=
  let l := strip (transform (Str.code_points s)) in
  match (if existsb (Ascii.eqb "_") l
         then remove_underscores "000"%char l else Some l) with
  | None => None
  | Some l =>
      let '(neg, l) := split_sign l in
      let word := string_of_list_ascii (map lower l) in
      if String.eqb word "inf" || String.eqb word "infinity"
      then Some (S754_infinity neg)
      else if String.eqb word "nan" then Some S754_nan
      else
        let '(i, ni, l) := digit_run 0 0 l in
        let '(m, nf, l) :=
          match l with
          | "."%char :: r =>
              let '(m, nf, r) := digit_run i 0 r in (m, nf, r)
          | _ => (i, O, l)
          end in
        match (ni + nf)%nat with
        | O => None
        | _ =>
            match exponent l with
            | Some x => Some (binary64_of_decimal neg m (x - Z.of_nat nf))
            | None => None
            end
        end
  end.

End builtins.

(** ** [itertools.permutations] and [set] *)

Module itertools.

(** Every way to pick one element of [pool], with the elements left. *)
Fixpoint picks {A} (pool : list A) : list (A * list A) :=
  match pool with
  | [] => []
  | x :: r => (x, r) :: map (fun '(y, l) => (y, x :: l)) (picks r)
  end.

(** [permutations(pool, r)]: the [r]-tuples of elements at distinct
    positions of [pool], in the order of the positions. *)
Fixpoint permutations {A} (pool : list A) (r : nat) : list (list A) :=
  match r with
  | O => [[]]
  | S r' =>
      flat_map (fun '(x, rest) => map (cons x) (permutations rest r'))
               (picks pool)
  end.

End itertools.

(** [list(set(l))]: the distinct elements of [l].  Python leaves the order
    of a set unspecified; the parser only tests membership in the result. *)
Definition list_set {A} `{EqDecision A} (l : list A) : list A := remove_dups l.

(** ** [argparse]

    The model follows CPython 3.11's [argparse.py], function by function,
    for the features [build_parser] uses: [prefix_chars='-'],
    [allow_abbrev=True], [add_help=True], no sub-parsers, no mutually
    exclusive groups, no [fromfile_prefix_chars]; [nargs] is [None] for the
    [store] actions and [0] for [store_true] and [help].  An argument group
    registers its actions with the parser it belongs to, so
    [group.add_argument] is [parser.add_argument] as far as parsing goes. *)

Module argparse.

(** *** Actions *)

Inductive default_value := SUPPRESS | Value (v : pyval).

(** The callables given as [type=]. *)
Inductive callable := builtin_str | builtin_int | builtin_float.

Definition __name__ (f : callable) : string :=
  match f with
  | builtin_str => "str"
  | builtin_int => "int"
  | builtin_float => "float"
  end.

(** [f(arg_string)]; [None] stands for [ValueError]. *)
Definition call (f : callable) (arg_string : string) : option pyval :=
  match f with
  | builtin_str => PStr <$> builtins.str arg_string
  | builtin_int => PInt <$> builtins.int arg_string
  | builtin_float => PFloat <$> builtins.float arg_string
  end.

Inductive action_class := _StoreAction | _StoreTrueAction | _HelpAction.

Inductive nargs_value := nargs_None | nargs_0.

Record Action := {
  cls : action_class;
  option_strings : list string;
  dest : string;
  nargs : nargs_value;
  const : pyval;
  default : default_value;
  type : option callable;
  choices : option (list string);
  required : bool;
  metavar : option string }.

(** Keyword arguments of [add_argument]; [help=] only feeds the help
    text and is left out. *)
Inductive kwarg :=
| kw_action (name : string)
| kw_type (f : callable)
| kw_default (d : default_value)
| kw_choices (l : list string)
| kw_metavar (s : string)
| kw_dest (s : string).

Fixpoint first_some {A B} (f : A -> option B) (l : list A) : option B :=
  match l with
  | [] => None
  | x :: r => match f x with Some y => Some y | None => first_some f r end
  end.

(** [kwargs.get(key)] for each keyword. *)
Section kwargs.
Variable kwargs : list kwarg.

Definition get_action : option string :=
  first_some (fun k => match k with kw_action n => Some n | _ => None end)
             kwargs.
Definition get_type : option callable :=
  first_some (fun k => match k with kw_type f => Some f | _ => None end)
             kwargs.
Definition get_default : option default_value :=
  first_some (fun k => match k with kw_default d => Some d | _ => None end)
             kwargs.
Definition get_choices : option (list string) :=
  first_some (fun k => match k with kw_choices l => Some l | _ => None end)
             kwargs.
Definition get_metavar : option string :=
  first_some (fun k => match k with kw_metavar m => Some m | _ => None end)
             kwargs.
Definition get_dest : option string :=
  first_some (fun k => match k with kw_dest d => Some d | _ => None end)
             kwargs.
End kwargs.

(** *** The parser object *)

Definition prefix_chars : string := "-".
Definition allow_abbrev : bool := true.

(** [_actions] is the list of actions in the order they were added;
    [_option_string_actions] is the dictionary from option strings to
    actions, in insertion order. *)
Record ArgumentParser := {
  _actions : list Action;
  _option_string_actions : list (string * Action);
  _has_negative_number_optionals : bool }.

(** [d[key]] and [key in d]. *)
Fixpoint dict_get {V} (d : list (string * V)) (key : string) : option V :=
  match d with
  | [] => None
  | (k, v) :: r => if String.eqb key k then Some v else dict_get r key
  end.

(** [d[key] = v]. *)
Fixpoint dict_set {V} (d : list (string * V)) (key : string) (v : V)
  : list (string * V) :=
  match d with
  | [] => [(key, v)]
  | (k, w) :: r =>
      if String.eqb key k then (k, v) :: r else (k, w) :: dict_set r key v
  end.

Definition drop_final_newline (l : list N) : list N :=
  match rev l with
  | 10%N :: r => rev r
  | _ => l
  end.

(** A maximal run of [\d]: its length and the rest. *)
Fixpoint decimal_run (len : nat) (l : list N) : nat * list N :=
  match l with
  | cp :: r =>
      if builtins.is_decimal cp then decimal_run (S len) r else (len, l)
  | [] => (len, [])
  end.

(** [_negative_number_matcher.match(s)], the pattern being
    [^-\d+$|^-\d*\.\d+$]; [$] also matches before a final newline. *)
Definition _negative_number_matcher (s : string) : bool :=
  match s with
  | String "-" r =>
      let l := drop_final_newline (Str.code_points r) in
      let '(ndigits, rest) := decimal_run 0 l in
      match rest with
      | [] => negb (Nat.eqb ndigits 0)
      | 46%N :: frac =>
          negb (Nat.eqb (List.length frac) 0)
          && forallb builtins.is_decimal frac
      | _ => false
      end
  | _ => false
  end.

Definition in_prefix_chars (c : ascii) : bool := Str.contains c prefix_chars.

(** [_get_optional_kwargs]: the destination of an option, ['--foo-bar']
    giving ['foo_bar']. *)
Definition optional_dest (args : list string) (kwargs : list kwarg) : string :=
  match get_dest kwargs with
  | Some d => d
  | None =>
      let long_option_strings :=
        List.filter (fun o => match o with
                              | String _ (String c _) => in_prefix_chars c
                              | _ => false
                              end) args in
      let dest_option_string :=
        match long_option_strings, args with
        | o :: _, _ => o
        | [], o :: _ => o
        | [], [] => ""
        end in
      Str.replace "-" "_" (Str.lstrip "-" dest_option_string)
  end.

(** [add_argument(names, kwargs)].  The declarations of [build_parser]
    are well formed, so the [ValueError]s of a malformed declaration are
    not modelled. *)
Definition add_argument (args : list string) (kwargs : list kwarg)
    (self : ArgumentParser) : ArgumentParser :=
  let positional :=
    match args with
    | [] => true
    | [String c _] => negb (in_prefix_chars c)
    | _ => false
    end in
  let action_class :=
    match get_action kwargs with
    | Some "store_true" => _StoreTrueAction
    | Some "help" => _HelpAction
    | _ => _StoreAction
    end in
  let action := {|
    cls := action_class;
    option_strings := if positional then [] else args;
    dest := if positional then match args with d :: _ => d | [] => "" end
            else optional_dest args kwargs;
    nargs := match action_class with
             | _StoreAction => nargs_None
             | _ => nargs_0
             end;
    const := match action_class with
             | _StoreTrueAction => PBool true
             | _ => PNone
             end;
    default := match get_default kwargs, action_class with
               | Some d, _ => d
               | None, _StoreAction => Value PNone
               | None, _StoreTrueAction => Value (PBool false)
               | None, _HelpAction => SUPPRESS
               end;
    type := match action_class with
            | _StoreAction => get_type kwargs
            | _ => None
            end;
    choices := match action_class with
               | _StoreAction => get_choices kwargs
               | _ => None
               end;
    required := positional;
    metavar := match action_class with
               | _StoreAction => get_metavar kwargs
               | _ => None
               end |} in
  {| _actions := _actions self ++ [action];
     _option_string_actions :=
       fold_left (fun d o => dict_set d o action) (option_strings action)
                 (_option_string_actions self);
     _has_negative_number_optionals :=
       _has_negative_number_optionals self
       || existsb _negative_number_matcher (option_strings action) |}.

(** [ArgumentParser(...)]: the formatter class, the description and the
    epilog only feed the help text; [add_help=True] declares [-h/--help]. *)
Definition ArgumentParser_new : ArgumentParser :=
  add_argument ["-h"; "--help"] [kw_action "help"; kw_default SUPPRESS]
    {| _actions := [];
       _option_string_actions := [];
       _has_negative_number_optionals := false |}.

(** *** Outcomes of a parse

      [parse_args] returns a namespace, or leaves through [parser.error]
      (usage and message on stderr, exit status 2), or through the [help]
      action (help text on stdout, exit status 0).  [Stuck] marks what the
      Python code cannot reach: the loop of the model running out of fuel,
      or an index that is not in [option_string_indices]
      ([parse_args_total]). *)

Inductive message :=
| expected_one_argument
| ignored_explicit_argument (explicit_arg : string)
| invalid_value (type_name : string) (value : string)
| invalid_choice (value : pyval).

Inductive error :=
| ArgumentError (argument_name : string) (msg : message)
| ambiguous_option (option : string) (matches : list string)
| unexpected_option_string (option : string)
| arguments_required (names : list string)
| unrecognized_arguments (argv : list string).

Inductive outcome (A : Type) :=
| Return (a : A)
| Error (e : error)
| HelpExit
| Stuck.
Arguments Return {A} a.
Arguments Error {A} e.
Arguments HelpExit {A}.
Arguments Stuck {A}.

#[export] Instance outcome_ret : MRet outcome := @Return.
#[export] Instance outcome_bind : MBind outcome := fun A B f m =>
  match m with
  | Return a => f a
  | Error e => Error e
  | HelpExit => HelpExit
  | Stuck => Stuck
  end.

Fixpoint mapM {A B} (f : A -> outcome B) (l : list A) : outcome (list B) :=
  match l with
  | [] => Return []
  | x :: r => y ← f x; ys ← mapM f r; Return (y :: ys)
  end.

(** [_get_action_name(action)]. *)
Definition _get_action_name (action : Action) : string :=
  match option_strings action, metavar action with
  | o :: r, _ => fold_left (fun acc x => acc +:+ "/" +:+ x) r o
  | [], Some m => m
  | [], None => dest action
  end.

(** An option tuple: the action (or [None]), the option string and the
    explicit argument (or [None]). *)
Definition option_tuple : Type := option Action * string * option string.

(** One character of [arg_strings_pattern], an ['O'] together with its
    entry of [option_string_indices]. *)
Inductive pattern_part := pat_A | pat_dash | pat_O (t : option_tuple).

Definition is_O (p : pattern_part) : bool :=
  match p with pat_O _ => true | _ => false end.

Section parser.
Variable self : ArgumentParser.

(** [_get_option_tuples(option_string)]. *)
Definition _get_option_tuples (option_string : string)
  : outcome (list option_tuple) :=
  match option_string with
  | String c0 (String c1 _) =>
      if in_prefix_chars c0 && in_prefix_chars c1 then
        if allow_abbrev then
          let '(option_prefix, explicit_arg) :=
            if Str.contains "=" option_string
            then let '(a, b) := Str.split1 "=" option_string in (a, Some b)
            else (option_string, None) in
          Return
            (omap (fun '(o, action) =>
                     if Str.startswith o option_prefix
                     then Some (Some action, o, explicit_arg) else None)
                  (_option_string_actions self))
        else Return []
      else if in_prefix_chars c0 && negb (in_prefix_chars c1) then
        let option_prefix := option_string in
        let short_option_prefix := Str.take2 option_string in
        let short_explicit_arg := Str.drop2 option_string in
        Return
          (omap (fun '(o, action) =>
                   if String.eqb o short_option_prefix
                   then Some (Some action, o, Some short_explicit_arg)
                   else if Str.startswith o option_prefix
                   then Some (Some action, o, None) else None)
                (_option_string_actions self))
      else Error (unexpected_option_string option_string)
  | _ => Error (unexpected_option_string option_string)
  end.

(** [_parse_optional(arg_string)]: [None] for a string meant to be a
    positional argument, an option tuple otherwise. *)
Definition _parse_optional (arg_string : string)
  : outcome (option option_tuple) :=
  match arg_string with
  | EmptyString => Return None
  | String c0 rest =>
      if negb (in_prefix_chars c0) then Return None
      else
        match dict_get (_option_string_actions self) arg_string with
        | Some action => Return (Some (Some action, arg_string, None))
        | None =>
            match rest with
            | EmptyString => Return None
            | _ =>
                match
                  (if Str.contains "=" arg_string then
                     let '(option_string, explicit_arg) :=
                       Str.split1 "=" arg_string in
                     match dict_get (_option_string_actions self)
                                    option_string with
                     | Some action =>
                         Some (Some action, option_string,
                               Some explicit_arg)
                     | None => None
                     end
                   else None)
                with
                | Some t => Return (Some t)
                | None =>
                    option_tuples ← _get_option_tuples arg_string;
                    match option_tuples with
                    | _ :: _ :: _ =>
                        Error (ambiguous_option arg_string
                                 (map (fun t => snd (fst t)) option_tuples))
                    | [option_tuple] => Return (Some option_tuple)
                    | [] =>
                        if _negative_number_matcher arg_string
                           && negb (_has_negative_number_optionals self)
                        then Return None
                        else if Str.contains " " arg_string
                        then Return None
                        else Return (Some (None, arg_string, None))
                    end
                end
            end
        end
  end.

(** The first loop of [_parse_known_args]: the pattern of the argument
    strings; everything after a [--] is an argument. *)
Fixpoint arg_strings_pattern (arg_strings : list string)
  : outcome (list pattern_part) :=
  match arg_strings with
  | [] => Return []
  | arg_string :: rest =>
      if String.eqb arg_string "--"
      then Return (pat_dash :: map (fun _ => pat_A) rest)
      else
        option_tuple ← _parse_optional arg_string;
        parts ← arg_strings_pattern rest;
        Return (match option_tuple with
                | None => pat_A
                | Some t => pat_O t
                end :: parts)
  end.

(** *** Matching the pattern *)

(** The number of leading [-] of a pattern (the star is greedy). *)
Fixpoint dashes (pattern : list pattern_part) : nat :=
  match pattern with
  | pat_dash :: r => S (dashes r)
  | _ => O
  end.

(** [re.match(_get_nargs_pattern(action), pattern)]: the length of
    group 1, or [None].  For an option the expression is one [A]
    ([nargs=None]) or empty ([nargs=0]); for a positional it is any
    number of [-], then one [A], then any number of [-]
    ([nargs=None]), or any number of [-] alone ([nargs=0]). *)
Definition match_nargs_pattern (action : Action)
    (pattern : list pattern_part) : option nat :=
  match option_strings action, nargs action with
  | _ :: _, nargs_None =>
      match pattern with pat_A :: _ => Some 1%nat | _ => None end
  | _ :: _, nargs_0 => Some O
  | [], nargs_None =>
      let d := dashes pattern in
      match drop d pattern with
      | pat_A :: r => Some (d + 1 + dashes r)%nat
      | _ => None
      end
  | [], nargs_0 => Some (dashes pattern)
  end.

(** [_match_argument(action, pattern)]. *)
Definition _match_argument (action : Action)
    (pattern : list pattern_part) : outcome nat :=
  match match_nargs_pattern action pattern with
  | Some n => Return n
  | None =>
      Error (ArgumentError (_get_action_name action) expected_one_argument)
  end.

(** The patterns of several actions one after the other. *)
Fixpoint match_nargs_patterns (actions : list Action)
    (pattern : list pattern_part) : option (list nat) :=
  match actions with
  | [] => Some []
  | action :: r =>
      match match_nargs_pattern action pattern with
      | Some n =>
          match match_nargs_patterns r (drop n pattern) with
          | Some ns => Some (n :: ns)
          | None => None
          end
      | None => None
      end
  end.

(** [_match_arguments_partial(actions, pattern)]: the longest prefix
    [actions[:i]] that matches, [i] going down from [len(actions)]. *)
Fixpoint match_partial_upto (i : nat) (actions : list Action)
    (pattern : list pattern_part) : list nat :=
  match i with
  | O => []
  | S i' =>
      match match_nargs_patterns (take i actions) pattern with
      | Some counts => counts
      | None => match_partial_upto i' actions pattern
      end
  end.

Definition _match_arguments_partial (actions : list Action)
    (pattern : list pattern_part) : list nat :=
  match_partial_upto (List.length actions) actions pattern.

(** *** Converting the argument strings *)

(** [_get_value(action, arg_string)]. *)
Definition _get_value (action : Action) (arg_string : string)
  : outcome pyval :=
  match type action with
  | None => Return (PStr arg_string)
  | Some type_func =>
      match call type_func arg_string with
      | Some result => Return result
      | None =>
          Error (ArgumentError (_get_action_name action)
                   (invalid_value (__name__ type_func) arg_string))
      end
  end.

(** [value in choices], the choices being strings. *)
Definition value_in (value : pyval) (l : list string) : bool :=
  match value with
  | PStr s => existsb (String.eqb s) l
  | _ => false
  end.

(** [_check_value(action, value)]. *)
Definition _check_value (action : Action) (value : pyval) : outcome unit :=
  match choices action with
  | Some l =>
      if value_in value l then Return tt
      else Error (ArgumentError (_get_action_name action)
                    (invalid_choice value))
  | None => Return tt
  end.

(** [l.remove(x)], doing nothing when [x] is not in [l]. *)
Fixpoint list_remove (x : string) (l : list string) : list string :=
  match l with
  | [] => []
  | y :: r => if String.eqb y x then r else y :: list_remove x r
  end.

(** [_get_values(action, arg_strings)]. *)
Definition _get_values (action : Action) (arg_strings : list string)
  : outcome pyval :=
  let arg_strings := list_remove "--" arg_strings in
  match arg_strings, nargs action with
  | [arg_string], nargs_None =>
      value ← _get_value action arg_string;
      _ ← _check_value action value;
      Return value
  | _, _ =>
      value ← mapM (_get_value action) arg_strings;
      _ ← mapM (_check_value action) value;
      Return (PList value)
  end.

(** [action(parser, namespace, values, option_string)]. *)
Definition __call__ (action : Action) (namespace : gmap string pyval)
    (values : pyval) : outcome (gmap string pyval) :=
  match cls action with
  | _StoreAction => Return (<[dest action := values]> namespace)
  | _StoreTrueAction => Return (<[dest action := const action]> namespace)
  | _HelpAction => HelpExit
  end.

(** [_get_positional_actions()]: the actions without option strings. *)
Definition is_positional (action : Action) : bool :=
  match option_strings action with
  | [] => true
  | _ :: _ => false
  end.

Definition _get_positional_actions : list Action :=
  List.filter is_positional (_actions self).

(** *** The state of [_parse_known_args]

    [seen_actions] holds the destinations of the actions seen: the
    actions of a parser are told apart by their destinations (see
    [build_parser_dests]).  Without mutually exclusive groups
    [seen_non_default_actions] is never read. *)
Record state := {
  namespace : gmap string pyval;
  seen_actions : list string;
  positionals : list Action;
  extras : list string }.

Definition take_action (action : Action) (argument_strings : list string)
    (st : state) : outcome state :=
  argument_values ← _get_values action argument_strings;
  ns ← __call__ action (namespace st) argument_values;
  Return {| namespace := ns;
            seen_actions := dest action :: seen_actions st;
            positionals := positionals st;
            extras := extras st |}.

Definition with_extras (st : state) (l : list string) : state :=
    {| namespace := namespace st;
       seen_actions := seen_actions st;
       positionals := positionals st;
       extras := l |}.

Definition with_positionals (st : state) (l : list Action) : state :=
  {| namespace := namespace st;
     seen_actions := seen_actions st;
     positionals := l;
     extras := extras st |}.

(** *** The body of [_parse_known_args] *)

Section known_args.
Variable arg_strings : list string.
Variable pattern : list pattern_part.

(** [option_string_indices.get(i)]. *)
Definition option_string_indices (i : nat) : option option_tuple :=
  match pattern !! i with
  | Some (pat_O t) => Some t
  | _ => None
  end.

Fixpoint last_option_index (i : nat) (parts : list pattern_part)
    (acc : Z) : Z :=
  match parts with
  | [] => acc
  | p :: r =>
      last_option_index (S i) r (if is_O p then Z.of_nat i else acc)
  end.

(** [max(option_string_indices)], or [-1] when there is no option. *)
Definition max_option_string_index : Z :=
  last_option_index 0 pattern (-1).

Fixpoint first_option_index (i : nat) (parts : list pattern_part)
  : option nat :=
  match parts with
  | [] => None
  | p :: r => if is_O p then Some i else first_option_index (S i) r
  end.

(** [min(index for index in option_string_indices
         if index >= start_index)]. *)
Definition next_option_string_index (start_index : nat) : option nat :=
  first_option_index start_index (drop start_index pattern).

Definition action_tuple : Type := Action * list string * string.

(** [option_string[1] not in chars]. *)
Definition single_dash (option_string : string) : bool :=
  match option_string with
  | String _ (String c _) => negb (in_prefix_chars c)
  | _ => false
  end.

(** The branch of [consume_optional] without explicit argument: the
    option takes the argument strings that follow it. *)
Definition match_following (start_index : nat) (action : Action)
    (option_string : string) (action_tuples : list action_tuple)
  : outcome (list action_tuple * nat) :=
  let start := S start_index in
  arg_count ← _match_argument action (drop start pattern);
  let stop := (start + arg_count)%nat in
  Return (action_tuples
            ++ [(action, take arg_count (drop start arg_strings),
                 option_string)],
          stop).

(** The [elif arg_count == 1] and [else] branches of the explicit
    argument. *)
Definition match_explicit (start_index : nat) (action : Action)
    (option_string explicit_arg : string) (arg_count : nat)
    (action_tuples : list action_tuple)
  : outcome (list action_tuple * nat) :=
  if Nat.eqb arg_count 1 then
    Return (action_tuples ++ [(action, [explicit_arg], option_string)],
            S start_index)
  else
    Error (ArgumentError (_get_action_name action)
             (ignored_explicit_argument explicit_arg)).

(** The [while True] loop of [consume_optional], entered with an
    explicit argument: a single-dash option without argument hands
    the rest of the string over to the next single-dash option. *)
Fixpoint explicit_loop (start_index : nat) (action : Action)
    (option_string explicit_arg : string)
    (action_tuples : list action_tuple) {struct explicit_arg}
  : outcome (list action_tuple * nat) :=
  arg_count ← _match_argument action [pat_A];
  match explicit_arg with
  | String c new_explicit_arg =>
      if Nat.eqb arg_count 0 && single_dash option_string then
        let action_tuples :=
          action_tuples ++ [(action, [], option_string)] in
        let option_string' :=
          match option_string with
          | String char _ => String char (String c EmptyString)
          | EmptyString => String c EmptyString
          end in
        match dict_get (_option_string_actions self) option_string' with
        | Some action' =>
            match new_explicit_arg with
            | EmptyString =>
                match_following start_index action' option_string'
                                action_tuples
            | _ =>
                explicit_loop start_index action' option_string'
                              new_explicit_arg action_tuples
            end
        | None =>
            Error (ArgumentError (_get_action_name action)
                     (ignored_explicit_argument explicit_arg))
        end
      else
        match_explicit start_index action option_string explicit_arg
                       arg_count action_tuples
  | EmptyString =>
      match_explicit start_index action option_string explicit_arg
                     arg_count action_tuples
  end.

Fixpoint take_actions (action_tuples : list action_tuple) (st : state)
  : outcome state :=
  match action_tuples with
  | [] => Return st
  | (action, args, _) :: r =>
      st ← take_action action args st;
      take_actions r st
  end.

(** [consume_optional(start_index)]. *)
Definition consume_optional (start_index : nat) (st : state)
  : outcome (state * nat) :=
  match option_string_indices start_index with
  | None => Stuck
  | Some (None, _, _) =>
      Return (with_extras st
                (extras st ++ take 1 (drop start_index arg_strings)),
              S start_index)
  | Some (Some action, option_string, explicit_arg) =>
      '(action_tuples, stop) ←
        match explicit_arg with
        | Some explicit_arg =>
            explicit_loop start_index action option_string
                          explicit_arg []
        | None => match_following start_index action option_string []
        end;
      st ← take_actions action_tuples st;
      Return (st, stop)
  end.

Fixpoint take_positionals (counts : list (Action * nat))
    (start_index : nat) (st : state) : outcome (state * nat) :=
  match counts with
  | [] => Return (st, start_index)
  | (action, arg_count) :: r =>
      let args := take arg_count (drop start_index arg_strings) in
      st ← take_action action args st;
      take_positionals r (start_index + arg_count)%nat st
  end.

(** [consume_positionals(start_index)]. *)
Definition consume_positionals (start_index : nat) (st : state)
  : outcome (state * nat) :=
  let arg_counts :=
    _match_arguments_partial (positionals st)
                             (drop start_index pattern) in
  '(st', stop) ←
    take_positionals (zip (positionals st) arg_counts) start_index st;
  Return (with_positionals st'
            (drop (List.length arg_counts) (positionals st')),
          stop).

(** The end of a turn of the loop: the strings before the next
    option are extras, then the option is consumed.  [continue] is
    the rest of the loop. *)
Definition consume_next_option
    (continue : nat -> state -> outcome (state * nat))
    (next_option_string_index start_index : nat) (st : state)
  : outcome (state * nat) :=
  let '(st, start_index) :=
    match option_string_indices start_index with
    | None =>
        let strings :=
          take (next_option_string_index - start_index)
               (drop start_index arg_strings) in
        (with_extras st (extras st ++ strings),
         next_option_string_index)
    | Some _ => (st, start_index)
    end in
  '(st, start_index) ← consume_optional start_index st;
  continue start_index st.

(** One turn of the loop [while start_index <=
    max_option_string_index]. *)
Definition consume_turn
    (continue : nat -> state -> outcome (state * nat))
    (next_option_string_index start_index : nat) (st : state)
  : outcome (state * nat) :=
  if negb (Nat.eqb start_index next_option_string_index) then
    '(st, positionals_end_index) ← consume_positionals start_index st;
    if (start_index <? positionals_end_index)%nat
    then continue positionals_end_index st
    else consume_next_option continue next_option_string_index
                             positionals_end_index st
  else consume_next_option continue next_option_string_index
                           start_index st.

(** The loop; every turn moves [start_index] forward, so
    [len(arg_strings) + 1] turns are enough
    ([consume_loop_not_Stuck]). *)
Fixpoint consume_loop (fuel : nat) (start_index : nat) (st : state)
  : outcome (state * nat) :=
  if Z.of_nat start_index <=? max_option_string_index then
    match fuel, next_option_string_index start_index with
    | S fuel, Some next_option_string_index =>
        consume_turn (consume_loop fuel) next_option_string_index
                     start_index st
    | _, _ => Stuck
    end
  else Return (st, start_index).

(** The last loop of [_parse_known_args]: the required actions that
    were not seen are collected, and a default that is a string is
    converted by the [type] of its action. *)
Fixpoint finish_actions (actions : list Action) (seen : list string)
    (ns : gmap string pyval) (required_actions : list string)
  : outcome (gmap string pyval * list string) :=
  match actions with
  | [] => Return (ns, required_actions)
  | action :: r =>
      if existsb (String.eqb (dest action)) seen
      then finish_actions r seen ns required_actions
      else if required action
      then finish_actions r seen ns
             (required_actions ++ [_get_action_name action])
      else
        match default action, ns !! dest action with
        | Value (PStr d), Some (PStr v) =>
            if String.eqb d v then
              value ← _get_value action d;
              finish_actions r seen (<[dest action := value]> ns)
                             required_actions
            else finish_actions r seen ns required_actions
        | _, _ => finish_actions r seen ns required_actions
        end
  end.

(** [_parse_known_args(arg_strings, namespace)], after the pattern
    has been computed. *)
Definition consume_all (ns : gmap string pyval)
  : outcome (gmap string pyval * list string) :=
  let st := {| namespace := ns;
               seen_actions := [];
               positionals := _get_positional_actions;
               extras := [] |} in
  '(st, start_index) ←
    consume_loop (S (List.length arg_strings)) 0 st;
  '(st, stop_index) ← consume_positionals start_index st;
  let extras := extras st ++ drop stop_index arg_strings in
  '(ns, required_actions) ←
    finish_actions (_actions self) (seen_actions st) (namespace st) [];
  match required_actions with
  | _ :: _ => Error (arguments_required required_actions)
  | [] => Return (ns, extras)
  end.

End known_args.

Definition _parse_known_args (arg_strings : list string)
    (ns : gmap string pyval) : outcome (gmap string pyval * list string) :=
  pattern ← arg_strings_pattern arg_strings;
  consume_all arg_strings pattern ns.

(** The namespace before parsing: every action default that is not
    [SUPPRESS], the first declaration of a destination winning. *)
Definition default_namespace : gmap string pyval :=
  fold_left (fun ns action =>
               match ns !! dest action, default action with
               | None, Value v => <[dest action := v]> ns
               | _, _ => ns
               end) (_actions self) ∅.

(** [parse_known_args(args)]. *)
Definition parse_known_args (args : list string)
  : outcome (gmap string pyval * list string) :=
  _parse_known_args args default_namespace.

(** [parse_args(args)]. *)
Definition parse_args (args : list string) : outcome (gmap string pyval) :=
  '(ns, argv) ← parse_known_args args;
  match argv with
  | _ :: _ => Error (unrecognized_arguments argv)
  | [] => Return ns
  end.

End parser.

End argparse.

(** ** [build_parser] *)

Import argparse.

(** The float literal [0.5]: sign [+], mantissa [2^52], exponent [-53]. *)
Definition float_0_5 : spec_float := S754_finite false 4503599627370496 (-53).

(** The permutations of the source, then [combs]. *)
Definition perms : list (list string) :=
  list_set (itertools.permutations
              ["0"; "0"; "0"; "0"; "1"; "1"; "1"; "1"] 4).

Definition combs : list string := map Str.join perms.

Definition build_parser : ArgumentParser :=
  let parser := ArgumentParser_new in

  (* Mandatory arguments *)
  let parser :=
    add_argument ["svs"]
      [kw_type builtin_str; kw_metavar "input_image"] parser in

  (* Optional argument group: execution settings *)
  let parser :=
    add_argument ["--patch-size"]
      [kw_type builtin_int; kw_default (Value (PInt 512))] parser in
  let parser :=
    add_argument ["--verbose"]
      [kw_action "store_true"; kw_default (Value (PBool false))] parser in
  let parser :=
    add_argument ["--test-mode"]
      [kw_action "store_true"; kw_default (Value (PBool false))] parser in

  (* Optional argument group: output *)
  let parser :=
    add_argument ["--output"]
      [kw_type builtin_str; kw_default (Value (PStr "output/"))] parser in
  let parser :=
    add_argument ["--save-tilecrossed-image"]
      [kw_action "store_true"; kw_default (Value (PBool false))] parser in
  let parser :=
    add_argument ["--save-edges"]
      [kw_action "store_true"; kw_default (Value (PBool false))] parser in
  let parser :=
    add_argument ["--save-mask"]
      [kw_action "store_true"; kw_default (Value (PBool false))] parser in
  let parser :=
    add_argument ["--save-patches"]
      [kw_action "store_true"; kw_default (Value (PBool false))] parser in

  (* Optional argument group: downsampling *)
  let parser :=
    add_argument ["--output-downsample"]
      [kw_type builtin_int; kw_default (Value (PInt 16))] parser in
  let parser :=
    add_argument ["--downsample-mask"]
      [kw_type builtin_int; kw_default (Value (PInt 16))] parser in

  (* Optional argument group: segmentation *)
  let parser :=
    add_argument ["--borders"]
      [kw_type builtin_str; kw_default (Value (PStr "1111"));
       kw_choices combs] parser in
  let parser :=
    add_argument ["--corners"]
      [kw_type builtin_str; kw_default (Value (PStr "0000"));
       kw_choices combs] parser in
  let parser :=
    add_argument ["--k-const"]
      [kw_type builtin_int; kw_default (Value (PInt 10000))] parser in
  let parser :=
    add_argument ["--minimum_segmentsize"]
      [kw_type builtin_int; kw_default (Value (PInt 10000))] parser in
  let parser :=
    add_argument ["--number-of-lines"]
      [kw_type builtin_int; kw_default (Value (PInt 100));
       kw_metavar "NUMBER_OF_LINES"; kw_dest "lines"] parser in
  let parser :=
    add_argument ["--sigma"]
      [kw_type builtin_float; kw_default (Value (PFloat float_0_5))] parser in
  let parser :=
    add_argument ["--content-threshold"]
      [kw_type builtin_float; kw_default (Value (PFloat float_0_5));
       kw_metavar "CONTENT_THRESHOLD"; kw_dest "thres"] parser in
  parser.

(** * Vocabulary of the properties

    What the statements below say about an argument list, a parser and
    the declarations of [build_parser]. *)

Local Open Scope nat_scope.

(** ** Reading an argument list *)

(** The argument strings in front of the first [--]: the only ones that
    can be options. *)
Fixpoint before_separator (args : list string) : list string :=
  match args with
  | [] => []
  | s :: r => if String.eqb s "--" then [] else s :: before_separator r
  end.

(** [arg_string] is recognised as an option of destination [d]: exactly,
    with an explicit argument, or abbreviated. *)
Definition selects (self : ArgumentParser) (arg_string d : string) : bool :=
  match _parse_optional self arg_string with
  | Return (Some (Some action, _, _)) => String.eqb (dest action) d
  | _ => false
  end.

(** The option of destination [d] is given in [args]. *)
Definition option_given (self : ArgumentParser) (args : list string)
    (d : string) : bool :=
  existsb (fun s => selects self s d) (before_separator args).

(** [s] is a positional value of [args]: a string that is not read as an
    option, or any string after the separator. *)
Definition positional_string (self : ArgumentParser) (args : list string)
    (s : string) : Prop :=
  exists i,
    args !! i = Some s
    /\ ((s <> "--" /\ _parse_optional self s = Return None)
        \/ exists j, j < i /\ args !! j = Some "--").

(** The positional values of an argument list: the strings before the
    separator that are not read as options, and every string after it. *)
Fixpoint positional_values (self : ArgumentParser) (args : list string)
  : list string :=
  match args with
  | [] => []
  | s :: r =>
      if String.eqb s "--" then r
      else match _parse_optional self s with
           | Return None => s :: positional_values self r
           | _ => positional_values self r
           end
  end.

(** [s] is read as an argument, not as an option or as the separator. *)
Definition is_argument (self : ArgumentParser) (s : string) : Prop :=
  String.eqb s "--" = false /\ _parse_optional self s = Return None.

(** A string that does not start with [-]. *)
Definition plain (s : string) : bool :=
  match s with
  | EmptyString => true
  | String c _ => negb (in_prefix_chars c)
  end.

(** The part of an argument string that names an option: what stands
    before the first [=]. *)
Definition option_prefix (s : string) : string :=
  if Str.contains "=" s then fst (Str.split1 "=" s) else s.

(** [s] may stand for the option string [opt]: its option part is a
    prefix of [opt]. *)
Definition abbreviates (s opt : string) : bool :=
  Str.startswith opt (option_prefix s).

(** No argument string before the separator may stand for [opt]. *)
Definition omitted (args : list string) (opt : string) : bool :=
  forallb (fun s => negb (abbreviates s opt)) (before_separator args).

(** [opt], of more than two characters, is the only option string of
    destination [d]. *)
Definition sole_option (self : ArgumentParser) (d opt : string) : bool :=
  (2 <? String.length opt)
  && forallb (fun '(o, a) =>
                if String.eqb (dest a) d then String.eqb o opt else true)
             (_option_string_actions self).

(** ** Parsers and destinations *)

(** A decidable form of the assumptions of [parse_args_spec]: options are
    registered with option strings; a [store] takes one argument; only
    [help] has a two-character option string; there is one positional at
    most, taking one argument; a default that is a string is left as it
    is by the [type] of its action. *)
Definition well_formed (self : ArgumentParser) : bool :=
  forallb (fun '(key, a) =>
             negb (is_positional a)
             && match cls a, nargs a with
                | _StoreAction, nargs_0 => false
                | _, _ => true
                end
             && (if (String.length key =? 2)%nat
                 then match cls a with _HelpAction => true | _ => false end
                 else true))
          (_option_string_actions self)
  && (List.length (_get_positional_actions self) <=? 1)%nat
  && forallb (fun a =>
                (if is_positional a
                 then match nargs a with nargs_None => true | _ => false end
                 else true)
                && match default a, type a with
                   | Value (PStr _), Some (builtin_int | builtin_float) => false
                   | _, _ => true
                   end)
             (_actions self).

#[export] Instance callable_eq_dec : EqDecision callable.
Proof. solve_decision. Defined.

(** No positional has destination [d]. *)
Definition option_dest (self : ArgumentParser) (d : string) : bool :=
  forallb (fun a => negb (is_positional a && String.eqb (dest a) d))
          (_actions self).

(** [d] is the destination of [store_true] options only, [False] by
    default. *)
Definition flag_dest (self : ArgumentParser) (d : string) : bool :=
  option_dest self d
  && forallb (fun '(_, a) =>
                if String.eqb (dest a) d
                then match cls a, const a with
                     | _StoreTrueAction, PBool true => true
                     | _, _ => false
                     end
                else true)
             (_option_string_actions self)
  && match default_namespace self !! d with
     | Some (PBool false) => true
     | _ => false
     end.

(** [d] is the destination of [store] options only, of type [f] and
    choices [c]. *)
Definition store_dest (self : ArgumentParser) (d : string) (f : callable)
    (c : option (list string)) : bool :=
  option_dest self d
  && forallb (fun '(_, a) =>
                if String.eqb (dest a) d
                then match cls a with
                     | _StoreAction =>
                         bool_decide (type a = Some f)
                         && bool_decide (choices a = c)
                     | _ => false
                     end
                else true)
             (_option_string_actions self).

(** [d] is the destination of a required positional storing a string, and
    of no option. *)
Definition positional_dest (self : ArgumentParser) (d : string) : bool :=
  forallb (fun '(_, a) => negb (String.eqb (dest a) d))
          (_option_string_actions self)
  && forallb (fun a =>
                if is_positional a && String.eqb (dest a) d
                then match cls a, type a, choices a with
                     | _StoreAction, (None | Some builtin_str), None => true
                     | _, _, _ => false
                     end
                else true)
             (_actions self)
  && existsb (fun a => is_positional a && String.eqb (dest a) d && required a)
             (_actions self).

(** ** The declarations of [build_parser], in closed form *)

(** A [store] option and a [store_true] option, as [add_argument] builds
    them. *)
Definition store_option (option_string d : string) (f : callable)
    (v : pyval) (c : option (list string)) (m : option string) : Action :=
  {| cls := _StoreAction; option_strings := [option_string]; dest := d;
     nargs := nargs_None; const := PNone; default := Value v;
     type := Some f; choices := c; required := false; metavar := m |}.

Definition flag_option (option_string d : string) : Action :=
  {| cls := _StoreTrueAction; option_strings := [option_string]; dest := d;
     nargs := nargs_0; const := PBool true; default := Value (PBool false);
     type := None; choices := None; required := false; metavar := None |}.

(** [-h/--help], declared by [add_help=True]. *)
Definition action_help : Action :=
  {| cls := _HelpAction; option_strings := ["-h"; "--help"]; dest := "help";
     nargs := nargs_0; const := PNone; default := SUPPRESS;
     type := None; choices := None; required := false; metavar := None |}.

(** The positional [svs]. *)
Definition action_svs : Action :=
  {| cls := _StoreAction; option_strings := []; dest := "svs";
     nargs := nargs_None; const := PNone; default := Value PNone;
     type := Some builtin_str; choices := None; required := true;
     metavar := Some "input_image" |}.

(** The sixteen strings of four binary digits. *)
Definition bits4 : list string :=
  ["0000"; "0001"; "0010"; "0011"; "0100"; "0101"; "0110"; "0111";
   "1000"; "1001"; "1010"; "1011"; "1100"; "1101"; "1110"; "1111"].

(** The seventeen options, in the order of the source; [combs] is
    written as [bits4] ([combs_bits4]). *)
Definition declared_options : list Action :=
  [ store_option "--patch-size" "patch_size" builtin_int (PInt 512) None None;
    flag_option "--verbose" "verbose";
    flag_option "--test-mode" "test_mode";
    store_option "--output" "output" builtin_str (PStr "output/") None None;
    flag_option "--save-tilecrossed-image" "save_tilecrossed_image";
    flag_option "--save-edges" "save_edges";
    flag_option "--save-mask" "save_mask";
    flag_option "--save-patches" "save_patches";
    store_option "--output-downsample" "output_downsample" builtin_int
                 (PInt 16) None None;
    store_option "--downsample-mask" "downsample_mask" builtin_int
                 (PInt 16) None None;
    store_option "--borders" "borders" builtin_str (PStr "1111")
                 (Some bits4) None;
    store_option "--corners" "corners" builtin_str (PStr "0000")
                 (Some bits4) None;
    store_option "--k-const" "k_const" builtin_int (PInt 10000) None None;
    store_option "--minimum_segmentsize" "minimum_segmentsize" builtin_int
                 (PInt 10000) None None;
    store_option "--number-of-lines" "lines" builtin_int (PInt 100) None
                 (Some "NUMBER_OF_LINES");
    store_option "--sigma" "sigma" builtin_float (PFloat float_0_5) None None;
    store_option "--content-threshold" "thres" builtin_float
                 (PFloat float_0_5) None (Some "CONTENT_THRESHOLD") ].

(** The namespace [parse_args] starts from. *)
Definition declared_defaults : list (string * pyval) :=
  [("svs", PNone); ("patch_size", PInt 512); ("verbose", PBool false);
   ("test_mode", PBool false); ("output", PStr "output/");
   ("save_tilecrossed_image", PBool false); ("save_edges", PBool false);
   ("save_mask", PBool false); ("save_patches", PBool false);
   ("output_downsample", PInt 16); ("downsample_mask", PInt 16);
   ("borders", PStr "1111"); ("corners", PStr "0000");
   ("k_const", PInt 10000); ("minimum_segmentsize", PInt 10000);
   ("lines", PInt 100); ("sigma", PFloat float_0_5);
   ("thres", PFloat float_0_5)].

(** The two selectors and the six flags, each with its destination. *)
Definition selectors : list (string * string) :=
  [("--borders", "borders"); ("--corners", "corners")].

Definition flags : list (string * string) :=
  [("--verbose", "verbose"); ("--test-mode", "test_mode");
   ("--save-tilecrossed-image", "save_tilecrossed_image");
   ("--save-edges", "save_edges"); ("--save-mask", "save_mask");
   ("--save-patches", "save_patches")].

(** [0] or [1]. *)
Definition binary_digit (c : ascii) : bool :=
  Ascii.eqb c "0" || Ascii.eqb c "1".

(** A string of four characters, each [0] or [1]. *)
Definition four_bits (s : string) : bool :=
  Nat.eqb (String.length s) 4
  && forallb binary_digit (list_ascii_of_string s).

(** The floats 1 and 1.5. *)
Definition float_1 : spec_float := S754_finite false 4503599627370496 (-52).
Definition float_1_5 : spec_float := S754_finite false 6755399441055744 (-52).

(** * Properties of the [argparse] model *)

Lemma bind_Return {A B} (m : outcome A) (k : A -> outcome B) (b : B) :
  m ≫= k = Return b -> exists a, m = Return a /\ k a = Return b.
Proof. destruct m; cbn; intros H; try discriminate. eauto. Qed.

Lemma bind_not_Stuck {A B} (m : outcome A) (k : A -> outcome B) :
  m <> Stuck -> (forall a, m = Return a -> k a <> Stuck) -> m ≫= k <> Stuck.
Proof. destruct m; cbn; intros Hm Hk; try congruence. now apply Hk. Qed.

(** Inversion of a computation that returned. *)
Ltac inv_Return H :=
  let a := fresh "r" in
  let H1 := fresh H in
  lazymatch type of H with
  | _ ≫= _ = Return _ =>
      apply bind_Return in H; destruct H as (a & H1 & H)
  | Return _ = Return _ => injection H as H
  | Error _ = Return _ => discriminate H
  | HelpExit = Return _ => discriminate H
  | Stuck = Return _ => discriminate H
  end.

Section take_action.

Lemma take_action_Return action args st st' :
  take_action action args st = Return st' ->
  exists v ns,
    _get_values action args = Return v
    /\ __call__ action (namespace st) v = Return ns
    /\ st' = {| namespace := ns;
                seen_actions := dest action :: seen_actions st;
                positionals := positionals st;
                extras := extras st |}.
Proof.
  unfold take_action. intros H.
  inv_Return H. inv_Return H. inv_Return H. subst. eauto.
Qed.

Lemma call_Return action ns v ns' :
  __call__ action ns v = Return ns' ->
  cls action <> _HelpAction
  /\ ns' = <[dest action :=
               match cls action with
               | _StoreAction => v
               | _ => const action
               end]> ns.
Proof.
  unfold __call__. destruct (cls action); intros H; inv_Return H; subst;
    split; congruence.
Qed.

Lemma take_action_not_Stuck action args st :
  take_action action args st <> Stuck.
Proof.
  unfold take_action.
  assert (Hm : forall (A B : Type) (f : A -> outcome B) l, mapM f l <> Stuck
            \/ exists x, x ∈ l /\ f x = Stuck).
  { intros A B f l. induction l as [|x l IH]; cbn; [left; congruence|].
    destruct (f x) eqn:E; cbn; try (left; congruence).
    - destruct IH as [IH|(y & Hy & E')].
      + left. destruct (mapM f l); cbn; congruence.
      + right. exists y. split; [now right|assumption].
    - right. exists x. split; [now left|assumption]. }
  assert (Hv : forall s, _get_value action s <> Stuck).
  { intros s. unfold _get_value. destruct (type action); [|congruence].
    destruct (call _ _); congruence. }
  assert (Hc : forall v, _check_value action v <> Stuck).
  { intros v. unfold _check_value. destruct (choices action); [|congruence].
    destruct (value_in _ _); congruence. }
  assert (Hg : _get_values action args <> Stuck).
  { unfold _get_values.
    assert (Hl : forall l,
      (value ← mapM (_get_value action) l;
       _ ← mapM (_check_value action) value; Return (PList value))
      <> (Stuck : outcome pyval)).
    { intros l. apply bind_not_Stuck.
      - destruct (Hm _ _ (_get_value action) l) as [?|(x & _ & E)];
          [assumption|now apply Hv in E].
      - intros vs _. apply bind_not_Stuck; [|cbn; congruence].
        destruct (Hm _ _ (_check_value action) vs) as [?|(x & _ & E)];
          [assumption|now apply Hc in E]. }
    destruct (list_remove "--" args) as [|s [|? ?]]; try apply Hl.
    destruct (nargs action); [|apply Hl].
    apply bind_not_Stuck; [apply Hv|]. intros v _.
    apply bind_not_Stuck; [apply Hc|]. cbn. congruence. }
  apply bind_not_Stuck; [assumption|]. intros v _.
  apply bind_not_Stuck; [|cbn; congruence].
  unfold __call__. destruct (cls action); congruence.
Qed.

End take_action.

(** ** What [consume_optional] and [consume_positionals] do *)

Section consume.
Variable self : ArgumentParser.
Variable arg_strings : list string.
Variable pattern : list pattern_part.

(** An action a single-dash cluster can reach: one registered under a
    two-character option string. *)
Definition clustered (action : Action) : Prop :=
  exists c0 c1,
    dict_get (_option_string_actions self)
             (String c0 (String c1 EmptyString)) = Some action.

(** The tuples [consume_optional] builds at index [i] for [action]: the
    action itself first, then clustered actions, each with one argument
    string at most; the option takes no argument string, or the one after
    it. *)
Definition option_tuples_of (i : nat) (action : Action)
    (tuples : list action_tuple) (stop : nat) : Prop :=
  exists args option_string rest,
    tuples = (action, args, option_string) :: rest
    /\ List.length args <= 1
    /\ Forall (fun t => clustered (fst (fst t))
                        /\ List.length (snd (fst t)) <= 1) rest
    /\ (stop = S i \/ (stop = S (S i) /\ pattern !! S i = Some pat_A)).

Lemma match_following_spec i action option_string acc acc' stop :
  match_following arg_strings pattern i action option_string acc
    = Return (acc', stop) ->
  option_strings action <> [] ->
  exists args,
    acc' = acc ++ [(action, args, option_string)]
    /\ List.length args <= 1
    /\ (stop = S i \/ (stop = S (S i) /\ pattern !! S i = Some pat_A)).
Proof.
  unfold match_following, _match_argument, match_nargs_pattern.
  intros H Ho. inv_Return H. injection H as <- <-.
  eexists; split; [reflexivity|].
  destruct (option_strings action) as [|o os]; [congruence|].
  destruct (nargs action).
  - destruct (drop (S i) pattern) as [|[| |t] l] eqn:E;
      try discriminate H0.
    injection H0 as <-. split; [rewrite length_take; lia|].
    right. split; [lia|].
    rewrite <- (Nat.add_0_r (S i)), <- lookup_drop, E. reflexivity.
  - injection H0 as <-. split; [rewrite length_take; lia|]. left. lia.
Qed.

Lemma explicit_loop_spec explicit_arg :
  forall i action option_string acc acc' stop,
    explicit_loop self arg_strings pattern i action option_string
                  explicit_arg acc = Return (acc', stop) ->
    option_strings action <> [] ->
    (forall a, clustered a -> option_strings a <> []) ->
    exists new, acc' = acc ++ new /\ option_tuples_of i action new stop.
Proof.
  induction explicit_arg as [|c e IH];
    intros i action option_string acc acc' stop H Ho Hc; cbn in H;
    inv_Return H.
  - unfold match_explicit in H. destruct (r =? 1); [|discriminate H].
    injection H as <- <-. eexists; split; [reflexivity|].
    red. eexists _, _, []. repeat split; cbn; auto.
  - destruct ((r =? 0) && single_dash option_string) eqn:Eb.
    + apply andb_true_iff in Eb as [_ Eb].
      destruct option_string as [|c0 o]; [discriminate Eb|].
      destruct (dict_get _ _) as [action'|] eqn:E; [|discriminate H].
      assert (Hcl : clustered action') by (red; eauto).
      destruct e as [|c' e'].
      * apply match_following_spec in H as (args & -> & Hl & Hs); [|auto].
        rewrite <- app_assoc. eexists; split; [reflexivity|].
        red. eexists _, _, [_]. repeat split; cbn; auto.
      * apply IH in H
          as (new & -> & (args & os & rest & -> & Hl & Hr & Hs)); auto.
        rewrite <- app_assoc. eexists; split; [reflexivity|].
        red. eexists _, _, (_ :: _). repeat split; cbn; auto.
    + unfold match_explicit in H. destruct (r =? 1); [|discriminate H].
      injection H as <- <-. eexists; split; [reflexivity|].
      red. eexists _, _, []. repeat split; cbn; auto.
Qed.

(** An action some option of the pattern stands for. *)
Definition selected (action : Action) : Prop :=
  exists option_string explicit_arg,
    pat_O (Some action, option_string, explicit_arg) ∈ pattern.

Hypothesis table_options :
  forall key action,
    dict_get (_option_string_actions self) key = Some action ->
    option_strings action <> [].
Hypothesis pattern_options :
  forall action, selected action -> option_strings action <> [].

Lemma option_string_indices_elem i t :
  option_string_indices pattern i = Some t -> pat_O t ∈ pattern.
Proof.
  unfold option_string_indices.
  destruct (pattern !! i) as [[| |t']|] eqn:E; try discriminate.
  intros [= ->]. eapply list_elem_of_lookup_2, E.
Qed.

Lemma option_string_indices_lookup i t :
  option_string_indices pattern i = Some t <-> pattern !! i = Some (pat_O t).
Proof.
  unfold option_string_indices.
  destruct (pattern !! i) as [[| |t']|]; split; congruence.
Qed.

Lemma clustered_options action : clustered action -> option_strings action <> [].
Proof. intros (c0 & c1 & H). eapply table_options, H. Qed.

(** *** Where the indices go *)

Definition not_option (j : nat) : Prop :=
  exists p, pattern !! j = Some p /\ is_O p = false.

Lemma first_option_index_spec parts :
  forall i next,
    first_option_index i parts = Some next ->
    i <= next
    /\ (exists t, parts !! (next - i) = Some (pat_O t))
    /\ forall j, i <= j < next ->
                 exists p, parts !! (j - i) = Some p /\ is_O p = false.
Proof.
  induction parts as [|p parts IH]; intros i next H; cbn in H;
    [discriminate|].
  destruct (is_O p) eqn:E.
  - injection H as <-. rewrite Nat.sub_diag. repeat split; [lia| |lia].
    destruct p; try discriminate. cbn. eauto.
  - apply IH in H as (Hle & (t & Ht) & Hj). repeat split; [lia| |].
    + exists t. replace (next - i) with (S (next - S i)) by lia. exact Ht.
    + intros j Hij. destruct (decide (j = i)) as [->|Hne].
      * rewrite Nat.sub_diag. cbn. eauto.
      * replace (j - i) with (S (j - S i)) by lia. cbn. apply Hj. lia.
Qed.

Lemma next_option_string_index_spec i next :
  next_option_string_index pattern i = Some next ->
  i <= next
  /\ (exists t, pattern !! next = Some (pat_O t))
  /\ forall j, i <= j < next -> not_option j.
Proof.
  unfold next_option_string_index. intros H.
  apply first_option_index_spec in H as (Hle & (t & Ht) & Hj).
  rewrite lookup_drop in Ht. replace (i + (next - i)) with next in Ht by lia.
  repeat split; eauto.
  intros j Hij. destruct (Hj j Hij) as (p & Hp & E).
  rewrite lookup_drop in Hp. replace (i + (j - i)) with j in Hp by lia.
  red. eauto.
Qed.

Lemma last_option_index_spec parts :
  forall i acc,
    (acc < Z.of_nat i)%Z ->
    let m := last_option_index i parts acc in
    (m < Z.of_nat (i + List.length parts))%Z
    /\ (acc <= m)%Z
    /\ forall j t, parts !! j = Some (pat_O t) -> (Z.of_nat (i + j) <= m)%Z.
Proof.
  induction parts as [|p parts IH]; intros i acc Hacc; cbn.
  - repeat split; [lia|lia|]. intros j t H. now rewrite lookup_nil in H.
  - destruct (IH (S i) (if is_O p then Z.of_nat i else acc))
      as (H1 & H2 & H3).
    { destruct (is_O p); lia. }
    repeat split; [lia|destruct (is_O p); lia|].
    intros [|j] t Hj; simpl in Hj.
    + injection Hj as ->. simpl in *. lia.
    + specialize (H3 j t Hj). lia.
Qed.

Lemma max_option_string_index_bound :
  (max_option_string_index pattern < Z.of_nat (List.length pattern))%Z.
Proof.
  unfold max_option_string_index.
  destruct (last_option_index_spec pattern 0 (-1)%Z) as (H & _); [lia|].
  exact H.
Qed.

Lemma max_option_string_index_ge j t :
  pattern !! j = Some (pat_O t) ->
  (Z.of_nat j <= max_option_string_index pattern)%Z.
Proof.
  unfold max_option_string_index. intros H.
  destruct (last_option_index_spec pattern 0 (-1)%Z) as (_ & _ & H3); [lia|].
  apply (H3 j t H).
Qed.

Lemma last_option_index_is_option parts :
  forall i acc,
    let m := last_option_index i parts acc in
    m = acc
    \/ exists j t, parts !! j = Some (pat_O t) /\ m = Z.of_nat (i + j).
Proof.
  induction parts as [|p parts IH]; intros i acc; cbn; [now left|].
  destruct (IH (S i) (if is_O p then Z.of_nat i else acc))
    as [E|(j & t & Hj & E)].
  - rewrite E. destruct p as [| |t]; cbn; auto.
    right. exists 0, t. split; [reflexivity|]. f_equal. lia.
  - right. exists (S j), t. split; [exact Hj|]. rewrite E. f_equal. lia.
Qed.

Lemma first_option_index_is_Some parts :
  forall i j t,
    parts !! j = Some (pat_O t) -> is_Some (first_option_index i parts).
Proof.
  induction parts as [|p parts IH]; intros i j t H;
    [now rewrite lookup_nil in H|].
  cbn. destruct (is_O p) eqn:E; [eauto|].
  destruct j as [|j]; cbn in H.
  - injection H as ->. discriminate E.
  - eapply IH, H.
Qed.

Lemma next_option_string_index_is_Some i :
  (Z.of_nat i <= max_option_string_index pattern)%Z ->
  is_Some (next_option_string_index pattern i).
Proof.
  unfold max_option_string_index, next_option_string_index. intros H.
  destruct (last_option_index_is_option pattern 0 (-1)%Z)
    as [E|(j & t & Hj & E)]; [lia|].
  rewrite E in H.
  eapply (first_option_index_is_Some _ _ (j - i) t).
  rewrite lookup_drop. replace (i + (j - i)) with j by lia. exact Hj.
Qed.

Lemma dashes_spec parts :
  dashes parts <= List.length parts
  /\ Forall (fun p => is_O p = false) (take (dashes parts) parts).
Proof.
  induction parts as [|p parts [IH1 IH2]]; cbn; [split; [lia|constructor]|].
  destruct p; cbn; (split; [lia|]); constructor; auto.
Qed.

Lemma match_nargs_pattern_spec action parts n :
  match_nargs_pattern action parts = Some n ->
  n <= List.length parts /\ Forall (fun p => is_O p = false) (take n parts).
Proof.
  unfold match_nargs_pattern.
  destruct (option_strings action), (nargs action).
  - destruct (dashes_spec parts) as [Hd1 Hd2].
    destruct (drop (dashes parts) parts) as [|[| |t] r] eqn:E;
      try discriminate.
    intros [= <-]. destruct (dashes_spec r) as [Hr1 Hr2].
    remember (dashes parts) as d eqn:Ed.
    assert (Hp : parts = take d parts ++ pat_A :: r)
      by now rewrite <- E, take_drop.
    assert (Hlen : List.length parts = d + S (List.length r)).
    { rewrite Hp at 1. rewrite length_app, length_take. cbn. lia. }
    split; [lia|].
    rewrite Hp at 1. rewrite take_app, length_take.
    apply Forall_app. split.
    + rewrite take_take. replace (_ `min` _) with d by lia. exact Hd2.
    + replace (d + 1 + dashes r - d `min` List.length parts)
        with (S (dashes r)) by lia.
      cbn. constructor; auto.
  - intros [= <-]. apply dashes_spec.
  - destruct parts as [|[| |t] r]; try discriminate.
    intros [= <-]. cbn. split; [lia|]. rewrite take_0. repeat constructor.
  - intros [= <-]. split; [lia|]. rewrite take_0. constructor.
Qed.

Lemma match_nargs_patterns_spec actions :
  forall parts counts,
    match_nargs_patterns actions parts = Some counts ->
    List.length counts = List.length actions
    /\ sum_list counts <= List.length parts
    /\ Forall (fun p => is_O p = false) (take (sum_list counts) parts).
Proof.
  induction actions as [|a actions IH]; intros parts counts H; cbn in H.
  - injection H as <-. cbn. rewrite take_0. repeat split; [lia|constructor].
  - destruct (match_nargs_pattern a parts) as [n|] eqn:E; [|discriminate].
    destruct (match_nargs_patterns actions (drop n parts)) as [ns|] eqn:E';
      [|discriminate].
    injection H as <-. apply match_nargs_pattern_spec in E as [Hn1 Hn2].
    apply IH in E' as (Hl & Hs1 & Hs2). rewrite length_drop in Hs1.
    cbn. repeat split; [lia|lia|].
    rewrite <- (take_drop n parts) at 1. rewrite take_app, length_take.
    apply Forall_app. split.
    + rewrite take_take. replace (_ `min` _) with n by lia. exact Hn2.
    + replace (n + sum_list ns - n `min` List.length parts)
        with (sum_list ns) by lia. exact Hs2.
Qed.

Lemma _match_arguments_partial_spec actions parts :
  let counts := _match_arguments_partial actions parts in
  List.length counts <= List.length actions
  /\ sum_list counts <= List.length parts
  /\ Forall (fun p => is_O p = false) (take (sum_list counts) parts).
Proof.
  unfold _match_arguments_partial. cbv zeta.
  enough (H : forall i, let counts := match_partial_upto i actions parts in
            List.length counts <= List.length actions
            /\ sum_list counts <= List.length parts
            /\ Forall (fun p => is_O p = false)
                      (take (sum_list counts) parts)) by apply H.
  intros i. induction i as [|i IH]; cbn.
  - rewrite take_0. repeat split; [lia|lia|constructor].
  - destruct (match_nargs_patterns _ _) as [counts|] eqn:E; [|exact IH].
    apply match_nargs_patterns_spec in E as (Hl & Hs).
    split; [|exact Hs]. rewrite Hl, length_take. lia.
Qed.

Lemma take_positionals_spec counts :
  forall i st st' stop,
    take_positionals arg_strings counts i st = Return (st', stop) ->
    stop = i + sum_list (map snd counts)
    /\ seen_actions st'
       = rev (map (fun c => dest (fst c)) counts) ++ seen_actions st.
Proof.
  induction counts as [|[a n] counts IH]; intros i st st' stop H; cbn in H.
  - injection H as <- <-. cbn. split; [lia|reflexivity].
  - inv_Return H. apply take_action_Return in H0 as (v & ns & _ & _ & ->).
    apply IH in H as [-> ->]. cbn. split; [lia|].
    now rewrite <- app_assoc.
Qed.

Lemma consume_positionals_spec i st st' stop :
  consume_positionals arg_strings pattern i st = Return (st', stop) ->
  i <= stop
  /\ (forall j, i <= j < stop -> not_option j)
  /\ (exists new, seen_actions st' = new ++ seen_actions st).
Proof.
  unfold consume_positionals. intros H.
  inv_Return H. destruct r as [st1 stop1]. injection H as <- <-.
  apply take_positionals_spec in H0 as [-> Hs].
  destruct (_match_arguments_partial_spec (positionals st) (drop i pattern))
    as (Hl & Hsum & Hall).
  rewrite snd_zip in * by exact Hl.
  repeat split; [lia| |cbn; eauto].
  intros j Hj. red.
  rewrite Forall_lookup in Hall.
  destruct (pattern !! j) as [p|] eqn:E.
  - exists p. split; [reflexivity|]. apply (Hall (j - i)).
    rewrite lookup_take_lt by lia. rewrite lookup_drop.
    now replace (i + (j - i)) with j by lia.
  - apply lookup_ge_None in E. rewrite length_drop in Hsum. lia.
Qed.

Lemma take_actions_spec tuples :
  forall st st',
    take_actions tuples st = Return st' ->
    seen_actions st'
    = rev (map (fun t => dest (fst (fst t))) tuples) ++ seen_actions st.
Proof.
  induction tuples as [|[[a args] os] tuples IH]; intros st st' H; cbn in H.
  - injection H as <-. reflexivity.
  - inv_Return H. apply take_action_Return in H0 as (v & ns & _ & _ & ->).
    apply IH in H as ->. cbn. now rewrite <- app_assoc.
Qed.

Lemma consume_optional_spec i st st' stop :
  consume_optional self arg_strings pattern i st = Return (st', stop) ->
  (exists t, pattern !! i = Some (pat_O t)
             /\ forall a os e, t = (Some a, os, e) ->
                               dest a ∈ seen_actions st')
  /\ (stop = S i \/ (stop = S (S i) /\ pattern !! S i = Some pat_A))
  /\ (exists new, seen_actions st' = new ++ seen_actions st).
Proof.
  unfold consume_optional. intros H.
  destruct (option_string_indices pattern i) as [[[[a|] os] e]|] eqn:E;
    [| |discriminate H].
  - pose proof (option_string_indices_elem _ _ E) as Hin.
    apply option_string_indices_lookup in E.
    assert (Ha : selected a) by (red; eauto).
    inv_Return H. destruct r as [tuples stop'].
    inv_Return H. injection H as <- <-.
    assert (Ht : exists new, tuples = [] ++ new
                             /\ option_tuples_of i a new stop').
    { destruct e as [e|].
      - eapply explicit_loop_spec; eauto using clustered_options.
      - apply match_following_spec in H0 as (args & -> & Hl & Hs); auto.
        eexists; split; [reflexivity|]. red. eexists _, _, [].
        repeat split; auto. }
    destruct Ht as (new & -> & (args & os' & rest & -> & _ & Hr & Hstop)).
    apply take_actions_spec in H1. cbn in H1. rewrite H1.
    repeat split; [|exact Hstop|eauto].
    eexists; split; [exact E|]. intros a' os'' e' [= <- <- <-].
    rewrite !elem_of_app, list_elem_of_singleton. auto.
  - apply option_string_indices_lookup in E.
    injection H as <- <-. cbn. repeat split; [|auto|now exists []].
    eexists; split; [exact E|]. intros a' os'' e' [=].
Qed.

(** *** Invariants of the consumption *)

(** No [--] stands before index [i]. *)
Definition no_dash_before (i : nat) : Prop :=
  forall j, j < i -> pattern !! j <> Some pat_dash.

Section invariant.
Variable P : state -> Prop.
Variable Pos : Action -> Prop.

Hypothesis dash_last :
  forall j j' t,
    pattern !! j = Some pat_dash -> j < j' ->
    pattern !! j' <> Some (pat_O t).
Hypothesis P_extras : forall st l, P st -> P (with_extras st l).
Hypothesis P_positionals : forall st l, P st -> P (with_positionals st l).
Hypothesis P_option :
  forall action args st st',
    P st -> selected action \/ clustered action ->
    List.length args <= 1 ->
    take_action action args st = Return st' -> P st'.
Hypothesis P_positional :
  forall action n k st st',
    P st -> Pos action -> no_dash_before k ->
    match_nargs_pattern action (drop k pattern) = Some n ->
    take_action action (take n (drop k arg_strings)) st = Return st' ->
    P st'.

(** The invariant: [P], and at most one positional is left, which
    satisfies [Pos]. *)
Definition inv (st : state) : Prop :=
  P st /\ Forall Pos (positionals st) /\ List.length (positionals st) <= 1.

Lemma take_actions_inv tuples :
  forall st st',
    Forall (fun t => (selected (fst (fst t)) \/ clustered (fst (fst t)))
                     /\ List.length (snd (fst t)) <= 1)
           tuples ->
    inv st -> take_actions tuples st = Return st' -> inv st'.
Proof.
  induction tuples as [|[[a args] os] tuples IH];
    intros st st' Hs (HP & HF & Hl) H; cbn in H.
  - injection H as <-. red. auto.
  - inv_Return H. apply Forall_cons in Hs as [[Ha Hla] Hs].
    pose proof (P_option _ _ _ _ HP Ha Hla H0) as HP'.
    apply take_action_Return in H0 as (v & ns & _ & _ & ->).
    eapply IH; [exact Hs| |exact H]. red. auto.
Qed.

Lemma consume_optional_inv i st st' stop :
  inv st ->
  consume_optional self arg_strings pattern i st = Return (st', stop) ->
  inv st'.
Proof.
  unfold consume_optional. intros HP H.
  destruct (option_string_indices pattern i) as [[[[a|] os] e]|] eqn:E;
    [| |discriminate H].
  - apply option_string_indices_elem in E.
    assert (Ha : selected a) by (red; eauto).
    inv_Return H. destruct r as [tuples stop'].
    inv_Return H. injection H as <- <-.
    assert (Ht : exists new, tuples = [] ++ new
                             /\ option_tuples_of i a new stop').
    { destruct e as [e|].
      - eapply explicit_loop_spec; eauto using clustered_options.
      - apply match_following_spec in H0 as (args & -> & Hl & Hs); auto.
        eexists; split; [reflexivity|]. red. eexists _, _, [].
        repeat split; auto. }
    destruct Ht as (new & -> & (args & os' & rest & -> & Hl' & Hr & _)).
    eapply take_actions_inv; [|eassumption..].
    cbn. constructor; [cbn; auto|].
    eapply Forall_impl; [exact Hr|]. cbn. intros ? []. auto.
  - injection H as <- <-. destruct HP as (HP & HF & Hl). red. auto.
Qed.

Lemma consume_positionals_inv i st st' stop :
  inv st -> no_dash_before i ->
  consume_positionals arg_strings pattern i st = Return (st', stop) ->
  inv st'.
Proof.
  unfold consume_positionals, _match_arguments_partial.
  intros (HP & HF & Hl) Hd H.
  destruct (positionals st) as [|a [|a' l]] eqn:Ep; cbn in Hl; [| |lia].
  - cbn in H. injection H as <- <-. unfold inv. cbn. rewrite Ep.
    repeat split; [now apply P_positionals|constructor|cbn; lia].
  - cbn in H. apply Forall_cons in HF as [Ha _].
    destruct (match_nargs_pattern a (drop i pattern)) as [n|] eqn:En;
      cbn in H.
    + apply bind_Return in H as ([st1 stop1] & H1 & H).
      injection H as <- <-.
      apply bind_Return in H1 as (st2 & H2 & H1). injection H1 as <- <-.
      pose proof (P_positional _ _ _ _ _ HP Ha Hd En H2) as HP'.
      apply take_action_Return in H2 as (v & ns & _ & _ & ->).
      unfold inv. cbn. rewrite Ep in *. cbn.
      repeat split; [now apply P_positionals|constructor|lia].
    + injection H as <- <-. unfold inv. cbn. rewrite Ep. cbn.
      split; [now apply P_positionals|split; [|lia]].
      now constructor.
Qed.

Lemma no_dash_before_option i next :
  no_dash_before i -> i <= next ->
  (exists t, pattern !! next = Some (pat_O t)) ->
  no_dash_before (S next).
Proof.
  intros Hd Hle (t & Ht) j Hj Hp.
  destruct (decide (j < i)) as [Hlt|Hge]; [now apply (Hd j)|].
  destruct (decide (j = next)) as [->|Hne]; [congruence|].
  eapply dash_last; [exact Hp| |exact Ht]. lia.
Qed.

Lemma no_dash_before_stop i stop :
  no_dash_before (S i) ->
  stop = S i \/ (stop = S (S i) /\ pattern !! S i = Some pat_A) ->
  no_dash_before stop.
Proof.
  intros Hd [->|[-> HA]]; [exact Hd|].
  intros j Hj Hp. destruct (decide (j = S i)) as [->|Hne]; [congruence|].
  apply (Hd j); [lia|exact Hp].
Qed.

Section continue_inv.
Variable continue : nat -> state -> outcome (state * nat).
Variable st' : state.
Variable stop : nat.
Hypothesis continue_inv :
  forall j st,
    inv st -> no_dash_before j ->
    continue j st = Return (st', stop) ->
    inv st' /\ no_dash_before stop.

Lemma consume_next_option_inv next i st :
  inv st -> no_dash_before i ->
  next_option_string_index pattern i = Some next ->
  consume_next_option self arg_strings pattern continue next i st
    = Return (st', stop) ->
  inv st' /\ no_dash_before stop.
Proof.
  unfold consume_next_option. intros HP Hd Hnext H.
  apply next_option_string_index_spec in Hnext as (Hle & Ht & Hn).
  destruct (option_string_indices pattern i) as [t|] eqn:E;
    inv_Return H; destruct r as [st3 j''].
  - pose proof (consume_optional_inv _ _ _ _ HP H0) as HP3.
    apply consume_optional_spec in H0 as (Ht' & Hs & _).
    eapply continue_inv; [exact HP3| |exact H].
    eapply no_dash_before_stop; [|exact Hs].
    eapply no_dash_before_option; [exact Hd|lia|].
    destruct Ht' as (t' & Ht' & _). eauto.
  - assert (HP2 : inv (with_extras st
                (extras st ++ take (next - i) (drop i arg_strings)))).
    { destruct HP as (HP & HF & Hl). red. cbn. auto. }
    pose proof (consume_optional_inv _ _ _ _ HP2 H0) as HP3.
    apply consume_optional_spec in H0 as (_ & Hs & _).
    eapply continue_inv; [exact HP3| |exact H].
    eapply no_dash_before_stop; [|exact Hs].
    eapply no_dash_before_option; eauto.
Qed.

Lemma consume_turn_inv next i st :
  inv st -> no_dash_before i ->
  next_option_string_index pattern i = Some next ->
  consume_turn self arg_strings pattern continue next i st
    = Return (st', stop) ->
  inv st' /\ no_dash_before stop.
Proof.
  unfold consume_turn. intros HP Hd Hnext H.
  destruct (negb (i =? next));
    [|eapply consume_next_option_inv; eauto].
  inv_Return H. destruct r as [st1 pend].
  pose proof (consume_positionals_inv _ _ _ _ HP Hd H0) as HP1.
  apply consume_positionals_spec in H0 as (Hle & Hn & _).
  destruct (i <? pend) eqn:El.
  - eapply continue_inv; [exact HP1| |exact H].
    pose proof (next_option_string_index_spec _ _ Hnext)
      as (Hle' & (t & Ht) & _).
    assert (pend <= next).
    { destruct (decide (pend <= next)) as [?|Hgt]; [assumption|].
      destruct (Hn next) as (p & Hp & Ep); [lia|].
      rewrite Ht in Hp. injection Hp as <-. discriminate Ep. }
    intros j Hj Hp.
    destruct (decide (j < i)) as [Hlt|Hge]; [now apply (Hd j)|].
    eapply dash_last; [exact Hp| |exact Ht]. lia.
  - apply Nat.ltb_ge in El. replace pend with i in * by lia.
    eapply consume_next_option_inv; eauto.
Qed.

End continue_inv.

Lemma consume_loop_inv fuel :
  forall i st st' stop,
    inv st -> no_dash_before i ->
    consume_loop self arg_strings pattern fuel i st = Return (st', stop) ->
    inv st' /\ no_dash_before stop.
Proof.
  induction fuel as [|fuel IH]; intros i st st' stop HP Hd H;
    simpl consume_loop in H;
    destruct (Z.of_nat i <=? max_option_string_index pattern)%Z;
    try discriminate H; try (injection H as <- <-; now auto).
  destruct (next_option_string_index pattern i) as [next|] eqn:En;
    [|discriminate H].
  eapply consume_turn_inv; [|exact HP|exact Hd|exact En|exact H].
  intros j st1 HP1 Hd1 H1. eapply IH; eauto.
Qed.

End invariant.

(** *** Every option of the pattern is consumed *)

(** The options before index [i] have been seen. *)
Definition covered (i : nat) (st : state) : Prop :=
  forall j a os e,
    j < i -> pattern !! j = Some (pat_O (Some a, os, e)) ->
    dest a ∈ seen_actions st.

Lemma covered_step i i' st st' :
  covered i st ->
  (exists new, seen_actions st' = new ++ seen_actions st) ->
  (forall j, i <= j < i' -> not_option j) ->
  covered i' st'.
Proof.
  intros Hc (new & Hs) Hn j a os e Hj Hp. rewrite Hs, elem_of_app.
  destruct (decide (j < i)) as [Hlt|Hge]; [right; eapply Hc; eauto|].
  destruct (Hn j) as (p & Hp' & E); [lia|].
  rewrite Hp in Hp'. injection Hp' as <-. discriminate E.
Qed.

Lemma covered_optional i st st' stop :
  covered i st ->
  consume_optional self arg_strings pattern i st = Return (st', stop) ->
  covered stop st' /\ i < stop.
Proof.
  intros Hc H.
  apply consume_optional_spec in H as ((t & Ht & Hseen) & Hstop & Hnew).
  split; [|lia].
  intros j a os e Hj Hp.
  destruct (decide (j < i)) as [Hlt|Hge].
  - destruct Hnew as (new & ->). rewrite elem_of_app. right.
    eapply Hc; eauto.
  - destruct (decide (j = i)) as [->|Hne].
    + rewrite Ht in Hp. injection Hp as ->. eapply Hseen. reflexivity.
    + destruct Hstop as [->|[-> HA]]; [lia|].
      replace j with (S i) in Hp by lia. congruence.
Qed.

Section continue_covers.
Variable continue : nat -> state -> outcome (state * nat).
Variable Goal : Prop.
Variable r : state * nat.
Variable bound : nat.
Hypothesis continue_covers :
  forall j st, bound < j -> covered j st -> continue j st = Return r -> Goal.

Lemma consume_next_option_covers next i st :
  bound <= i -> covered i st ->
  next_option_string_index pattern i = Some next ->
  consume_next_option self arg_strings pattern continue next i st
    = Return r -> Goal.
Proof.
  unfold consume_next_option. intros Hb Hc Hnext H.
  apply next_option_string_index_spec in Hnext as (Hle & _ & Hn).
  destruct (option_string_indices pattern i);
    inv_Return H; destruct r0 as [st3 j''];
    apply covered_optional in H0 as [Hc3 Hlt];
    try (eapply continue_covers; [|exact Hc3|exact H]; lia).
  - exact Hc.
  - eapply covered_step; [exact Hc|now exists []|exact Hn].
Qed.

Lemma consume_turn_covers next i st :
  bound <= i -> covered i st ->
  next_option_string_index pattern i = Some next ->
  consume_turn self arg_strings pattern continue next i st = Return r ->
  Goal.
Proof.
  unfold consume_turn. intros Hb Hc Hnext H.
  destruct (negb (i =? next));
    [|eapply consume_next_option_covers; eauto].
  inv_Return H. destruct r0 as [st1 pend].
  apply consume_positionals_spec in H0 as (Hle & Hn & Hnew).
  assert (Hc1 : covered pend st1) by (eapply covered_step; eauto).
  destruct (i <? pend) eqn:E.
  - apply Nat.ltb_lt in E.
    apply (continue_covers pend st1); [lia|exact Hc1|exact H].
  - apply Nat.ltb_ge in E. replace pend with i in * by lia.
    eapply consume_next_option_covers; eauto.
Qed.

End continue_covers.

Lemma consume_loop_covers fuel :
  forall i st st' stop,
    covered i st ->
    consume_loop self arg_strings pattern fuel i st = Return (st', stop) ->
    covered (List.length pattern) st'.
Proof.
  induction fuel as [|fuel IH]; intros i st st' stop Hc H;
    simpl consume_loop in H;
    destruct (Z.of_nat i <=? max_option_string_index pattern)%Z eqn:E;
    try discriminate H.
  - injection H as <- <-. intros j a os e _ Hp. eapply Hc; [|exact Hp].
    apply max_option_string_index_ge in Hp. lia.
  - destruct (next_option_string_index pattern i) as [next|] eqn:En;
      [|discriminate H].
    eapply (consume_turn_covers _ _ _ i); [|reflexivity|exact Hc|exact En|exact H].
    intros j st1 _ Hc1 H1. eapply IH; eauto.
  - injection H as <- <-. intros j a os e _ Hp. eapply Hc; [|exact Hp].
    apply max_option_string_index_ge in Hp. lia.
Qed.

(** *** The loop has fuel enough *)

Lemma take_actions_not_Stuck tuples :
  forall st, take_actions tuples st <> Stuck.
Proof.
  induction tuples as [|[[a args] os] tuples IH]; intros st; cbn;
    [congruence|].
  apply bind_not_Stuck; [apply take_action_not_Stuck|]. intros; apply IH.
Qed.

Lemma _match_argument_not_Stuck action parts :
  _match_argument action parts <> Stuck.
Proof. unfold _match_argument. destruct (match_nargs_pattern _ _); congruence. Qed.

Lemma match_following_not_Stuck i action option_string acc :
  match_following arg_strings pattern i action option_string acc <> Stuck.
Proof.
  unfold match_following.
  apply bind_not_Stuck; [apply _match_argument_not_Stuck|]. congruence.
Qed.

Lemma explicit_loop_not_Stuck explicit_arg :
  forall i action option_string acc,
    explicit_loop self arg_strings pattern i action option_string
                  explicit_arg acc <> Stuck.
Proof.
  assert (Hm : forall i action option_string e n acc,
             match_explicit i action option_string e n acc <> Stuck).
  { intros. unfold match_explicit. destruct (_ =? 1); congruence. }
  induction explicit_arg as [|c e IH]; intros i action option_string acc;
    cbn; (apply bind_not_Stuck; [apply _match_argument_not_Stuck|]);
    intros n _; [apply Hm|].
  destruct (_ && _); [|apply Hm].
  destruct (dict_get _ _); [|congruence].
  destruct e; [apply match_following_not_Stuck|apply IH].
Qed.

Lemma consume_optional_not_Stuck i st :
  is_Some (option_string_indices pattern i) ->
  consume_optional self arg_strings pattern i st <> Stuck.
Proof.
  unfold consume_optional. intros [[[[a|] os] e] ->]; [|congruence].
  apply bind_not_Stuck.
  - destruct e; [apply explicit_loop_not_Stuck|apply match_following_not_Stuck].
  - intros [tuples stop] _.
    apply bind_not_Stuck; [apply take_actions_not_Stuck|]. congruence.
Qed.

Lemma consume_positionals_not_Stuck i st :
  consume_positionals arg_strings pattern i st <> Stuck.
Proof.
  unfold consume_positionals.
  apply bind_not_Stuck; [|intros [? ?]; congruence].
  generalize (zip (positionals st)
                  (_match_arguments_partial (positionals st)
                                            (drop i pattern))).
  intros counts. revert i st.
  induction counts as [|[a n] counts IH]; intros i st; cbn; [congruence|].
  apply bind_not_Stuck; [apply take_action_not_Stuck|]. intros; apply IH.
Qed.

Lemma consume_next_option_not_Stuck continue next i st :
  (forall j st1, i < j -> continue j st1 <> Stuck) ->
  next_option_string_index pattern i = Some next ->
  consume_next_option self arg_strings pattern continue next i st <> Stuck.
Proof.
  unfold consume_next_option. intros Hk Hnext.
  apply next_option_string_index_spec in Hnext as (Hle & (t & Ht) & _).
  destruct (option_string_indices pattern i) eqn:E.
  - apply bind_not_Stuck; [apply consume_optional_not_Stuck; now rewrite E|].
    intros [st3 j] H. apply consume_optional_spec in H as (_ & Hs & _).
    apply Hk. lia.
  - apply bind_not_Stuck.
    + apply consume_optional_not_Stuck.
      exists t. now apply option_string_indices_lookup.
    + intros [st3 j] H. apply consume_optional_spec in H as (_ & Hs & _).
      apply Hk. lia.
Qed.

Lemma consume_loop_not_Stuck fuel :
  forall i st,
    List.length pattern < fuel + i ->
    consume_loop self arg_strings pattern fuel i st <> Stuck.
Proof.
  induction fuel as [|fuel IH]; intros i st Hf; simpl consume_loop;
    destruct (Z.of_nat i <=? max_option_string_index pattern)%Z eqn:E;
    try congruence.
  - apply Z.leb_le in E. pose proof max_option_string_index_bound. lia.
  - apply Z.leb_le in E.
    destruct (next_option_string_index_is_Some i E) as [next Hnext].
    rewrite Hnext. unfold consume_turn.
    assert (Hk : forall j st1, i < j ->
                   consume_loop self arg_strings pattern fuel j st1 <> Stuck)
      by (intros; apply IH; lia).
    destruct (negb (i =? next));
      [|now apply consume_next_option_not_Stuck].
    apply bind_not_Stuck; [apply consume_positionals_not_Stuck|].
    intros [st1 pend] H. apply consume_positionals_spec in H as (Hle & _).
    destruct (i <? pend) eqn:El.
    + apply Nat.ltb_lt in El. now apply Hk.
    + apply Nat.ltb_ge in El. replace pend with i by lia.
      now apply consume_next_option_not_Stuck.
Qed.

End consume.

(** ** The pattern of an argument list *)

Lemma lookup_map_const {A B} (c : B) (l : list A) i p :
  map (fun _ => c) l !! i = Some p -> p = c.
Proof.
  revert i. induction l as [|x l IH]; intros [|i] H; cbn in H;
    try discriminate; [now injection H as <-|eauto].
Qed.

Section pattern.
Variable self : ArgumentParser.

Lemma arg_strings_pattern_length args :
  forall pattern,
    arg_strings_pattern self args = Return pattern ->
    List.length pattern = List.length args.
Proof.
  induction args as [|s args IH]; intros pattern H; cbn in H.
  - now injection H as <-.
  - destruct (String.eqb s "--").
    + injection H as <-. cbn. now rewrite length_map.
    + inv_Return H. inv_Return H. injection H as <-. cbn.
      f_equal. now apply IH.
Qed.

Lemma arg_strings_pattern_option args :
  forall pattern i t,
    arg_strings_pattern self args = Return pattern ->
    pattern !! i = Some (pat_O t) ->
    exists s, args !! i = Some s
              /\ s ∈ before_separator args
              /\ _parse_optional self s = Return (Some t).
Proof.
  induction args as [|s args IH]; intros pattern i t H Hi; cbn in H.
  - injection H as <-. now rewrite lookup_nil in Hi.
  - destruct (String.eqb s "--") eqn:Es.
    + injection H as <-. destruct i as [|i]; [discriminate Hi|].
      cbn in Hi. apply lookup_map_const in Hi. discriminate Hi.
    + inv_Return H. inv_Return H. injection H as <-.
      cbn [before_separator]. rewrite Es.
      destruct i as [|i]; cbn in Hi.
      * exists s. repeat split; [apply list_elem_of_here|].
        destruct r as [t'|]; [|discriminate Hi]. now injection Hi as ->.
      * destruct (IH _ _ _ H1 Hi) as (s' & Hs' & Hin & Hp).
        exists s'. repeat split; auto using list_elem_of_further.
Qed.

Lemma arg_strings_pattern_given args :
  forall pattern s t,
    arg_strings_pattern self args = Return pattern ->
    s ∈ before_separator args ->
    _parse_optional self s = Return (Some t) ->
    pat_O t ∈ pattern.
Proof.
  induction args as [|s0 args IH]; intros pattern s t H Hin Hp; cbn in H, Hin.
  - now apply elem_of_nil in Hin.
  - destruct (String.eqb s0 "--"); [now apply elem_of_nil in Hin|].
    inv_Return H. inv_Return H. injection H as <-.
    apply elem_of_cons in Hin as [->|Hin].
    + rewrite Hp in H0. injection H0 as <-. apply list_elem_of_here.
    + apply list_elem_of_further. eapply IH; eauto.
Qed.

Lemma arg_strings_pattern_dash args :
  forall pattern i,
    arg_strings_pattern self args = Return pattern ->
    pattern !! i = Some pat_dash ->
    args !! i = Some "--"
    /\ (forall j, j < i -> args !! j <> Some "--")
    /\ (forall j p, i < j -> pattern !! j = Some p -> p = pat_A).
Proof.
  induction args as [|s args IH]; intros pattern i H Hi; cbn in H.
  - injection H as <-. now rewrite lookup_nil in Hi.
  - destruct (String.eqb s "--") eqn:Es.
    + injection H as <-. destruct i as [|i].
      * apply String.eqb_eq in Es as ->. repeat split; [lia|].
        intros [|j] p Hj Hp; [lia|]. cbn in Hp.
        now apply lookup_map_const in Hp.
      * cbn in Hi. apply lookup_map_const in Hi. discriminate Hi.
    + inv_Return H. inv_Return H. injection H as <-.
      destruct i as [|i]; cbn in Hi.
      * destruct r; discriminate Hi.
      * destruct (IH _ _ H1 Hi) as (Ha & Hb & Hc).
        repeat split; [exact Ha| |].
        -- intros [|j] Hj; cbn.
           ++ apply String.eqb_neq in Es. congruence.
           ++ apply Hb. lia.
        -- intros [|j] p Hj Hp; [lia|]. cbn in Hp. eapply Hc; [|exact Hp]. lia.
Qed.

Lemma arg_strings_pattern_A args :
  forall pattern i,
    arg_strings_pattern self args = Return pattern ->
    pattern !! i = Some pat_A -> args !! i = Some "--" ->
    exists j, j < i /\ pattern !! j = Some pat_dash.
Proof.
  induction args as [|s args IH]; intros pattern i H Hi Ha; cbn in H.
  - now rewrite lookup_nil in Ha.
  - destruct (String.eqb s "--") eqn:Es.
    + injection H as <-. destruct i as [|i]; [discriminate Hi|].
      exists 0. split; [lia|reflexivity].
    + inv_Return H. inv_Return H. injection H as <-.
      destruct i as [|i]; cbn in Hi, Ha.
      * injection Ha as ->. discriminate Es.
      * destruct (IH _ _ H1 Hi Ha) as (j & Hj & Hp).
        exists (S j). split; [lia|exact Hp].
Qed.

Lemma arg_strings_pattern_argument args :
  forall pattern i s,
    arg_strings_pattern self args = Return pattern ->
    pattern !! i = Some pat_A -> args !! i = Some s ->
    _parse_optional self s = Return None
    \/ exists j, j < i /\ args !! j = Some "--".
Proof.
  induction args as [|s0 args IH]; intros pattern i s H Hi Ha; cbn in H.
  - now rewrite lookup_nil in Ha.
  - destruct (String.eqb s0 "--") eqn:Es.
    + injection H as <-. destruct i as [|i]; [discriminate Hi|].
      apply String.eqb_eq in Es as ->.
      right. exists 0. split; [lia|reflexivity].
    + inv_Return H. inv_Return H. injection H as <-.
      destruct i as [|i]; cbn in Hi, Ha.
      * injection Ha as <-. left. now destruct r.
      * destruct (IH _ _ _ H1 Hi Ha) as [Hn|(j & Hj & Hd)]; [now left|].
        right. exists (S j). split; [lia|exact Hd].
Qed.

Lemma _parse_optional_not_Stuck s : _parse_optional self s <> Stuck.
Proof.
  unfold _parse_optional. destruct s as [|c0 rest]; [congruence|].
  destruct (negb _); [congruence|]. destruct (dict_get _ _); [congruence|].
  destruct rest; [congruence|].
  match goal with |- context [match ?x with Some _ => _ | None => _ end] =>
    destruct x end; [congruence|].
  apply bind_not_Stuck.
  - unfold _get_option_tuples. destruct (_ && _); [|destruct (_ && _)];
      try congruence.
    destruct allow_abbrev; [|congruence].
    destruct (Str.contains _ _); [destruct (Str.split1 _ _)|]; congruence.
  - intros [|t [|t' l]] _; try congruence.
    destruct (_ && _); [congruence|]. destruct (Str.contains _ _); congruence.
Qed.

Lemma arg_strings_pattern_not_Stuck args :
  arg_strings_pattern self args <> Stuck.
Proof.
  induction args as [|s args IH]; cbn; [congruence|].
  destruct (String.eqb s "--"); [congruence|].
  apply bind_not_Stuck; [apply _parse_optional_not_Stuck|]. intros t _.
  apply bind_not_Stuck; [exact IH|]. congruence.
Qed.

(** The strings a positional with [nargs=None] takes, started where no
    [--] has been passed: once the first [--] is removed, one string of
    the argument list is left. *)
Lemma positional_strings args pattern action k n :
  arg_strings_pattern self args = Return pattern ->
  option_strings action = [] -> nargs action = nargs_None ->
  no_dash_before pattern k ->
  match_nargs_pattern action (drop k pattern) = Some n ->
  exists s,
    positional_string self args s
    /\ list_remove "--" (take n (drop k args)) = [s].
Proof.
  intros Hpat Ho Hn Hd Hm.
  pose proof (arg_strings_pattern_length _ _ Hpat) as Hlen.
  unfold match_nargs_pattern in Hm. rewrite Ho, Hn in Hm.
  assert (Hlk : forall j, drop k pattern !! j = pattern !! (k + j))
    by (intros; apply lookup_drop).
  assert (Hla : forall j, drop k args !! j = args !! (k + j))
    by (intros; apply lookup_drop).
  assert (Hl : List.length (drop k pattern) = List.length (drop k args))
    by (rewrite !length_drop; lia).
  destruct (drop k pattern) as [|p0 pk1] eqn:Ep; [discriminate Hm|].
  destruct (drop k args) as [|s0 ak1] eqn:Ea; [discriminate Hl|].
  pose proof (Hlk 0) as H0. pose proof (Hla 0) as A0. cbn in H0, A0.
  rewrite Nat.add_0_r in H0, A0. symmetry in H0, A0.
  destruct p0 as [| |t]; [| |discriminate Hm].
  - (* the positional starts on an argument *)
    assert (Hs0 : s0 <> "--").
    { intros ->.
      destruct (arg_strings_pattern_A _ _ _ Hpat H0 A0) as (j & Hj & Hp).
      now apply (Hd j). }
    assert (Hin : positional_string self args s0).
    { exists k. split; [exact A0|].
      destruct (arg_strings_pattern_argument _ _ _ _ Hpat H0 A0) as [Hp|Hj];
        [left; now split|now right]. }
    cbn in Hm. injection Hm as <-.
    destruct pk1 as [|p1 pk2]; [|destruct p1 as [| |t]].
    + exists s0. split; [exact Hin|]. cbn.
      rewrite take_0. cbn. apply String.eqb_neq in Hs0. now rewrite Hs0.
    + exists s0. split; [exact Hin|]. cbn.
      rewrite take_0. cbn. apply String.eqb_neq in Hs0. now rewrite Hs0.
    + destruct ak1 as [|s1 ak2]; [discriminate Hl|].
      pose proof (Hlk 1) as H1. pose proof (Hla 1) as A1. cbn in H1, A1.
      symmetry in H1, A1.
      destruct (arg_strings_pattern_dash _ _ _ Hpat H1) as (Hs1 & _ & Hafter).
      rewrite Hs1 in A1. injection A1 as <-.
      assert (Hz : dashes pk2 = 0).
      { destruct pk2 as [|p2 pk3]; [reflexivity|].
        pose proof (Hlk 2) as H2. cbn in H2. symmetry in H2.
        apply Hafter in H2 as ->; [reflexivity|lia]. }
      cbn. rewrite Hz. cbn. rewrite take_0.
      exists s0. split; [exact Hin|]. cbn.
      apply String.eqb_neq in Hs0. now rewrite Hs0.
    + exists s0. split; [exact Hin|]. cbn.
      rewrite take_0. cbn. apply String.eqb_neq in Hs0. now rewrite Hs0.
  - (* the positional starts on the separator *)
    destruct (arg_strings_pattern_dash _ _ _ Hpat H0) as (Hs0 & _ & Hafter).
    rewrite Hs0 in A0. injection A0 as <-.
    destruct pk1 as [|p1 pk2]; [discriminate Hm|].
    pose proof (Hlk 1) as H1. cbn in H1. symmetry in H1.
    assert (p1 = pat_A) as -> by (eapply Hafter; [|exact H1]; lia).
    cbn in Hm.
    assert (Hz : dashes pk2 = 0).
    { destruct pk2 as [|p2 pk3]; [reflexivity|].
      pose proof (Hlk 2) as H2. cbn in H2. symmetry in H2.
      apply Hafter in H2 as ->; [reflexivity|lia]. }
    rewrite Hz in Hm. injection Hm as <-.
    destruct ak1 as [|s1 ak2]; [discriminate Hl|].
    pose proof (Hla 1) as A1. cbn in A1. symmetry in A1.
    exists s1. split; [|reflexivity].
    exists (k + 1). split; [exact A1|]. right. exists k. split; [lia|exact Hs0].
Qed.

End pattern.

(** ** What a successful parse has done *)

Lemma dict_get_elem {V} (d : list (string * V)) key v :
  dict_get d key = Some v -> (key, v) ∈ d.
Proof.
  induction d as [|[k w] d IH]; cbn; [discriminate|].
  destruct (String.eqb key k) eqn:E.
  - apply String.eqb_eq in E as ->. intros [= ->]. apply list_elem_of_here.
  - intros H. apply list_elem_of_further. auto.
Qed.

Lemma _parse_optional_registered self s action option_string explicit_arg :
  _parse_optional self s
    = Return (Some (Some action, option_string, explicit_arg)) ->
  (option_string, action) ∈ _option_string_actions self.
Proof.
  unfold _parse_optional. destruct s as [|c0 rest]; [discriminate|].
  destruct (negb _); [discriminate|].
  destruct (dict_get _ _) as [a|] eqn:E.
  { intros [= <- <- <-]. now apply dict_get_elem. }
  destruct rest as [|c1 rest]; [discriminate|].
  match goal with |- context [match ?x with Some _ => _ | None => _ end] =>
    destruct x as [t|] eqn:Et end.
  { intros [= ->]. destruct (Str.contains _ _); [|discriminate Et].
    destruct (Str.split1 _ _) as [o e].
    destruct (dict_get _ o) as [a|] eqn:E'; [|discriminate Et].
    injection Et as <- <- <-. now apply dict_get_elem. }
  intros H. inv_Return H. pose proof H as H'.
  assert (Hr : forall t, t ∈ r ->
            exists o a e, t = (Some a, o, e)
                          /\ (o, a) ∈ _option_string_actions self).
  { unfold _get_option_tuples in H0. clear H. intros t Ht.
    destruct (in_prefix_chars c0 && in_prefix_chars c1).
    - unfold allow_abbrev in H0.
      match type of H0 with
      | (let '(_, _) := ?x in _) = _ => destruct x as [p e]
      end.
      injection H0 as <-. apply list_elem_of_omap in Ht as ([o a] & Hin & Ht).
      destruct (Str.startswith _ _); [|discriminate Ht].
      injection Ht as <-. eauto.
    - destruct (in_prefix_chars c0 && negb (in_prefix_chars c1));
        [|discriminate H0].
      injection H0 as <-. apply list_elem_of_omap in Ht as ([o a] & Hin & Ht).
      destruct (String.eqb _ _); [injection Ht as <-; eauto|].
      destruct (Str.startswith _ _); [|discriminate Ht].
      injection Ht as <-. eauto. }
  destruct r as [|t [|t' l]]; [| |discriminate H'].
  - destruct (_negative_number_matcher _ && _); [discriminate H'|].
    destruct (Str.contains " " _); discriminate H'.
  - injection H' as ->.
    destruct (Hr _ (list_elem_of_here _ _)) as (o & a & e & [= <- <- <-] & Hin).
    exact Hin.
Qed.

Lemma finish_actions_not_Stuck actions :
  forall seen ns required_actions,
    finish_actions actions seen ns required_actions <> Stuck.
Proof.
  induction actions as [|a l IH]; intros seen ns req; cbn; [congruence|].
  destruct (existsb _ _); [apply IH|]. destruct (required a); [apply IH|].
  destruct (default a) as [|[|?|?|?|d|?]]; try apply IH.
  destruct (ns !! dest a) as [[|?|?|?|v|?]|]; try apply IH.
  destruct (String.eqb d v); [|apply IH].
  apply bind_not_Stuck; [|intros; apply IH].
  unfold _get_value. destruct (type a); [|congruence].
  destruct (call _ _); congruence.
Qed.

Section parse_spec.
Variable self : ArgumentParser.

(** Assumptions on the parser, all met by [build_parser]. *)
Hypothesis registered_options :
  forall key action,
    (key, action) ∈ _option_string_actions self ->
    option_strings action <> []
    /\ (cls action = _StoreAction -> nargs action = nargs_None).
Hypothesis short_options :
  forall c0 c1 action,
    (String c0 (String c1 EmptyString), action) ∈ _option_string_actions self ->
    cls action = _HelpAction.
Hypothesis one_positional :
  List.length (_get_positional_actions self) <= 1.
Hypothesis positional_nargs :
  forall action,
    action ∈ _actions self -> option_strings action = [] ->
    nargs action = nargs_None.
Hypothesis string_defaults :
  forall action d,
    action ∈ _actions self -> default action = Value (PStr d) ->
    _get_value action d = Return (PStr d).

(** What the namespace holds for an action that was taken: the constant
    of a [store_true]; for a [store], a string converted by [type] and
    checked against [choices] (a positional value of [args] when the
    action is positional), or the empty list (the explicit argument [--] of an
    option is dropped by [_get_values]). *)
Definition recorded (args : list string) (action : Action)
    (v : option pyval) : Prop :=
  exists x,
    v = Some x
    /\ match cls action with
       | _StoreAction =>
           (exists s,
              (option_strings action = [] -> positional_string self args s)
              /\ _get_value action s = Return x
              /\ _check_value action x = Return tt)
           \/ (option_strings action <> [] /\ x = PList [])
       | _StoreTrueAction => x = const action
       | _HelpAction => False
       end.

Definition positional (action : Action) : Prop :=
  action ∈ _actions self /\ option_strings action = [].

(** The invariant of the parse. *)
Definition parsed (args : list string) (pattern : list pattern_part)
    (seen : list string) (ns : gmap string pyval) : Prop :=
  (forall d, d ∉ seen -> ns !! d = default_namespace self !! d)
  /\ (forall d, d ∈ seen ->
        exists action,
          dest action = d
          /\ (selected pattern action \/ positional action)
          /\ recorded args action (ns !! d)).

Lemma _get_values_single action s x :
  nargs action = nargs_None ->
  _get_values action [s] = Return x ->
  (s <> "--" /\ _get_value action s = Return x
   /\ _check_value action x = Return tt)
  \/ (s = "--" /\ x = PList []).
Proof.
  unfold _get_values. intros -> H. cbn in H.
  destruct (String.eqb s "--") eqn:E.
  - apply String.eqb_eq in E as ->. cbn in H. injection H as <-. now right.
  - apply String.eqb_neq in E. left.
    inv_Return H. inv_Return H. injection H as <-. now destruct r0.
Qed.

Lemma parsed_take_action args pattern action arg_strings st st' :
  parsed args pattern (seen_actions st) (namespace st) ->
  selected pattern action \/ positional action ->
  (option_strings action = [] ->
   exists s,
     positional_string self args s /\ list_remove "--" arg_strings = [s]) ->
  (option_strings action <> [] -> List.length arg_strings <= 1) ->
  (cls action = _StoreAction -> nargs action = nargs_None) ->
  take_action action arg_strings st = Return st' ->
  parsed args pattern (seen_actions st') (namespace st').
Proof.
  intros [Hu Hs] Ha Hpos Hopt Hn H.
  apply take_action_Return in H as (v & ns & Hv & Hc & ->).
  apply call_Return in Hc as [Hcls ->]. cbn. split.
  - intros d Hd. apply not_elem_of_cons in Hd as [Hne Hd].
    rewrite lookup_insert_ne by congruence. auto.
  - intros d Hd. destruct (decide (d = dest action)) as [->|Hne].
    + exists action. repeat split; [exact Ha|].
      rewrite lookup_insert_eq. eexists. split; [reflexivity|].
      destruct (cls action); [|reflexivity|congruence].
      specialize (Hn eq_refl).
      destruct (option_strings action) as [|o os] eqn:Eo.
      * destruct (Hpos eq_refl) as (s & Hin & Hl).
        unfold _get_values in Hv. rewrite Hl, Hn in Hv.
        inv_Return Hv. inv_Return Hv. injection Hv as <-.
        destruct r0. left. eauto.
      * assert (Hlen : List.length arg_strings <= 1) by now apply Hopt.
        destruct arg_strings as [|s [|? ?]]; [| |cbn in Hlen; lia].
        -- unfold _get_values in Hv. cbn in Hv. injection Hv as <-.
           right. split; [discriminate|reflexivity].
        -- destruct (_get_values_single _ _ _ Hn Hv)
             as [(_ & Hv' & Hc)|[_ ->]].
           ++ left. exists s. repeat split; [discriminate|exact Hv'|exact Hc].
           ++ right. split; [discriminate|reflexivity].
    + apply elem_of_cons in Hd as [?|Hd]; [congruence|].
      rewrite lookup_insert_ne by congruence. auto.
Qed.

Lemma finish_actions_spec actions :
  forall seen ns required_actions ns' required_actions',
    (forall a, a ∈ actions -> a ∈ _actions self) ->
    finish_actions actions seen ns required_actions
      = Return (ns', required_actions') ->
    ns' = ns
    /\ (required_actions' = [] ->
        required_actions = []
        /\ forall a, a ∈ actions -> required a = true -> dest a ∈ seen).
Proof.
  induction actions as [|a actions IH];
    intros seen ns req ns' req' Hsub H; cbn in H.
  - injection H as <- <-. split; [reflexivity|]. intros ->.
    split; [reflexivity|]. intros a Ha. now apply elem_of_nil in Ha.
  - assert (Hsub' : forall a', a' ∈ actions -> a' ∈ _actions self)
      by (intros; apply Hsub; now apply list_elem_of_further).
    destruct (existsb _ seen) eqn:Es.
    { apply IH in H as [-> Hr]; [|exact Hsub']. split; [reflexivity|].
      intros E. destruct (Hr E) as [-> Hr']. split; [reflexivity|].
      intros a' Ha' Hreq. apply elem_of_cons in Ha' as [->|Ha']; [|eauto].
      apply existsb_exists in Es as (d & Hin & Ed).
      apply String.eqb_eq in Ed as ->. now apply list_elem_of_In. }
    destruct (required a) eqn:Er.
    { apply IH in H as [-> Hr]; [|exact Hsub']. split; [reflexivity|].
      intros E. destruct (Hr E) as [Hnil _].
      now apply app_eq_nil in Hnil as [_ ?]. }
    assert (Hind : forall ns1,
      finish_actions actions seen ns1 req = Return (ns', req') ->
      ns1 = ns ->
      ns' = ns
      /\ (req' = [] ->
          req = []
          /\ forall a0, a0 ∈ a :: actions -> required a0 = true ->
                        dest a0 ∈ seen)).
    { intros ns1 H1 ->. apply IH in H1 as [-> Hr]; [|exact Hsub'].
      split; [reflexivity|]. intros E. destruct (Hr E) as [-> Hr'].
      split; [reflexivity|]. intros a' Ha' Hreq.
      apply elem_of_cons in Ha' as [->|Ha']; [congruence|eauto]. }
    destruct (default a) as [|[|?|?|?|d|?]] eqn:Ed;
      try (apply (Hind ns); [exact H|reflexivity]).
    destruct (ns !! dest a) as [[|?|?|?|v|?]|] eqn:En;
      try (apply (Hind ns); [exact H|reflexivity]).
    destruct (String.eqb d v) eqn:Edv;
      [|apply (Hind ns); [exact H|reflexivity]].
    apply String.eqb_eq in Edv as <-.
    rewrite (string_defaults a d) in H; [|apply Hsub, list_elem_of_here|exact Ed].
    cbn in H. apply Hind in H; [exact H|]. now apply insert_id.
Qed.

Lemma table_options key action :
  dict_get (_option_string_actions self) key = Some action ->
  option_strings action <> [].
Proof. intros H. eapply registered_options, dict_get_elem, H. Qed.

Lemma selected_registered args pattern action :
  arg_strings_pattern self args = Return pattern ->
  selected pattern action ->
  exists key, (key, action) ∈ _option_string_actions self.
Proof.
  intros Hpat (os & e & Hin). apply list_elem_of_lookup in Hin as (i & Hi).
  destruct (arg_strings_pattern_option _ _ _ _ _ Hpat Hi) as (s & _ & _ & Hp).
  eexists. eapply _parse_optional_registered, Hp.
Qed.

Section with_pattern.
Variable args : list string.
Variable pattern : list pattern_part.
Hypothesis pattern_of_args : arg_strings_pattern self args = Return pattern.

Lemma pattern_options action :
  selected pattern action -> option_strings action <> [].
Proof.
  intros H.
  destruct (selected_registered _ _ _ pattern_of_args H) as (key & Hin).
  eapply registered_options, Hin.
Qed.

Lemma dash_last j j' t :
  pattern !! j = Some pat_dash -> j < j' -> pattern !! j' <> Some (pat_O t).
Proof.
  intros Hj Hlt Hj'.
  destruct (arg_strings_pattern_dash _ _ _ _ pattern_of_args Hj)
    as (_ & _ & Hafter).
  now apply (Hafter _ _ Hlt) in Hj'.
Qed.

Definition parsed_state (st : state) : Prop :=
  parsed args pattern (seen_actions st) (namespace st).

Lemma parsed_option action arg_strings st st' :
  parsed_state st -> selected pattern action \/ clustered self action ->
  List.length arg_strings <= 1 ->
  take_action action arg_strings st = Return st' -> parsed_state st'.
Proof.
  intros HP [Ha|(c0 & c1 & Hc)] Hl H.
  - apply (parsed_take_action args pattern action arg_strings st st' HP);
      [now left| |auto| |exact H].
    + intros Ho. now apply pattern_options in Ha.
    + destruct (selected_registered _ _ _ pattern_of_args Ha) as (key & Hin).
      eapply registered_options, Hin.
  - apply dict_get_elem, short_options in Hc.
    apply take_action_Return in H as (v & ns & _ & Hcall & _).
    now apply call_Return in Hcall as [? _].
Qed.

Lemma parsed_positional action n k st st' :
  parsed_state st -> positional action -> no_dash_before pattern k ->
  match_nargs_pattern action (drop k pattern) = Some n ->
  take_action action (take n (drop k args)) st = Return st' ->
  parsed_state st'.
Proof.
  intros HP [Ha Ho] Hd Hm H.
  apply (parsed_take_action args pattern action (take n (drop k args))
                            st st' HP);
    [right; now split| |congruence| |exact H].
  - intros _. eapply positional_strings; eauto.
  - intros _. auto.
Qed.

Lemma consume_all_spec ns0 ns extras :
  ns0 = default_namespace self ->
  consume_all self args pattern ns0 = Return (ns, extras) ->
  exists seen,
    parsed args pattern seen ns
    /\ (forall a os e, pat_O (Some a, os, e) ∈ pattern -> dest a ∈ seen)
    /\ (forall a, a ∈ _actions self -> required a = true -> dest a ∈ seen).
Proof.
  intros -> H. unfold consume_all in H.
  apply bind_Return in H as ([st1 start] & Hloop & H).
  apply bind_Return in H as ([st2 stop] & Hpos & H).
  apply bind_Return in H as ([ns' req] & Hfin & H).
  destruct req as [|? ?]; [|discriminate H]. injection H as <- <-.
  match type of Hloop with
  | consume_loop _ _ _ _ _ ?st = _ => set (st0 := st) in *
  end.
  assert (H0 : inv parsed_state positional st0).
  { repeat split; cbn; [| |exact one_positional].
    - intros d Hd. now apply elem_of_nil in Hd.
    - apply Forall_forall. intros a Ha. apply list_elem_of_In in Ha.
      apply filter_In in Ha as [Ha Ho]. split; [now apply list_elem_of_In|].
      unfold is_positional in Ho. now destruct (option_strings a). }
  assert (Hnd : no_dash_before pattern 0) by (intros j Hj; lia).
  pose proof (consume_loop_covers _ _ _ table_options pattern_options
                _ _ _ _ _ (fun j a os e (Hj : j < 0) _ =>
                             match Nat.nlt_0_r j Hj with end) Hloop)
    as Hcov.
  apply (consume_loop_inv _ _ _ table_options pattern_options
           parsed_state positional dash_last
           (fun st l H => H) (fun st l H => H)
           parsed_option parsed_positional) in Hloop as [H1 Hnd1];
    [|exact H0|exact Hnd].
  pose proof (consume_positionals_inv _ _ parsed_state positional
                (fun st l H => H) parsed_positional _ _ _ _ H1 Hnd1 Hpos)
    as (H2 & _ & _).
  apply consume_positionals_spec in Hpos as (_ & _ & (new & Hnew)).
  apply finish_actions_spec in Hfin as [-> Hreq]; [|auto].
  exists (seen_actions st2). repeat split; try apply H2.
  - intros a os e Hin. apply list_elem_of_lookup in Hin as (j & Hj).
    rewrite Hnew, elem_of_app. right.
    eapply Hcov; [|exact Hj]. now apply lookup_lt_Some in Hj.
  - now apply Hreq.
Qed.

End with_pattern.

(** Whenever [parse_args] returns: the destinations in [seen] hold what
    their actions recorded, the others hold their defaults; every option
    of the pattern and every required action has been seen. *)
Theorem parse_args_spec args ns :
  parse_args self args = Return ns ->
  exists pattern seen,
    arg_strings_pattern self args = Return pattern
    /\ parsed args pattern seen ns
    /\ (forall a os e, pat_O (Some a, os, e) ∈ pattern -> dest a ∈ seen)
    /\ (forall a, a ∈ _actions self -> required a = true -> dest a ∈ seen).
Proof.
  unfold parse_args, parse_known_args, _parse_known_args. intros H.
  apply bind_Return in H as ([ns' argv] & H & Hargv).
  destruct argv; [|discriminate Hargv]. injection Hargv as ->.
  apply bind_Return in H as (pattern & Hpat & H).
  exists pattern.
  destruct (consume_all_spec args pattern Hpat _ _ _ eq_refl H)
    as (seen & ?). eauto.
Qed.

(** [parse_args] never reaches a [Stuck] state. *)
Theorem parse_args_not_Stuck args : parse_args self args <> Stuck.
Proof.
  unfold parse_args, parse_known_args, _parse_known_args.
  apply bind_not_Stuck; [|intros [ns [|? ?]] _; congruence].
  apply bind_not_Stuck; [apply arg_strings_pattern_not_Stuck|].
  intros pattern Hpat. unfold consume_all.
  pose proof (arg_strings_pattern_length _ _ _ Hpat) as Hlen.
  apply bind_not_Stuck.
  { apply consume_loop_not_Stuck;
      [exact table_options|now apply (pattern_options args)|lia]. }
  intros [st1 start] _. apply bind_not_Stuck.
  { apply consume_positionals_not_Stuck. }
  intros [st2 stop] _. apply bind_not_Stuck.
  - apply finish_actions_not_Stuck.
  - intros [ns [|? ?]] _; congruence.
Qed.

End parse_spec.

(** ** Parsers the specification applies to *)

Section well_formed.
Variable self : ArgumentParser.
Hypothesis wf : well_formed self = true.

Lemma wf_parts :
  Forall (fun '(key, a) =>
            option_strings a <> []
            /\ (cls a = _StoreAction -> nargs a = nargs_None)
            /\ (String.length key = 2 -> cls a = _HelpAction))
         (_option_string_actions self)
  /\ List.length (_get_positional_actions self) <= 1
  /\ Forall (fun a =>
               (option_strings a = [] -> nargs a = nargs_None)
               /\ forall d, default a = Value (PStr d) ->
                            _get_value a d = Return (PStr d))
            (_actions self).
Proof.
  unfold well_formed in wf.
  apply andb_true_iff in wf as [H1 H3]. apply andb_true_iff in H1 as [H1 H2].
  repeat split.
  - apply Forall_forall. intros [key a] Hin. apply list_elem_of_In in Hin.
    rewrite forallb_forall in H1. specialize (H1 _ Hin). cbn in H1.
    apply andb_true_iff in H1 as [H1 Hc]. apply andb_true_iff in H1 as [Ha Hb].
    unfold is_positional in Ha. repeat split.
    + now destruct (option_strings a).
    + intros E. rewrite E in Hb. now destruct (nargs a).
    + intros E. rewrite E in Hc. now destruct (cls a).
  - now apply Nat.leb_le.
  - apply Forall_forall. intros a Hin. apply list_elem_of_In in Hin.
    rewrite forallb_forall in H3. specialize (H3 _ Hin).
    apply andb_true_iff in H3 as [Ha Hb]. unfold is_positional in Ha. split.
    + intros E. rewrite E in Ha. now destruct (nargs a).
    + intros d E. rewrite E in Hb. unfold _get_value.
      now destruct (type a) as [[| |]|].
Qed.

(** The specification of [parse_args] for a well-formed parser. *)
Lemma parse_args_parsed args ns :
  parse_args self args = Return ns ->
  exists pattern seen,
    arg_strings_pattern self args = Return pattern
    /\ parsed self args pattern seen ns
    /\ (forall a os e, pat_O (Some a, os, e) ∈ pattern -> dest a ∈ seen)
    /\ (forall a, a ∈ _actions self -> required a = true -> dest a ∈ seen).
Proof.
  destruct wf_parts as (H1 & H2 & H3).
  rewrite Forall_forall in H1. rewrite Forall_forall in H3.
  apply parse_args_spec.
  - intros key a Hin. specialize (H1 _ Hin). cbn in H1. tauto.
  - intros c0 c1 a Hin. specialize (H1 _ Hin). cbn in H1. now apply H1.
  - exact H2.
  - intros a Hin. now apply H3.
  - intros a d Hin. now apply H3.
Qed.

Lemma parse_args_total args : parse_args self args <> Stuck.
Proof.
  destruct wf_parts as (H1 & H2 & _). rewrite Forall_forall in H1.
  apply parse_args_not_Stuck; [|exact H2].
  intros key a Hin. specialize (H1 _ Hin). cbn in H1. tauto.
Qed.

End well_formed.

(** ** What [parse_args] leaves at a destination *)

Section destinations.
Variable self : ArgumentParser.
Hypothesis wf : well_formed self = true.
Variable args : list string.
Variable ns : gmap string pyval.
Hypothesis parse : parse_args self args = Return ns.

Lemma selects_spec s d :
  selects self s d = true <->
  exists a os e,
    _parse_optional self s = Return (Some (Some a, os, e)) /\ dest a = d.
Proof.
  unfold selects. split.
  - destruct (_parse_optional self s) as [[[[[a|] os] e]|]| | |];
      try discriminate.
    intros H. apply String.eqb_eq in H. eauto.
  - intros (a & os & e & -> & <-). apply String.eqb_refl.
Qed.

(** An option that is given has been taken; one that is not given has
    left the default in place. *)
Lemma parse_args_given d :
  option_dest self d = true ->
  if option_given self args d
  then exists key a,
         (key, a) ∈ _option_string_actions self
         /\ dest a = d /\ recorded self args a (ns !! d)
  else ns !! d = default_namespace self !! d.
Proof.
  intros Hd.
  destruct (parse_args_parsed self wf args ns parse)
    as (pattern & seen & Hpat & [Hu Hs] & Hcov & _).
  assert (Hnp : forall a, positional self a -> dest a <> d).
  { intros a [Ha Ho] E. unfold option_dest in Hd.
    rewrite forallb_forall in Hd. apply list_elem_of_In in Ha.
    specialize (Hd _ Ha). unfold is_positional in Hd.
    rewrite Ho, E, String.eqb_refl in Hd. discriminate Hd. }
  destruct (option_given self args d) eqn:Eg.
  - unfold option_given in Eg. apply existsb_exists in Eg as (s & Hin & Hsel).
    apply selects_spec in Hsel as (a & os & e & Hp & <-).
    apply list_elem_of_In in Hin.
    pose proof (arg_strings_pattern_given _ _ _ _ _ Hpat Hin Hp) as Ho.
    destruct (Hs _ (Hcov _ _ _ Ho)) as (a' & Ea & [Hsel|Hpos] & Hrec).
    + destruct (selected_registered _ _ _ _ Hpat Hsel) as (key & Hkey).
      exists key, a'. auto.
    + now apply Hnp in Hpos.
  - apply Hu. intros Hin.
    destruct (Hs _ Hin) as (a' & Ea & [(os & e & Hsel)|Hpos] & _);
      [|now apply Hnp in Hpos].
    apply list_elem_of_lookup in Hsel as (i & Hi).
    destruct (arg_strings_pattern_option _ _ _ _ _ Hpat Hi)
      as (s & _ & Hb & Hp).
    assert (Hg : option_given self args d = true).
    { unfold option_given. apply existsb_exists. exists s.
      split; [now apply list_elem_of_In|]. apply selects_spec. eauto. }
    congruence.
Qed.

(** A flag is [True] exactly when it is given. *)
Lemma flag_value d :
  flag_dest self d = true ->
  ns !! d = Some (PBool (option_given self args d)).
Proof.
  unfold flag_dest. intros H.
  apply andb_true_iff in H as [H Hdef]. apply andb_true_iff in H as [Hd Ht].
  pose proof (parse_args_given d Hd) as Hg.
  destruct (option_given self args d).
  - destruct Hg as (key & a & Hin & Ea & (x & -> & Hx)). f_equal.
    rewrite forallb_forall in Ht. apply list_elem_of_In in Hin.
    specialize (Ht _ Hin). cbn in Ht. rewrite Ea, String.eqb_refl in Ht.
    destruct (cls a); try discriminate Ht. subst x.
    now destruct (const a) as [|[|]| | | |].
  - rewrite Hg. now destruct (default_namespace self !! d) as [[|[|]| | | |]|].
Qed.

(** A [store] option holds its default when it is not given; when it
    is, it holds an argument string converted by [f] and found among the
    choices, or the empty list. *)
Lemma store_value d f c :
  store_dest self d f c = true ->
  if option_given self args d
  then exists x,
         ns !! d = Some x
         /\ (x = PList []
             \/ exists s,
                  call f s = Some x
                  /\ match c with
                     | Some l => value_in x l = true
                     | None => True
                     end)
  else ns !! d = default_namespace self !! d.
Proof.
  unfold store_dest. intros H. apply andb_true_iff in H as [Hd Ht].
  pose proof (parse_args_given d Hd) as Hg.
  destruct (option_given self args d); [|exact Hg].
  destruct Hg as (key & a & Hin & Ea & (x & -> & Hx)).
  exists x. split; [reflexivity|].
  rewrite forallb_forall in Ht. apply list_elem_of_In in Hin.
  specialize (Ht _ Hin). cbn in Ht. rewrite Ea, String.eqb_refl in Ht.
  destruct (cls a); try discriminate Ht.
  apply andb_true_iff in Ht as [Hty Hch].
  apply bool_decide_eq_true in Hty, Hch.
  destruct Hx as [(s & _ & Hv & Hc)|[_ ->]]; [right|now left].
  exists s. unfold _get_value in Hv. rewrite Hty in Hv.
  unfold _check_value in Hc. rewrite Hch in Hc.
  destruct (call f s) as [y|]; [|discriminate Hv]. injection Hv as ->.
  split; [reflexivity|]. destruct c as [l|]; [|exact I].
  now destruct (value_in x l).
Qed.

(** The positional holds a positional value of the argument list. *)
Lemma positional_value d :
  positional_dest self d = true ->
  exists s, positional_string self args s /\ ns !! d = Some (PStr s).
Proof.
  unfold positional_dest. intros H.
  apply andb_true_iff in H as [H He]. apply andb_true_iff in H as [Ht Ha].
  destruct (parse_args_parsed self wf args ns parse)
    as (pattern & seen & Hpat & [Hu Hs] & Hcov & Hreq).
  apply existsb_exists in He as (a0 & Hin0 & H0).
  apply andb_true_iff in H0 as [H0 Hr0]. apply andb_true_iff in H0 as [_ E0].
  apply String.eqb_eq in E0.
  apply list_elem_of_In in Hin0.
  specialize (Hreq _ Hin0 Hr0). rewrite E0 in Hreq.
  destruct (Hs _ Hreq) as (a & Ea & [Hsel|[Hin Ho]] & (x & Hx & Hrec)).
  - destruct (selected_registered _ _ _ _ Hpat Hsel) as (key & Hkey).
    rewrite forallb_forall in Ht. apply list_elem_of_In in Hkey.
    specialize (Ht _ Hkey). cbn in Ht.
    rewrite Ea, String.eqb_refl in Ht. discriminate Ht.
  - rewrite forallb_forall in Ha. apply list_elem_of_In in Hin.
    specialize (Ha _ Hin). unfold is_positional in Ha.
    rewrite Ho, Ea, String.eqb_refl in Ha. cbn in Ha.
    destruct (cls a); try discriminate Ha.
    destruct Hrec as [(s & Hs' & Hv & _)|[Hne _]]; [|congruence].
    exists s. split; [now apply Hs'|]. rewrite Hx. f_equal.
    unfold _get_value in Hv.
    destruct (type a) as [[| |]|]; try discriminate Ha; cbn in Hv;
      now injection Hv as <-.
Qed.

End destinations.

(** ** Options that are left out *)

Lemma startswith_refl s : Str.startswith s s = true.
Proof. induction s as [|c s IH]; cbn; [reflexivity|]. now rewrite Ascii.eqb_refl. Qed.

Lemma startswith_trans q :
  forall s p,
    Str.startswith s p = true -> Str.startswith p q = true ->
    Str.startswith s q = true.
Proof.
  induction q as [|c q IH]; intros s p Hsp Hpq; [now destruct s|].
  destruct p as [|b p]; [discriminate Hpq|].
  destruct s as [|a s]; [discriminate Hsp|]. cbn in *.
  destruct (Ascii.eqb b a) eqn:Eba; [|discriminate Hsp].
  destruct (Ascii.eqb c b) eqn:Ecb; [|discriminate Hpq].
  apply Ascii.eqb_eq in Eba as ->. rewrite Ecb. eauto.
Qed.

Lemma split1_startswith sep s :
  Str.startswith s (fst (Str.split1 sep s)) = true.
Proof.
  induction s as [|c s IH]; cbn; [reflexivity|].
  destruct (Ascii.eqb c sep); [reflexivity|].
  destruct (Str.split1 sep s) as [a b]. cbn in *.
  now rewrite Ascii.eqb_refl.
Qed.

Lemma option_prefix_startswith s : Str.startswith s (option_prefix s) = true.
Proof.
  unfold option_prefix. destruct (Str.contains _ _).
  - apply split1_startswith.
  - apply startswith_refl.
Qed.

Lemma take2_length s : String.length (Str.take2 s) <= 2.
Proof. destruct s as [|a [|b r]]; cbn; lia. Qed.

(** The option string that [_parse_optional] finds starts with the
    option part of the argument string, or is its first two characters
    (a single-dash option with its argument attached). *)
Lemma _parse_optional_prefix self s action option_string explicit_arg :
  _parse_optional self s
    = Return (Some (Some action, option_string, explicit_arg)) ->
  Str.startswith option_string (option_prefix s) = true
  \/ option_string = Str.take2 s.
Proof.
  unfold _parse_optional. destruct s as [|c0 rest]; [discriminate|].
  destruct (negb _); [discriminate|].
  destruct (dict_get _ _) as [a|] eqn:E.
  { intros [= <- <- <-]. left. apply option_prefix_startswith. }
  destruct rest as [|c1 rest]; [discriminate|].
  match goal with |- context [match ?x with Some _ => _ | None => _ end] =>
    destruct x as [t|] eqn:Et end.
  { intros [= ->]. left. unfold option_prefix.
    destruct (Str.contains _ _); [|discriminate Et].
    destruct (Str.split1 _ _) as [o e].
    destruct (dict_get _ o) as [a|] eqn:E'; [|discriminate Et].
    injection Et as <- <- <-. apply startswith_refl. }
  intros H. inv_Return H. pose proof H as H'.
  assert (Hr : forall t, t ∈ r ->
            exists o a e,
              t = (Some a, o, e)
              /\ (Str.startswith o (option_prefix (String c0 (String c1 rest)))
                  = true
                  \/ o = Str.take2 (String c0 (String c1 rest)))).
  { unfold _get_option_tuples in H0. clear H. intros t Ht.
    destruct (in_prefix_chars c0 && in_prefix_chars c1).
    - unfold allow_abbrev in H0. unfold option_prefix.
      destruct (Str.contains "=" (String c0 (String c1 rest)));
        [destruct (Str.split1 "=" (String c0 (String c1 rest))) as [p e]|];
        injection H0 as <-;
        apply list_elem_of_omap in Ht as ([o a] & Hin & Ht);
        destruct (Str.startswith o _) eqn:Es; try discriminate Ht;
        injection Ht as <-; eauto 6.
    - destruct (in_prefix_chars c0 && negb (in_prefix_chars c1));
        [|discriminate H0].
      injection H0 as <-. apply list_elem_of_omap in Ht as ([o a] & Hin & Ht).
      destruct (String.eqb o _) eqn:Eo.
      { injection Ht as <-. apply String.eqb_eq in Eo. eauto 6. }
      destruct (Str.startswith o _) eqn:Es; [|discriminate Ht].
      injection Ht as <-. exists o, a, None. split; [reflexivity|]. left.
      eapply startswith_trans; [exact Es|apply option_prefix_startswith]. }
  destruct r as [|t [|t' l]]; [| |discriminate H'].
  - destruct (_negative_number_matcher _ && _); [discriminate H'|].
    destruct (Str.contains " " _); discriminate H'.
  - injection H' as ->.
    destruct (Hr _ (list_elem_of_here _ _)) as (o & a & e & [= <- <- <-] & Hin).
    exact Hin.
Qed.

(** An argument string that selects the destination of [opt]
    abbreviates [opt]. *)
Lemma selects_abbreviates self s d opt :
  sole_option self d opt = true ->
  selects self s d = true -> abbreviates s opt = true.
Proof.
  unfold sole_option, selects. intros Hsole Hsel.
  apply andb_true_iff in Hsole as [Hlen Hsole].
  apply Nat.ltb_lt in Hlen. rewrite forallb_forall in Hsole.
  destruct (_parse_optional self s) as [[[[[a|] o] e]|]| | |] eqn:E;
    try discriminate Hsel.
  apply String.eqb_eq in Hsel.
  pose proof (_parse_optional_registered _ _ _ _ _ E) as Hin.
  apply list_elem_of_In in Hin. specialize (Hsole _ Hin). cbn in Hsole.
  rewrite Hsel, String.eqb_refl in Hsole. apply String.eqb_eq in Hsole as ->.
  destruct (_parse_optional_prefix _ _ _ _ _ E) as [H|H]; [exact H|].
  pose proof (take2_length s) as Hl. rewrite <- H in Hl. lia.
Qed.

(** An option that no argument string abbreviates is not given. *)
Lemma omitted_not_given self args d opt :
  sole_option self d opt = true ->
  omitted args opt = true -> option_given self args d = false.
Proof.
  intros Hsole Hom. unfold omitted in Hom. rewrite forallb_forall in Hom.
  destruct (option_given self args d) eqn:Eg; [|reflexivity].
  unfold option_given in Eg. apply existsb_exists in Eg as (s & Hin & Hsel).
  specialize (Hom _ Hin).
  now rewrite (selects_abbreviates self s d opt Hsole Hsel) in Hom.
Qed.

(** * [build_parser]: the parser of PyHIST *)

(** ** The declared arguments *)

(** [combs] holds the sixteen strings, in the order the model of [set]
    leaves them. *)
Lemma combs_bits4 : combs = bits4.
Proof. vm_compute. reflexivity. Qed.

(** The parser [build_parser] returns: [-h/--help], the positional [svs]
    and the seventeen options, each registered under its option string. *)
Lemma build_parser_declares :
  build_parser
  = {| _actions := action_help :: action_svs :: declared_options;
       _option_string_actions :=
         ("-h", action_help) :: ("--help", action_help)
         :: map (fun a => (Str.join (option_strings a), a)) declared_options;
       _has_negative_number_optionals := false |}.
Proof. vm_compute. reflexivity. Qed.

Lemma build_parser_well_formed : well_formed build_parser = true.
Proof. vm_compute. reflexivity. Qed.

(** The destinations tell the actions of [build_parser] apart. *)
Lemma build_parser_dests : NoDup (map dest (_actions build_parser)).
Proof. apply (bool_decide_unpack _). vm_compute. exact I. Qed.

(** The namespace [parse_args] starts from. *)
Lemma build_parser_defaults d v :
  (d, v) ∈ declared_defaults ->
  default_namespace build_parser !! d = Some v.
Proof.
  revert d v.
  enough (H : Forall (fun p => default_namespace build_parser !! fst p
                               = Some (snd p)) declared_defaults).
  { intros d v Hin. rewrite Forall_forall in H. apply (H _ Hin). }
  repeat (constructor; [vm_compute; reflexivity|]). constructor.
Qed.

(** * Running [build_parser] on an argument list *)

Lemma plain_is_argument self s : plain s = true -> is_argument self s.
Proof.
  destruct s as [|c r]; intros H; [now split|]. split.
  - destruct (String.eqb_spec (String c r) "--") as [E|E]; [|reflexivity].
    injection E as -> ->. discriminate H.
  - unfold _parse_optional. unfold plain in H. now rewrite H.
Qed.

Lemma positional_string_values self args :
  forall s, positional_string self args s -> s ∈ positional_values self args.
Proof.
  induction args as [|a r IH]; intros s (i & Hi & H).
  - now rewrite lookup_nil in Hi.
  - cbn. destruct (String.eqb a "--") eqn:Ea.
    + apply String.eqb_eq in Ea as ->. destruct i as [|i]; cbn in Hi.
      * injection Hi as <-. destruct H as [[H _]|(j & Hj & _)]; [|lia].
        now contradiction H.
      * eapply list_elem_of_lookup_2, Hi.
    + assert (Hr : positional_string self r s -> s ∈ positional_values self r)
        by apply IH.
      destruct i as [|i]; cbn in Hi.
      * injection Hi as <-. destruct H as [[_ H]|(j & Hj & _)]; [|lia].
        rewrite H. apply list_elem_of_here.
      * assert (Hs : s ∈ positional_values self r).
        { apply Hr. exists i. split; [exact Hi|].
          destruct H as [H|(j & Hj & Hd)]; [now left|right].
          destruct j as [|j]; cbn in Hd.
          - injection Hd as ->. discriminate Ea.
          - exists j. split; [lia|exact Hd]. }
        destruct (_parse_optional self a) as [[t|]| | |]; auto.
        now apply list_elem_of_further.
Qed.

Lemma pattern_cons self s rest :
  arg_strings_pattern self (s :: rest)
  = if String.eqb s "--"
    then Return (pat_dash :: map (fun _ => pat_A) rest)
    else (option_tuple ← _parse_optional self s;
          parts ← arg_strings_pattern self rest;
          Return (match option_tuple with
                  | None => pat_A
                  | Some t => pat_O t
                  end :: parts)).
Proof. reflexivity. Qed.

Lemma parse_with_pattern self args pattern :
  arg_strings_pattern self args = Return pattern ->
  parse_args self args
  = ('(ns, argv) ← consume_all self args pattern (default_namespace self);
     match argv with
     | _ :: _ => Error (unrecognized_arguments argv)
     | [] => Return ns
     end).
Proof.
  intros H. unfold parse_args, parse_known_args, _parse_known_args.
  now rewrite H.
Qed.

Lemma _get_values_nil action : _get_values action [] = Return (PList []).
Proof. reflexivity. Qed.

(** One argument string is converted and checked. *)
Lemma _get_values_argument action s :
  nargs action = nargs_None -> String.eqb s "--" = false ->
  _get_values action [s]
  = (value ← _get_value action s;
     _ ← _check_value action value;
     Return value).
Proof. intros Hn Hs. unfold _get_values. cbn. now rewrite Hs, Hn. Qed.

Lemma _get_values_one action s v :
  nargs action = nargs_None -> String.eqb s "--" = false ->
  _get_value action s = Return v -> _check_value action v = Return tt ->
  _get_values action [s] = Return v.
Proof.
  intros Hn Hs Hv Hc. rewrite _get_values_argument by assumption.
  rewrite Hv. cbn. now rewrite Hc.
Qed.

Lemma positionals_eq : _get_positional_actions build_parser = [action_svs].
Proof. vm_compute. reflexivity. Qed.

(** When every required action has been seen, the last loop leaves the
    namespace as it is: a default that is a string is converted to
    itself. *)
Lemma finish_actions_Return self :
  well_formed self = true ->
  forall seen ns,
    (forall a, a ∈ _actions self -> required a = true -> dest a ∈ seen) ->
    finish_actions (_actions self) seen ns [] = Return (ns, []).
Proof.
  intros wf seen ns Hreq.
  destruct (wf_parts self wf) as (_ & _ & H3). rewrite Forall_forall in H3.
  assert (H : forall actions,
             (forall a, a ∈ actions -> a ∈ _actions self) ->
             finish_actions actions seen ns [] = Return (ns, [])).
  { induction actions as [|a l IH]; intros Hsub; cbn; [reflexivity|].
    assert (IH' : finish_actions l seen ns [] = Return (ns, []))
      by (apply IH; intros; apply Hsub; now apply list_elem_of_further).
    assert (Ha : a ∈ _actions self) by apply Hsub, list_elem_of_here.
    destruct (existsb _ seen) eqn:Es; [exact IH'|].
    destruct (required a) eqn:Er.
    { apply (Hreq _ Ha) in Er. apply list_elem_of_In in Er.
      assert (existsb (String.eqb (dest a)) seen = true)
        by (apply existsb_exists; exists (dest a);
            split; [exact Er|apply String.eqb_refl]).
      congruence. }
    destruct (default a) as [|[|?|?|?|d|?]] eqn:Ed; try exact IH'.
    destruct (ns !! dest a) as [[|?|?|?|v|?]|] eqn:En; try exact IH'.
    destruct (String.eqb d v) eqn:Edv; [|exact IH'].
    apply String.eqb_eq in Edv as <-.
    destruct (H3 _ Ha) as [_ Hd]. rewrite (Hd _ Ed). cbn.
    now rewrite insert_id. }
  apply H. auto.
Qed.

(** [svs] is the only required action of [build_parser]. *)
Lemma required_svs a :
  a ∈ _actions build_parser -> required a = true -> dest a = "svs".
Proof.
  rewrite build_parser_declares. cbn [_actions]. revert a.
  apply (proj1 (Forall_forall
                  (fun a => required a = true -> dest a = "svs") _)).
  repeat (constructor; [cbn; congruence|]). constructor.
Qed.

Lemma finish_build_parser seen ns :
  "svs" ∈ seen ->
  finish_actions (_actions build_parser) seen ns [] = Return (ns, []).
Proof.
  intros Hs. apply finish_actions_Return; [exact build_parser_well_formed|].
  intros a Ha Hr. now rewrite (required_svs a Ha Hr).
Qed.

Lemma _get_option_tuples_not_HelpExit self s :
  _get_option_tuples self s <> HelpExit.
Proof.
  unfold _get_option_tuples. destruct s as [|c0 [|c1 r]]; try congruence.
  destruct (_ && _); [|destruct (_ && _)]; try congruence.
  destruct allow_abbrev; [|congruence].
  destruct (Str.contains _ _); [destruct (Str.split1 _ _)|]; congruence.
Qed.

Lemma _parse_optional_not_HelpExit self s : _parse_optional self s <> HelpExit.
Proof.
  unfold _parse_optional. destruct s as [|c0 rest]; [congruence|].
  destruct (negb _); [congruence|]. destruct (dict_get _ _); [congruence|].
  destruct rest; [congruence|].
  match goal with |- context [match ?x with Some _ => _ | None => _ end] =>
    destruct x end; [congruence|].
  pose proof (_get_option_tuples_not_HelpExit self (String c0 (String a rest)))
    as Hn.
  destruct (_get_option_tuples self _) as [[|t [|t' l]]|e| |];
    cbv [mbind outcome_bind]; try congruence.
  destruct (_ && _); [congruence|]. destruct (Str.contains _ _); congruence.
Qed.

(** A string is the separator, an argument, an option, or an error. *)
Lemma _parse_optional_cases self s :
  s = "--" \/ is_argument self s
  \/ (String.eqb s "--" = false
      /\ ((exists t, _parse_optional self s = Return (Some t))
          \/ exists e, _parse_optional self s = Error e)).
Proof.
  destruct (String.eqb_spec s "--") as [E|E]; [now left|right].
  pose proof (_parse_optional_not_Stuck self s) as H1.
  pose proof (_parse_optional_not_HelpExit self s) as H2.
  unfold is_argument.
  destruct (_parse_optional self s) as [[t|]|e| |]; try congruence.
  - right. split; [reflexivity|]. left. now exists t.
  - left. split; [now apply String.eqb_neq|reflexivity].
  - right. split; [reflexivity|]. right. now exists e.
Qed.

(** ** Symbolic runs

    The left-hand side is reduced to head normal form, up to the next
    conversion of argument strings. *)
Ltac head_step :=
  match goal with
  | |- ?l = ?r =>
      let l' := eval lazy head beta iota zeta delta
                  -[_get_values finish_actions insert] in l in
      change (l' = r)
  end.

Ltac run :=
  head_step;
  repeat match goal with
         | |- context [_get_values ?a ?l] =>
             let l' := eval cbv in l in
             progress change (_get_values a l) with (_get_values a l')
         | |- context [finish_actions ?acts ?seen ?ns ?r] =>
             let seen' := eval cbn in seen in
             let ns' := eval cbn -[insert] in ns in
             progress change (finish_actions acts seen ns r)
               with (finish_actions acts seen' ns' r)
         end;
  rewrite ?_get_values_nil.

Ltac run_svs img :=
  rewrite (_get_values_one _ img (PStr img)) by (reflexivity || assumption);
  run;
  rewrite finish_build_parser by (repeat constructor);
  run.

Section runs.
Local Opaque build_parser default_namespace.

(** [parse_args([s])]. *)
Lemma parse_positional s :
  is_argument build_parser s ->
  parse_args build_parser [s]
  = Return (<["svs" := PStr s]> (default_namespace build_parser)).
Proof.
  intros [H1 H2].
  assert (Hp : arg_strings_pattern build_parser [s] = Return [pat_A]).
  { rewrite pattern_cons, H1, H2. reflexivity. }
  rewrite (parse_with_pattern _ _ _ Hp).
  unfold consume_all. rewrite positionals_eq.
  run. run_svs s. reflexivity.
Qed.

(** [parse_args([opt, img])], [opt] a [store_true] option. *)
Lemma parse_flag opt o d img :
  String.eqb opt "--" = false ->
  _parse_optional build_parser opt
  = Return (Some (Some (flag_option o d), o, None)) ->
  is_argument build_parser img ->
  parse_args build_parser [opt; img]
  = Return (<["svs" := PStr img]>
              (<[d := PBool true]> (default_namespace build_parser))).
Proof.
  intros Ho Hopt [H1 H2].
  assert (Hp : arg_strings_pattern build_parser [opt; img]
               = Return [pat_O (Some (flag_option o d), o, None); pat_A]).
  { rewrite !pattern_cons, Ho, Hopt, H1, H2. reflexivity. }
  rewrite (parse_with_pattern _ _ _ Hp).
  unfold consume_all. rewrite positionals_eq.
  run. run. run_svs img. reflexivity.
Qed.

(** [parse_args([opt, s, img])], [opt] a [store] option. *)
Lemma parse_store opt o d f v0 c m s img :
  String.eqb opt "--" = false ->
  _parse_optional build_parser opt
  = Return (Some (Some (store_option o d f v0 c m), o, None)) ->
  is_argument build_parser s ->
  is_argument build_parser img ->
  parse_args build_parser [opt; s; img]
  = (v ← _get_values (store_option o d f v0 c m) [s];
     Return (<["svs" := PStr img]>
               (<[d := v]> (default_namespace build_parser)))).
Proof.
  intros Ho Hopt [S1 S2] [H1 H2].
  assert (Hp : arg_strings_pattern build_parser [opt; s; img]
               = Return [pat_O (Some (store_option o d f v0 c m), o, None);
                         pat_A; pat_A]).
  { rewrite !pattern_cons, Ho, Hopt, S1, S2, H1, H2. reflexivity. }
  rewrite (parse_with_pattern _ _ _ Hp).
  unfold consume_all. rewrite positionals_eq.
  run. destruct (_get_values _ [s]) as [v|e| |]; try reflexivity.
  run. run_svs img. reflexivity.
Qed.

(** What follows a [store] option is not an argument: an error. *)
Lemma parse_store_no_argument opt o d f v0 c m s img :
  String.eqb opt "--" = false ->
  _parse_optional build_parser opt
  = Return (Some (Some (store_option o d f v0 c m), o, None)) ->
  ~ is_argument build_parser s ->
  is_argument build_parser img ->
  exists e, parse_args build_parser [opt; s; img] = Error e.
Proof.
  intros Ho Hopt Hs [H1 H2].
  destruct (_parse_optional_cases build_parser s)
    as [->|[Ha|[Es [[t Ht]|[e He]]]]]; [| now contradiction Hs | |].
  - assert (Hp : arg_strings_pattern build_parser [opt; "--"; img]
                 = Return [pat_O (Some (store_option o d f v0 c m), o, None);
                           pat_dash; pat_A]).
    { rewrite !pattern_cons, Ho, Hopt. reflexivity. }
    rewrite (parse_with_pattern _ _ _ Hp).
    unfold consume_all. rewrite positionals_eq.
    eexists. run. reflexivity.
  - assert (Hp : arg_strings_pattern build_parser [opt; s; img]
                 = Return [pat_O (Some (store_option o d f v0 c m), o, None);
                           pat_O t; pat_A]).
    { rewrite !pattern_cons, Ho, Hopt, Es, Ht, H1, H2. reflexivity. }
    rewrite (parse_with_pattern _ _ _ Hp).
    unfold consume_all. rewrite positionals_eq.
    eexists. run. reflexivity.
  - exists e. unfold parse_args, parse_known_args, _parse_known_args.
    rewrite !pattern_cons, Ho, Hopt, Es, He. reflexivity.
Qed.

(** [parse_args([opt1, s1, opt2, s2, img])], two [store] options. *)
Lemma parse_store_store opt1 o1 d1 f1 v1 c1 m1 s1
    opt2 o2 d2 f2 v2 c2 m2 s2 img :
  String.eqb opt1 "--" = false ->
  _parse_optional build_parser opt1
  = Return (Some (Some (store_option o1 d1 f1 v1 c1 m1), o1, None)) ->
  is_argument build_parser s1 ->
  String.eqb opt2 "--" = false ->
  _parse_optional build_parser opt2
  = Return (Some (Some (store_option o2 d2 f2 v2 c2 m2), o2, None)) ->
  is_argument build_parser s2 ->
  is_argument build_parser img ->
  parse_args build_parser [opt1; s1; opt2; s2; img]
  = (x1 ← _get_values (store_option o1 d1 f1 v1 c1 m1) [s1];
     x2 ← _get_values (store_option o2 d2 f2 v2 c2 m2) [s2];
     Return (<["svs" := PStr img]>
               (<[d2 := x2]>
                  (<[d1 := x1]> (default_namespace build_parser))))).
Proof.
  intros Ho1 Hopt1 [S1 S1'] Ho2 Hopt2 [S2 S2'] [H1 H2].
  assert (Hp : arg_strings_pattern build_parser [opt1; s1; opt2; s2; img]
               = Return [pat_O (Some (store_option o1 d1 f1 v1 c1 m1),
                                o1, None); pat_A;
                         pat_O (Some (store_option o2 d2 f2 v2 c2 m2),
                                o2, None); pat_A; pat_A]).
  { rewrite !pattern_cons, Ho1, Hopt1, S1, S1', Ho2, Hopt2, S2, S2', H1, H2.
    reflexivity. }
  rewrite (parse_with_pattern _ _ _ Hp).
  unfold consume_all. rewrite positionals_eq.
  run. destruct (_get_values _ [s1]) as [x1|e| |]; try reflexivity.
  run. destruct (_get_values _ [s2]) as [x2|e| |]; try reflexivity.
  run. run_svs img. reflexivity.
Qed.

End runs.

(** ** A [store] option followed by its value *)

Lemma value_in_elem s l : value_in (PStr s) l = true <-> s ∈ l.
Proof.
  cbn. rewrite existsb_exists. split.
  - intros (x & Hin & E). apply String.eqb_eq in E as <-.
    now apply list_elem_of_In.
  - intros Hin. exists s. split; [now apply list_elem_of_In|].
    apply String.eqb_refl.
Qed.

(** Without choices: the value is converted by the type of the option. *)
Lemma parse_store_value opt d f v0 m s img :
  String.eqb opt "--" = false ->
  _parse_optional build_parser opt
  = Return (Some (Some (store_option opt d f v0 None m), opt, None)) ->
  is_argument build_parser s ->
  is_argument build_parser img ->
  parse_args build_parser [opt; s; img]
  = match call f s with
    | Some x =>
        Return (<["svs" := PStr img]>
                  (<[d := x]> (default_namespace build_parser)))
    | None => Error (ArgumentError opt (invalid_value (__name__ f) s))
    end.
Proof.
  intros Ho Hopt Hs Himg.
  rewrite (parse_store opt opt d f v0 None m s img Ho Hopt Hs Himg).
  rewrite _get_values_argument; [|reflexivity|apply Hs].
  unfold _get_value. cbn [type store_option].
  destruct (call f s); reflexivity.
Qed.

(** With choices, the type being [str]: the value is looked up among
    them. *)
Lemma parse_store_choice opt d v0 l s img :
  String.eqb opt "--" = false ->
  _parse_optional build_parser opt
  = Return (Some (Some (store_option opt d builtin_str v0 (Some l) None),
                  opt, None)) ->
  is_argument build_parser s ->
  is_argument build_parser img ->
  parse_args build_parser [opt; s; img]
  = if value_in (PStr s) l
    then Return (<["svs" := PStr img]>
                   (<[d := PStr s]> (default_namespace build_parser)))
    else Error (ArgumentError opt (invalid_choice (PStr s))).
Proof.
  intros Ho Hopt Hs Himg.
  rewrite (parse_store opt opt d builtin_str v0 (Some l) None s img
                       Ho Hopt Hs Himg).
  rewrite _get_values_argument; [|reflexivity|apply Hs].
  unfold _get_value, _check_value. cbn [type choices store_option call].
  cbn [builtins.str fmap option_fmap option_map mbind outcome_bind].
  destruct (value_in (PStr s) l); reflexivity.
Qed.

Lemma lookup_option_svs (d : string) (x y : pyval) (m : gmap string pyval) :
  d <> "svs" -> <["svs" := y]> (<[d := x]> m) !! d = Some x.
Proof.
  intros Hd. rewrite lookup_insert_ne by congruence. apply lookup_insert_eq.
Qed.

(** An option that is not given leaves its default. *)
Lemma omitted_option_default args ns d v :
  parse_args build_parser args = Return ns ->
  option_dest build_parser d = true ->
  default_namespace build_parser !! d = Some v ->
  option_given build_parser args d = false ->
  ns !! d = Some v.
Proof.
  intros Hp Hd Hv Hg.
  pose proof (parse_args_given build_parser build_parser_well_formed
                               args ns Hp d Hd) as H.
  rewrite Hg in H. congruence.
Qed.

(** So does an option that no argument string abbreviates. *)
Lemma omitted_default args ns opt d v :
  parse_args build_parser args = Return ns ->
  sole_option build_parser d opt = true ->
  option_dest build_parser d = true ->
  default_namespace build_parser !! d = Some v ->
  omitted args opt = true ->
  ns !! d = Some v.
Proof.
  intros Hp Hsole Hd Hv Hom.
  apply (omitted_option_default args ns d v Hp Hd Hv).
  exact (omitted_not_given build_parser args d opt Hsole Hom).
Qed.

Lemma slide_is_argument : is_argument build_parser "slide.svs".
Proof. now apply plain_is_argument. Qed.

(** ** More symbolic runs *)

(** [head_step] and [run], with the loop of the explicit argument left
    folded. *)
Ltac head_step' :=
  match goal with
  | |- ?l = ?r =>
      let l' := eval lazy head beta iota zeta delta
                  -[_get_values finish_actions insert explicit_loop] in l in
      change (l' = r)
  end.

Ltac run' :=
  head_step';
  repeat match goal with
         | |- context [_get_values ?a ?l] =>
             let l' := eval cbv in l in
             progress change (_get_values a l) with (_get_values a l')
         | |- context [finish_actions ?acts ?seen ?ns ?r] =>
             let seen' := eval cbn in seen in
             let ns' := eval cbn -[insert] in ns in
             progress change (finish_actions acts seen ns r)
               with (finish_actions acts seen' ns' r)
         end;
  rewrite ?_get_values_nil.

(** A [store] option takes its explicit argument. *)
Lemma explicit_loop_store self arg_strings pattern i o d f v0 c m os e acc :
  explicit_loop self arg_strings pattern i (store_option o d f v0 c m) os e acc
  = Return (acc ++ [(store_option o d f v0 c m, [e], os)], S i).
Proof. destruct e; reflexivity. Qed.

Section more_runs.
Local Opaque build_parser default_namespace.

(** [parse_args([arg, img])], [arg] a [store] option with its explicit
    argument. *)
Lemma parse_store_explicit arg o d f v0 c m e img :
  String.eqb arg "--" = false ->
  _parse_optional build_parser arg
  = Return (Some (Some (store_option o d f v0 c m), o, Some e)) ->
  is_argument build_parser img ->
  parse_args build_parser [arg; img]
  = (v ← _get_values (store_option o d f v0 c m) [e];
     Return (<["svs" := PStr img]>
               (<[d := v]> (default_namespace build_parser)))).
Proof.
  intros Ho Hopt [H1 H2].
  assert (Hp : arg_strings_pattern build_parser [arg; img]
               = Return [pat_O (Some (store_option o d f v0 c m), o, Some e);
                         pat_A]).
  { rewrite !pattern_cons, Ho, Hopt, H1, H2. reflexivity. }
  rewrite (parse_with_pattern _ _ _ Hp).
  unfold consume_all. rewrite positionals_eq.
  run'. rewrite explicit_loop_store. run'.
  destruct (_get_values _ [e]) as [v|err| |]; try reflexivity.
  run'. run_svs img. reflexivity.
Qed.

Lemma _get_values_separator s :
  _get_values action_svs ["--"; s] = Return (PStr s).
Proof. reflexivity. Qed.

(** [parse_args(['--', s])]. *)
Lemma parse_separator s :
  parse_args build_parser ["--"; s]
  = Return (<["svs" := PStr s]> (default_namespace build_parser)).
Proof.
  assert (Hp : arg_strings_pattern build_parser ["--"; s]
               = Return [pat_dash; pat_A]) by reflexivity.
  rewrite (parse_with_pattern _ _ _ Hp).
  unfold consume_all. rewrite positionals_eq.
  run. rewrite _get_values_separator. run.
  rewrite finish_build_parser by (repeat constructor). run. reflexivity.
Qed.

(** [parse_args([img, opt, s])]. *)
Lemma parse_positional_store opt o d f v0 c m s img :
  String.eqb opt "--" = false ->
  _parse_optional build_parser opt
  = Return (Some (Some (store_option o d f v0 c m), o, None)) ->
  is_argument build_parser s ->
  is_argument build_parser img ->
  parse_args build_parser [img; opt; s]
  = (v ← _get_values (store_option o d f v0 c m) [s];
     Return (<[d := v]>
               (<["svs" := PStr img]> (default_namespace build_parser)))).
Proof.
  intros Ho Hopt [S1 S2] [H1 H2].
  assert (Hp : arg_strings_pattern build_parser [img; opt; s]
               = Return [pat_A;
                         pat_O (Some (store_option o d f v0 c m), o, None);
                         pat_A]).
  { rewrite !pattern_cons, Ho, Hopt, S1, S2, H1, H2. reflexivity. }
  rewrite (parse_with_pattern _ _ _ Hp).
  unfold consume_all. rewrite positionals_eq.
  run. rewrite (_get_values_one _ img (PStr img)) by (reflexivity || assumption).
  run. destruct (_get_values _ [s]) as [v|e| |]; try reflexivity.
  run. rewrite finish_build_parser by (repeat constructor). run. reflexivity.
Qed.

(** [parse_args([img, opt])], [opt] a [store_true] option. *)
Lemma parse_positional_flag opt o d img :
  String.eqb opt "--" = false ->
  _parse_optional build_parser opt
  = Return (Some (Some (flag_option o d), o, None)) ->
  is_argument build_parser img ->
  parse_args build_parser [img; opt]
  = Return (<[d := PBool true]>
              (<["svs" := PStr img]> (default_namespace build_parser))).
Proof.
  intros Ho Hopt [H1 H2].
  assert (Hp : arg_strings_pattern build_parser [img; opt]
               = Return [pat_A; pat_O (Some (flag_option o d), o, None)]).
  { rewrite !pattern_cons, Ho, Hopt, H1, H2. reflexivity. }
  rewrite (parse_with_pattern _ _ _ Hp).
  unfold consume_all. rewrite positionals_eq.
  run. rewrite (_get_values_one _ img (PStr img)) by (reflexivity || assumption).
  run. run. rewrite finish_build_parser by (repeat constructor). run. reflexivity.
Qed.


(** Without option in the pattern the loop is not entered. *)
Lemma consume_loop_no_option self arg_strings pattern fuel i st :
  max_option_string_index pattern = (-1)%Z ->
  consume_loop self arg_strings pattern fuel i st = Return (st, i).
Proof.
  intros H. destruct fuel; simpl consume_loop; rewrite H;
    destruct (Z.leb_spec (Z.of_nat i) (-1)); try lia; reflexivity.
Qed.

Lemma last_option_index_arguments {A} (l : list A) i acc :
  last_option_index i (map (fun _ => pat_A) l) acc = acc.
Proof. revert i. induction l as [|x l IH]; intros i; cbn; auto. Qed.

Lemma arguments_pattern self args :
  Forall (is_argument self) args ->
  arg_strings_pattern self args = Return (map (fun _ => pat_A) args).
Proof.
  induction 1 as [|s args [H1 H2] _ IH]; [reflexivity|].
  rewrite pattern_cons, H1, H2. cbn. now rewrite IH.
Qed.

End more_runs.

(** How the parser reads the option string of a declared [store]
    option, alone and with an explicit argument. *)
Lemma declared_store o d f v c m :
  store_option o d f v c m ∈ declared_options ->
  String.eqb o "--" = false
  /\ _parse_optional build_parser o
     = Return (Some (Some (store_option o d f v c m), o, None))
  /\ d <> "svs"
  /\ forall s,
       String.eqb (o +:+ "=" +:+ s) "--" = false
       /\ _parse_optional build_parser (o +:+ "=" +:+ s)
          = Return (Some (Some (store_option o d f v c m), o, Some s)).
Proof.
  revert o d f v c m.
  enough (H : Forall (fun a =>
                forall o d f v c m,
                  a = store_option o d f v c m ->
                  String.eqb o "--" = false
                  /\ _parse_optional build_parser o
                     = Return (Some (Some a, o, None))
                  /\ d <> "svs"
                  /\ forall s,
                       String.eqb (o +:+ "=" +:+ s) "--" = false
                       /\ _parse_optional build_parser (o +:+ "=" +:+ s)
                          = Return (Some (Some a, o, Some s)))
              declared_options).
  { intros o d f v c m Hin. rewrite Forall_forall in H.
    exact (H _ Hin _ _ _ _ _ _ eq_refl). }
  unfold declared_options.
  repeat (constructor;
          [intros o d f v c m E; unfold flag_option, store_option in E;
           first
             [ discriminate E
             | injection E as <- <- <- <- <- <-;
               repeat apply conj; try discriminate;
               [vm_compute; reflexivity ..
               |intros s; split; vm_compute; reflexivity] ]
          |]).
  constructor.
Qed.

Lemma declared_flag o d :
  flag_option o d ∈ declared_options ->
  String.eqb o "--" = false
  /\ _parse_optional build_parser o
     = Return (Some (Some (flag_option o d), o, None))
  /\ d <> "svs".
Proof.
  revert o d.
  enough (H : Forall (fun a =>
                forall o d,
                  a = flag_option o d ->
                  String.eqb o "--" = false
                  /\ _parse_optional build_parser o
                     = Return (Some (Some a, o, None))
                  /\ d <> "svs")
              declared_options).
  { intros o d Hin. rewrite Forall_forall in H. exact (H _ Hin _ _ eq_refl). }
  unfold declared_options.
  repeat (constructor;
          [intros o d E; unfold flag_option, store_option in E;
           first
             [ discriminate E
             | injection E as <- <-;
               repeat apply conj; try discriminate; vm_compute; reflexivity ]
          |]).
  constructor.
Qed.

Lemma k_const_option :
  store_option "--k-const" "k_const" builtin_int (PInt 10000) None None
  ∈ declared_options.
Proof. unfold declared_options. do 12 apply list_elem_of_further. apply list_elem_of_here. Qed.

Lemma verbose_option : flag_option "--verbose" "verbose" ∈ declared_options.
Proof. unfold declared_options. apply list_elem_of_further, list_elem_of_here. Qed.

(** ** The help *)

Lemma bind_HelpExit {A B} (m : outcome A) (k : A -> outcome B) :
  m ≫= k = HelpExit ->
  m = HelpExit \/ exists x, m = Return x /\ k x = HelpExit.
Proof. destruct m as [x| | |]; cbn; intros H; eauto; discriminate H. Qed.

Lemma mapM_not_HelpExit {A B} (f : A -> outcome B) l :
  (forall x, f x <> HelpExit) -> mapM f l <> HelpExit.
Proof.
  intros Hf. induction l as [|x l IH]; cbn; [discriminate|].
  intros H. apply bind_HelpExit in H as [H|(y & _ & H)]; [now apply Hf in H|].
  apply bind_HelpExit in H as [H|(ys & _ & H)]; [contradiction|discriminate H].
Qed.

Lemma _get_value_not_HelpExit a s : _get_value a s <> HelpExit.
Proof.
  unfold _get_value. destruct (type a) as [f|]; [|discriminate].
  destruct (call f s); discriminate.
Qed.

Lemma _check_value_not_HelpExit a v : _check_value a v <> HelpExit.
Proof.
  unfold _check_value. destruct (choices a) as [l|]; [|discriminate].
  destruct (value_in v l); discriminate.
Qed.

Lemma _get_values_not_HelpExit a l : _get_values a l <> HelpExit.
Proof.
  unfold _get_values. intros H.
  assert (Hm : forall l',
             (value ← mapM (_get_value a) l';
              _ ← mapM (_check_value a) value;
              Return (PList value)) <> HelpExit).
  { intros l' H'. apply bind_HelpExit in H' as [H'|(v & _ & H')].
    - revert H'. apply mapM_not_HelpExit, _get_value_not_HelpExit.
    - apply bind_HelpExit in H' as [H'|(u & _ & H')]; [|discriminate H'].
      revert H'. apply mapM_not_HelpExit, _check_value_not_HelpExit. }
  destruct (list_remove "--" l) as [|s [|s' r]]; try (now apply Hm in H).
  destruct (nargs a); [|now apply Hm in H].
  apply bind_HelpExit in H as [H|(v & _ & H)];
    [now apply _get_value_not_HelpExit in H|].
  apply bind_HelpExit in H as [H|(u & _ & H)]; [|discriminate H].
  now apply _check_value_not_HelpExit in H.
Qed.

Lemma _match_argument_not_HelpExit a p : _match_argument a p <> HelpExit.
Proof. unfold _match_argument. destruct (match_nargs_pattern a p); discriminate. Qed.

Lemma arg_strings_pattern_not_HelpExit self args :
  arg_strings_pattern self args <> HelpExit.
Proof.
  induction args as [|s args IH]; cbn; [discriminate|].
  destruct (String.eqb s "--"); [discriminate|]. intros H.
  apply bind_HelpExit in H as [H|(t & _ & H)];
    [now apply _parse_optional_not_HelpExit in H|].
  apply bind_HelpExit in H as [H|(p & _ & H)]; [contradiction|discriminate H].
Qed.

Lemma finish_actions_not_HelpExit actions seen :
  forall ns req, finish_actions actions seen ns req <> HelpExit.
Proof.
  induction actions as [|a actions IH]; intros ns req; cbn; [discriminate|].
  destruct (existsb _ seen); [apply IH|].
  destruct (required a); [apply IH|].
  destruct (default a) as [|[| | | |d|]]; try apply IH.
  destruct (ns !! dest a) as [[| | | |s|]|]; try apply IH.
  destruct (String.eqb d s); [|apply IH].
  intros H. apply bind_HelpExit in H as [H|(v & _ & H)];
    [now apply _get_value_not_HelpExit in H|now apply IH in H].
Qed.

Section help_exit.
Variable self : ArgumentParser.
Variable arg_strings : list string.
Variable pattern : list pattern_part.

(** Only the [help] action leaves with the help. *)
Lemma take_action_HelpExit a args st :
  take_action a args st = HelpExit -> cls a = _HelpAction.
Proof.
  unfold take_action. intros H.
  apply bind_HelpExit in H as [H|(v & _ & H)];
    [now apply _get_values_not_HelpExit in H|].
  apply bind_HelpExit in H as [H|(ns & _ & H)]; [|discriminate H].
  unfold __call__ in H. now destruct (cls a).
Qed.

Lemma take_actions_HelpExit tuples :
  forall st,
    take_actions tuples st = HelpExit ->
    exists a args os, (a, args, os) ∈ tuples /\ cls a = _HelpAction.
Proof.
  induction tuples as [|[[a args] os] tuples IH]; intros st H; cbn in H;
    [discriminate H|].
  apply bind_HelpExit in H as [H|(st1 & _ & H)].
  - apply take_action_HelpExit in H. exists a, args, os.
    split; [apply list_elem_of_here|exact H].
  - destruct (IH _ H) as (a' & args' & os' & Hin & Hc).
    exists a', args', os'. split; [now apply list_elem_of_further|exact Hc].
Qed.

Lemma take_positionals_HelpExit counts :
  forall i st,
    take_positionals arg_strings counts i st = HelpExit ->
    exists a n, (a, n) ∈ counts /\ cls a = _HelpAction.
Proof.
  induction counts as [|[a n] counts IH]; intros i st H; cbn in H;
    [discriminate H|].
  apply bind_HelpExit in H as [H|(st1 & _ & H)].
  - apply take_action_HelpExit in H. exists a, n.
    split; [apply list_elem_of_here|exact H].
  - destruct (IH _ _ H) as (a' & n' & Hin & Hc).
    exists a', n'. split; [now apply list_elem_of_further|exact Hc].
Qed.

Lemma take_actions_positionals tuples :
  forall st st',
    take_actions tuples st = Return st' -> positionals st' = positionals st.
Proof.
  induction tuples as [|[[a args] os] tuples IH]; intros st st' H; cbn in H.
  - now injection H as <-.
  - inv_Return H. apply take_action_Return in H0 as (v & ns & _ & _ & ->).
    now apply IH in H.
Qed.

Lemma take_positionals_positionals counts :
  forall i st st' stop,
    take_positionals arg_strings counts i st = Return (st', stop) ->
    positionals st' = positionals st.
Proof.
  induction counts as [|[a n] counts IH]; intros i st st' stop H; cbn in H.
  - now injection H as <- _.
  - inv_Return H. apply take_action_Return in H0 as (v & ns & _ & _ & ->).
    now apply IH in H.
Qed.

(** The positionals that are left are positionals of the parser, and
    none of these is a [help]. *)
Definition of_parser (st : state) : Prop :=
  Forall (fun a => cls a <> _HelpAction) (positionals st).

Lemma consume_positionals_HelpExit i st :
  of_parser st ->
  consume_positionals arg_strings pattern i st <> HelpExit.
Proof.
  unfold consume_positionals, of_parser. intros Hst H.
  apply bind_HelpExit in H as [H|([st1 j] & _ & H)]; [|discriminate H].
  apply take_positionals_HelpExit in H as (a & n & Hin & Hc).
  apply elem_of_zip_l in Hin. rewrite Forall_forall in Hst.
  now apply Hst in Hin.
Qed.

Lemma consume_positionals_of_parser i st st' stop :
  of_parser st ->
  consume_positionals arg_strings pattern i st = Return (st', stop) ->
  of_parser st'.
Proof.
  unfold consume_positionals, of_parser. intros Hst H.
  inv_Return H. destruct r as [st1 j]. injection H as <- _. cbn.
  apply take_positionals_positionals in H0. rewrite H0.
  now apply Forall_drop.
Qed.

(** An explicit argument of an option with a long option string goes
    to this option. *)
Lemma explicit_loop_long i a os e acc :
  single_dash os = false ->
  explicit_loop self arg_strings pattern i a os e acc
  = (arg_count ← _match_argument a [pat_A];
     match_explicit i a os e arg_count acc).
Proof.
  intros Hs. destruct e as [|c e]; cbn [explicit_loop]; [reflexivity|].
  destruct (_match_argument a [pat_A]) as [n| | |]; cbn; try reflexivity.
  rewrite Hs, andb_false_r. reflexivity.
Qed.

(** The option at [i] asks for the help: its action is a [help], or its
    option string has one [-], and a later character may be a [-h]. *)
Definition asks_help (i : nat) : Prop :=
  exists a os e,
    pattern !! i = Some (pat_O (Some a, os, e))
    /\ (cls a = _HelpAction \/ single_dash os = true).

Lemma consume_optional_HelpExit i st :
  consume_optional self arg_strings pattern i st = HelpExit -> asks_help i.
Proof.
  unfold consume_optional, option_string_indices, asks_help. intros H.
  destruct (pattern !! i) as [[| |[[[a|] os] e]]|] eqn:E; try discriminate H.
  exists a, os, e. split; [reflexivity|].
  destruct (single_dash os) eqn:Es; [now right|left].
  apply bind_HelpExit in H as [H|([tuples j] & Ht & H)].
  - destruct e as [e|].
    + rewrite explicit_loop_long in H by exact Es.
      apply bind_HelpExit in H as [H|(n & _ & H)];
        [now apply _match_argument_not_HelpExit in H|].
      unfold match_explicit in H. now destruct (n =? 1).
    + unfold match_following in H.
      apply bind_HelpExit in H as [H|(n & _ & H)];
        [now apply _match_argument_not_HelpExit in H|discriminate H].
  - apply bind_HelpExit in H as [H|(st1 & _ & H)]; [|discriminate H].
    apply take_actions_HelpExit in H as (a' & args & os' & Hin & Hc).
    destruct e as [e|].
    + rewrite explicit_loop_long in Ht by exact Es.
      inv_Return Ht. unfold match_explicit in Ht.
      destruct (r =? 1); [|discriminate Ht]. injection Ht as <- _.
      apply list_elem_of_singleton in Hin. now injection Hin as -> _ _.
    + unfold match_following in Ht. inv_Return Ht. injection Ht as <- _.
      apply list_elem_of_singleton in Hin. now injection Hin as -> _ _.
Qed.

Lemma consume_optional_of_parser i st st' stop :
  of_parser st ->
  consume_optional self arg_strings pattern i st = Return (st', stop) ->
  of_parser st'.
Proof.
  unfold consume_optional, of_parser. intros Hst H.
  destruct (option_string_indices pattern i) as [[[[a|] os] e]|];
    [| |discriminate H].
  - inv_Return H. destruct r as [tuples j]. inv_Return H.
    injection H as <- _. apply take_actions_positionals in H1.
    now rewrite H1.
  - now injection H as <- _.
Qed.

(** An outcome of the loop is the help only when an option asks for
    it, and a state it returns has positionals of the parser. *)
Definition helps (o : outcome (state * nat)) : Prop :=
  match o with
  | HelpExit => exists i, asks_help i
  | Return (st, _) => of_parser st
  | _ => True
  end.

Lemma helps_bind m k :
  helps m ->
  (forall st j, of_parser st -> helps (k (st, j))) ->
  helps (m ≫= k).
Proof. destruct m as [[st j]| | |]; cbn; auto. Qed.

Lemma consume_optional_helps i st :
  of_parser st -> helps (consume_optional self arg_strings pattern i st).
Proof.
  intros Hst.
  destruct (consume_optional self arg_strings pattern i st)
    as [[st' j]| | |] eqn:E; cbn; auto.
  - eapply consume_optional_of_parser; eauto.
  - eexists. eapply consume_optional_HelpExit, E.
Qed.

Lemma consume_positionals_helps i st :
  of_parser st -> helps (consume_positionals arg_strings pattern i st).
Proof.
  intros Hst.
  destruct (consume_positionals arg_strings pattern i st)
    as [[st' j]| | |] eqn:E; cbn; auto.
  - eapply consume_positionals_of_parser; eauto.
  - now apply consume_positionals_HelpExit in E.
Qed.

Section continue_help.
Variable continue : nat -> state -> outcome (state * nat).
Hypothesis continue_helps :
  forall j st, of_parser st -> helps (continue j st).

Lemma consume_next_option_helps next i st :
  of_parser st ->
  helps (consume_next_option self arg_strings pattern continue next i st).
Proof.
  unfold consume_next_option. intros Hst.
  destruct (option_string_indices pattern i);
    (apply helps_bind; [now apply consume_optional_helps|]);
    intros st' j; apply continue_helps.
Qed.

Lemma consume_turn_helps next i st :
  of_parser st ->
  helps (consume_turn self arg_strings pattern continue next i st).
Proof.
  unfold consume_turn. intros Hst.
  destruct (negb (i =? next)); [|now apply consume_next_option_helps].
  apply helps_bind; [now apply consume_positionals_helps|].
  intros st' j Hst'. destruct (i <? j); [now apply continue_helps|].
  now apply consume_next_option_helps.
Qed.

End continue_help.

Lemma consume_loop_helps fuel :
  forall i st,
    of_parser st -> helps (consume_loop self arg_strings pattern fuel i st).
Proof.
  induction fuel as [|fuel IH]; intros i st Hst; simpl consume_loop;
    destruct (Z.of_nat i <=? max_option_string_index pattern)%Z;
    cbn; auto.
  destruct (next_option_string_index pattern i) as [next|]; cbn; auto.
  now apply consume_turn_helps.
Qed.

Lemma consume_all_HelpExit ns :
  Forall (fun a => cls a <> _HelpAction) (_get_positional_actions self) ->
  consume_all self arg_strings pattern ns = HelpExit ->
  exists i, asks_help i.
Proof.
  intros Hpos H. unfold consume_all in H.
  match type of H with
  | consume_loop _ _ _ ?f ?i ?st ≫= _ = _ =>
      pose proof (consume_loop_helps f i st Hpos) as Hl
  end.
  apply bind_HelpExit in H as [H|([st1 i1] & H1 & H)];
    [now rewrite H in Hl|].
  rewrite H1 in Hl. cbn in Hl.
  apply bind_HelpExit in H as [H|([st2 i2] & H2 & H)];
    [now apply consume_positionals_HelpExit in H|].
  apply bind_HelpExit in H as [H|([ns' req] & _ & H)];
    [now apply finish_actions_not_HelpExit in H|].
  now destruct req.
Qed.

End help_exit.

Lemma parse_args_HelpExit self args :
  Forall (fun a => cls a <> _HelpAction) (_get_positional_actions self) ->
  parse_args self args = HelpExit ->
  exists s a os e,
    s ∈ before_separator args
    /\ _parse_optional self s = Return (Some (Some a, os, e))
    /\ (cls a = _HelpAction \/ single_dash os = true).
Proof.
  intros Hpos H. unfold parse_args, parse_known_args, _parse_known_args in H.
  apply bind_HelpExit in H as [H|([ns argv] & _ & H)];
    [|now destruct argv].
  apply bind_HelpExit in H as [H|(pattern & Hp & H)];
    [now apply arg_strings_pattern_not_HelpExit in H|].
  apply consume_all_HelpExit in H as (i & a & os & e & Hi & Hc);
    [|exact Hpos].
  destruct (arg_strings_pattern_option _ _ _ _ _ Hp Hi) as (s & _ & Hin & Hs).
  now exists s, a, os, e.
Qed.

(** In [build_parser] the help is the only action that leaves with the
    help, and the only one with an option string of one [-]. *)
Lemma build_parser_help key a :
  (key, a) ∈ _option_string_actions build_parser ->
  cls a = _HelpAction \/ single_dash key = true -> dest a = "help".
Proof.
  revert key a.
  enough (H : Forall (fun p => cls p.2 = _HelpAction
                               \/ single_dash p.1 = true ->
                               dest p.2 = "help")
                     (_option_string_actions build_parser)).
  { intros key a Hin. rewrite Forall_forall in H. exact (H _ Hin). }
  let l := eval vm_compute in (_option_string_actions build_parser) in
  change (_option_string_actions build_parser) with l.
  repeat (constructor; [cbn; intros [?|?]; (reflexivity || discriminate)|]).
  constructor.
Qed.

Lemma build_parser_positionals :
  Forall (fun a => cls a <> _HelpAction) (_get_positional_actions build_parser).
Proof. vm_compute. repeat constructor. discriminate. Qed.

Lemma help_exit_given args :
  parse_args build_parser args = HelpExit ->
  option_given build_parser args "help" = true.
Proof.
  intros H.
  apply parse_args_HelpExit in H as (s & a & os & e & Hin & Hs & Hc);
    [|exact build_parser_positionals].
  unfold option_given. apply existsb_exists. exists s.
  split; [now apply list_elem_of_In|].
  unfold selects. rewrite Hs.
  pose proof (_parse_optional_registered _ _ _ _ _ Hs) as Hr.
  now rewrite (build_parser_help _ _ Hr Hc).
Qed.

(** The help given first: the rest of the list is read, and not
    parsed. *)
Lemma help_first self args s a os pattern :
  String.eqb s "--" = false ->
  _parse_optional self s = Return (Some (Some a, os, None)) ->
  cls a = _HelpAction -> nargs a = nargs_0 -> option_strings a <> [] ->
  arg_strings_pattern self args = Return pattern ->
  parse_args self (s :: args) = HelpExit.
Proof.
  intros Hs Hopt Hc Hn Ho Hp.
  unfold parse_args, parse_known_args, _parse_known_args.
  rewrite pattern_cons, Hs, Hopt, Hp. cbn [mbind outcome_bind].
  unfold consume_all. simpl consume_loop.
  pose proof (max_option_string_index_ge
                (pat_O (Some a, os, None) :: pattern) 0 _ eq_refl) as Hm.
  apply Z.leb_le in Hm. rewrite Hm.
  unfold next_option_string_index, consume_turn, consume_next_option,
    consume_optional, option_string_indices, match_following,
    _match_argument, match_nargs_pattern.
  cbn [drop first_option_index is_O Nat.eqb negb lookup list_lookup].
  rewrite Hn. destruct (option_strings a) as [|o l]; [contradiction|].
  cbn. unfold take_action. rewrite _get_values_nil. cbn.
  unfold __call__. now rewrite Hc.
Qed.

(** ** The positional values of an argument list *)

(** An option that takes the next argument string as its value: a
    known option with [nargs=None], given without explicit argument. *)
Definition takes_value (p : pattern_part) : bool :=
  match p with
  | pat_O (Some a, _, None) =>
      match nargs a with nargs_None => true | nargs_0 => false end
  | _ => false
  end.

(** The string at index [j] follows an option that takes it; [v] tells
    it for the index 0. *)
Definition value_at (v : bool) (pattern : list pattern_part) (j : nat)
  : bool :=
  match j with
  | O => v
  | S k =>
      match pattern !! k with Some p => takes_value p | None => false end
  end.

(** The string at index [j] is an argument that no option takes. *)
Definition free (v : bool) (pattern : list pattern_part) (j : nat) : bool :=
  match pattern !! j with
  | Some pat_A => negb (value_at v pattern j)
  | _ => false
  end.

(** [s] is an option that takes the next argument string as its
    value. *)
Definition takes_argument (self : ArgumentParser) (s : string) : bool :=
  match _parse_optional self s with
  | Return (Some t) => takes_value (pat_O t)
  | _ => false
  end.

(** The positional values of an argument list: the strings read as
    arguments that do not follow an option that takes them as its
    value, and every string after the separator.  [value] tells that
    the first string follows such an option. *)
Fixpoint arguments_from (self : ArgumentParser) (value : bool)
    (args : list string) : list string :=
  match args with
  | [] => []
  | s :: r =>
      if String.eqb s "--" then r
      else match _parse_optional self s with
           | Return None =>
               if value then arguments_from self false r
               else s :: arguments_from self false r
           | _ => arguments_from self (takes_argument self s) r
           end
  end.

Definition positional_arguments (self : ArgumentParser)
    (args : list string) : list string :=
  arguments_from self false args.

Lemma omap_seq_S {A} (f : nat -> option A) n :
  forall k, omap f (seq (S k) n) = omap (fun j => f (S j)) (seq k n).
Proof.
  induction n as [|n IH]; intros k; [reflexivity|].
  cbn [seq]. cbn. now rewrite IH.
Qed.

Lemma omap_seq_ext {A} (f g : nat -> option A) n :
  (forall j, j < n -> f j = g j) -> omap f (seq 0 n) = omap g (seq 0 n).
Proof.
  intros H. apply list_omap_ext. apply Forall2_same_length_lookup.
  split; [reflexivity|]. intros i x y Hx Hy.
  rewrite Hx in Hy. injection Hy as <-.
  apply lookup_seq in Hx as [-> Hlt]. now apply H.
Qed.

Lemma omap_seq_cons {A} (f : nat -> option A) n :
  omap f (seq 0 (S n))
  = match f 0 with
    | Some y => y :: omap (fun j => f (S j)) (seq 0 n)
    | None => omap (fun j => f (S j)) (seq 0 n)
    end.
Proof.
  change (seq 0 (S n)) with (0 :: seq 1 n). cbn.
  now rewrite omap_seq_S.
Qed.

Lemma omap_lookup_seq {A} (l : list A) :
  omap (fun j => l !! j) (seq 0 (List.length l)) = l.
Proof.
  induction l as [|x l IH]; [reflexivity|].
  cbn [List.length]. rewrite omap_seq_cons. cbn. now f_equal.
Qed.

Lemma omap_None {A B} (l : list A) : omap (fun _ => @None B) l = [].
Proof. induction l as [|? ? IH]; [reflexivity|exact IH]. Qed.

(** One index only gives a value. *)
Lemma omap_seq_one {A} (f : nat -> option A) n j x :
  j < n -> f j = Some x ->
  (forall j', j' < n -> f j' <> None -> j' = j) ->
  omap f (seq 0 n) = [x].
Proof.
  revert f j. induction n as [|n IH]; intros f j Hj Hx Hu; [lia|].
  rewrite omap_seq_cons. destruct j as [|j].
  - rewrite Hx. f_equal.
    rewrite (omap_seq_ext _ (fun _ => None)); [apply omap_None|].
    intros j' Hj'. destruct (f (S j')) eqn:E; [|reflexivity].
    assert (S j' = 0) by (apply Hu; [lia|congruence]). lia.
  - destruct (f 0) eqn:E.
    + assert (0 = S j) by (apply Hu; [lia|congruence]). lia.
    + apply (IH _ j); [lia|exact Hx|].
      intros j' Hj' Hn. assert (S j' = S j) by (apply Hu; [lia|exact Hn]).
      lia.
Qed.

Section positional_index.
Variable self : ArgumentParser.
Variable args : list string.
Variable pattern : list pattern_part.
Hypothesis pattern_of_args : arg_strings_pattern self args = Return pattern.

(** Where a positional with [nargs=None] finds its string. *)
Lemma positional_match action k n :
  option_strings action = [] -> nargs action = nargs_None ->
  no_dash_before pattern k ->
  match_nargs_pattern action (drop k pattern) = Some n ->
  exists s,
    list_remove "--" (take n (drop k args)) = [s]
    /\ ((n = 1 /\ pattern !! k = Some pat_A /\ args !! k = Some s)
        \/ (n = 2 /\ pattern !! k = Some pat_A /\ args !! k = Some s
            /\ pattern !! S k = Some pat_dash)
        \/ (n = 2 /\ pattern !! k = Some pat_dash
            /\ pattern !! S k = Some pat_A /\ args !! S k = Some s)).
Proof.
  intros Ho Hn Hd Hm.
  pose proof (arg_strings_pattern_length _ _ _ pattern_of_args) as Hlen.
  unfold match_nargs_pattern in Hm. rewrite Ho, Hn in Hm.
  assert (Hlk : forall j, drop k pattern !! j = pattern !! (k + j))
    by (intros; apply lookup_drop).
  assert (Hla : forall j, drop k args !! j = args !! (k + j))
    by (intros; apply lookup_drop).
  assert (Hl : List.length (drop k pattern) = List.length (drop k args))
    by (rewrite !length_drop; lia).
  destruct (drop k pattern) as [|p0 pk1] eqn:Ep; [discriminate Hm|].
  destruct (drop k args) as [|s0 ak1] eqn:Ea; [discriminate Hl|].
  pose proof (Hlk 0) as H0. pose proof (Hla 0) as A0. cbn in H0, A0.
  rewrite Nat.add_0_r in H0, A0. symmetry in H0, A0.
  assert (HS : forall j, k + S j = S k + j) by (intros; lia).
  destruct p0 as [| |t]; [| |discriminate Hm].
  - assert (Hs0 : String.eqb s0 "--" = false).
    { apply String.eqb_neq. intros ->.
      destruct (arg_strings_pattern_A _ _ _ _ pattern_of_args H0 A0)
        as (j & Hj & Hp).
      now apply (Hd j). }
    cbn in Hm. injection Hm as <-. exists s0.
    destruct pk1 as [|p1 pk2]; [|destruct p1 as [| |t]];
      try (cbn; rewrite take_0; cbn; rewrite Hs0; split; [reflexivity|];
           left; now repeat split).
    destruct ak1 as [|s1 ak2]; [discriminate Hl|].
    pose proof (Hlk 1) as H1. pose proof (Hla 1) as A1. cbn in H1, A1.
    rewrite Nat.add_1_r in H1, A1. symmetry in H1, A1.
    destruct (arg_strings_pattern_dash _ _ _ _ pattern_of_args H1)
      as (Hs1 & _ & Hafter).
    rewrite Hs1 in A1. injection A1 as <-.
    assert (Hz : dashes pk2 = 0).
    { destruct pk2 as [|p2 pk3]; [reflexivity|].
      pose proof (Hlk 2) as H2. cbn in H2. symmetry in H2.
      apply Hafter in H2 as ->; [reflexivity|lia]. }
    cbn. rewrite Hz. cbn. rewrite take_0. cbn. rewrite Hs0.
    split; [reflexivity|]. right. left. now repeat split.
  - destruct (arg_strings_pattern_dash _ _ _ _ pattern_of_args H0)
      as (Hs0 & _ & Hafter).
    rewrite Hs0 in A0. injection A0 as <-.
    destruct pk1 as [|p1 pk2]; [discriminate Hm|].
    pose proof (Hlk 1) as H1. cbn in H1. rewrite Nat.add_1_r in H1.
    symmetry in H1.
    assert (p1 = pat_A) as -> by (eapply Hafter; [|exact H1]; lia).
    cbn in Hm.
    assert (Hz : dashes pk2 = 0).
    { destruct pk2 as [|p2 pk3]; [reflexivity|].
      pose proof (Hlk 2) as H2. cbn in H2. symmetry in H2.
      apply Hafter in H2 as ->; [reflexivity|lia]. }
    rewrite Hz in Hm. injection Hm as <-.
    destruct ak1 as [|s1 ak2]; [discriminate Hl|].
    pose proof (Hla 1) as A1. cbn in A1. rewrite Nat.add_1_r in A1.
    symmetry in A1.
    exists s1. split; [reflexivity|]. right. right. now repeat split.
Qed.

Lemma positional_match_argument action k :
  option_strings action = [] -> nargs action = nargs_None ->
  pattern !! k = Some pat_A ->
  match_nargs_pattern action (drop k pattern) <> None.
Proof.
  intros Ho Hn Hk. unfold match_nargs_pattern. rewrite Ho, Hn.
  rewrite <- (Nat.add_0_r k), <- lookup_drop in Hk.
  destruct (drop k pattern) as [|p r]; [discriminate Hk|].
  injection Hk as ->. discriminate.
Qed.


Variable pos : Action.
Hypothesis pos_strings : option_strings pos = [].
Hypothesis pos_nargs : nargs pos = nargs_None.
Hypothesis pos_cls : cls pos = _StoreAction.
Hypothesis pos_value : forall s, _get_value pos s = Return (PStr s).
Hypothesis pos_choices : choices pos = None.
Hypothesis options :
  forall key a,
    (key, a) ∈ _option_string_actions self ->
    option_strings a <> [] /\ dest a <> dest pos
    /\ (single_dash key = true -> cls a = _HelpAction).

(** What the options leave as it is. *)
Definition kept (st st' : state) : Prop :=
  positionals st' = positionals st
  /\ namespace st' !! dest pos = namespace st !! dest pos
  /\ (dest pos ∉ seen_actions st -> dest pos ∉ seen_actions st')
  /\ (extras st <> [] -> extras st' <> []).

Lemma kept_refl st : kept st st.
Proof. red. auto. Qed.

Lemma kept_trans st1 st2 st3 : kept st1 st2 -> kept st2 st3 -> kept st1 st3.
Proof.
  intros (H1 & H2 & H3 & H4) (H1' & H2' & H3' & H4'). red.
  repeat split; [congruence|congruence|auto|auto].
Qed.

Lemma take_action_kept a l st st' :
  dest a <> dest pos ->
  take_action a l st = Return st' -> kept st st' /\ cls a <> _HelpAction.
Proof.
  intros Hd H. apply take_action_Return in H as (v & ns & _ & Hc & ->).
  apply call_Return in Hc as [Hcls ->]. split; [|exact Hcls].
  red. cbn. repeat split; auto.
  - now rewrite lookup_insert_ne.
  - intros Hn. apply not_elem_of_cons. split; [congruence|exact Hn].
Qed.

Lemma take_actions_kept tuples :
  forall st st',
    Forall (fun t => dest t.1.1 <> dest pos) tuples ->
    take_actions tuples st = Return st' ->
    kept st st'
    /\ match tuples with
       | (a, _, _) :: _ => cls a <> _HelpAction
       | [] => True
       end.
Proof.
  induction tuples as [|[[a l] os] tuples IH]; intros st st' Hf H; cbn in H.
  - injection H as <-. split; [apply kept_refl|exact I].
  - inv_Return H. apply Forall_cons in Hf as [Ha Hf].
    apply take_action_kept in H0 as [Hk Hc]; [|exact Ha].
    apply IH in H as [Hk' _]; [|exact Hf].
    split; [eapply kept_trans; eauto|exact Hc].
Qed.

Lemma clustered_dest a : clustered self a -> dest a <> dest pos.
Proof. intros (c0 & c1 & H). eapply options, dict_get_elem, H. Qed.

(** What [consume_optional] does when it returns: the state is kept,
    and the option has taken the next string exactly when it takes a
    value. *)
Lemma consume_optional_exact i st st' stop :
  consume_optional self args pattern i st = Return (st', stop) ->
  kept st st'
  /\ (exists t, pattern !! i = Some (pat_O t))
  /\ value_at false pattern stop = false
  /\ (stop = S i
      \/ (stop = S (S i) /\ value_at false pattern (S i) = true
          /\ pattern !! S i = Some pat_A)).
Proof.
  unfold consume_optional, option_string_indices. intros H.
  destruct (pattern !! i) as [[| |[[[a|] os] e]]|] eqn:E; try discriminate H.
  - destruct (arg_strings_pattern_option _ _ _ _ _ pattern_of_args E)
      as (s & _ & _ & Hs).
    apply _parse_optional_registered in Hs.
    destruct (options _ _ Hs) as (Ho & Hd & Hh).
    inv_Return H. destruct r as [tuples j]. inv_Return H.
    injection H as -> ->.
    assert (Hc : cls a <> _HelpAction
                 /\ kept st st'
                 /\ ((e = None /\ nargs a = nargs_None /\ stop = S (S i)
                      /\ pattern !! S i = Some pat_A)
                     \/ ((e <> None \/ nargs a = nargs_0) /\ stop = S i))).
    { destruct e as [e|].
      - destruct (single_dash os) eqn:Es.
        + specialize (Hh eq_refl).
          apply explicit_loop_spec in H0
            as (new & -> & (l & os' & rest & -> & _)); auto;
            [|intros a' (c0 & c1 & Ha');
              eapply options, dict_get_elem, Ha'].
          cbn in H1. inv_Return H1.
          apply take_action_kept in H0 as [_ Hc]; [|exact Hd].
          contradiction.
        + rewrite explicit_loop_long in H0 by exact Es.
          inv_Return H0. unfold match_explicit in H0.
          destruct (r =? 1); [|discriminate H0]. injection H0 as <- <-.
          apply take_actions_kept in H1 as [Hk Hc];
            [|repeat constructor; exact Hd].
          split; [exact Hc|split; [exact Hk|]].
          right. split; [left; discriminate|reflexivity].
      - unfold match_following, _match_argument, match_nargs_pattern in H0.
        destruct (option_strings a) as [|o l]; [contradiction|].
        destruct (nargs a) eqn:En.
        + destruct (drop (S i) pattern) as [|[| |t] r] eqn:Ed;
            try discriminate H0.
          cbn in H0. injection H0 as <- <-.
          apply take_actions_kept in H1 as [Hk Hc];
            [|repeat constructor; exact Hd].
          split; [exact Hc|split; [exact Hk|]]. left.
          repeat split; [lia|].
          rewrite <- (Nat.add_0_r (S i)), <- lookup_drop, Ed. reflexivity.
        + cbn in H0. injection H0 as <- <-.
          apply take_actions_kept in H1 as [Hk Hc];
            [|repeat constructor; exact Hd].
          split; [exact Hc|split; [exact Hk|]].
          right. split; [now right|lia]. }
    destruct Hc as (Hc & Hk & Hj). split; [exact Hk|].
    split; [eauto|].
    destruct Hj as [(-> & Hn & -> & HA)|[Hn ->]].
    + split; [cbn; now rewrite HA|]. right.
      repeat split; [|exact HA]. cbn. rewrite E. cbn. now rewrite Hn.
    + split; [|now left]. cbn. rewrite E. cbn.
      destruct Hn as [Hn| ->]; [now destruct e|].
      now destruct e.
  - injection H as <- <-. split.
    + red. cbn. repeat split; auto. intros Hne. now destruct (extras st).
    + split; [eauto|]. split; [|now left]. cbn. now rewrite E.
Qed.


(** The invariant of the consumption, for the strings before index [i]:
    as long as the positional is not taken, no string was a free
    argument; once it is taken, it holds a free argument, and every
    other free argument is among the extras. *)
Definition placed (i : nat) (st : state) : Prop :=
  (positionals st = [pos] /\ (dest pos ∉ seen_actions st)
   /\ forall j, j < i -> free false pattern j = false)
  \/ (positionals st = []
      /\ exists j s,
           j < i /\ free false pattern j = true /\ args !! j = Some s
           /\ namespace st !! dest pos = Some (PStr s)
           /\ (extras st = [] ->
               forall j', j' < i -> free false pattern j' = true -> j' = j)).

Lemma placed_kept i i' st st' :
  placed i st -> kept st st' -> i <= i' ->
  (forall j, i <= j < i' -> free false pattern j = false) ->
  placed i' st'.
Proof.
  intros [(Hp & Hs & Hf)|(Hp & j & s & Hj & Hfj & Ha & Hn & Hu)]
         (K1 & K2 & K3 & K4) Hle Hnew.
  - left. repeat split; [congruence|auto|].
    intros j Hj. destruct (decide (j < i)); [auto|apply Hnew; lia].
  - right. split; [congruence|]. exists j, s.
    repeat split; [lia|exact Hfj|exact Ha|congruence|].
    intros He j' Hj' Hf'. destruct (decide (j' < i)) as [Hlt|Hge].
    + apply Hu; auto. destruct (extras st); [reflexivity|].
      now destruct K4.
    + rewrite Hnew in Hf' by lia. discriminate Hf'.
Qed.

Lemma free_option j t : pattern !! j = Some (pat_O t) -> free false pattern j = false.
Proof. unfold free. now intros ->. Qed.

Lemma free_dash j : pattern !! j = Some pat_dash -> free false pattern j = false.
Proof. unfold free. now intros ->. Qed.

Lemma free_value j : value_at false pattern j = true -> free false pattern j = false.
Proof. unfold free. intros ->. now destruct (pattern !! j) as [[]|]. Qed.

Lemma _get_values_positional l s :
  list_remove "--" l = [s] -> _get_values pos l = Return (PStr s).
Proof.
  intros H. unfold _get_values. rewrite H, pos_nargs, pos_value.
  unfold _check_value. now rewrite pos_choices.
Qed.

(** What [consume_positionals] does where no [--] has been passed. *)
Lemma consume_positionals_exact i st st' stop :
  value_at false pattern i = false -> placed i st ->
  no_dash_before pattern i ->
  consume_positionals args pattern i st = Return (st', stop) ->
  placed stop st'
  /\ value_at false pattern stop = false
  /\ (stop = i ->
      kept st st' /\ (pattern !! i = Some pat_A -> positionals st = [])).
Proof.
  unfold consume_positionals, _match_arguments_partial.
  intros Hv Hpl Hd H.
  destruct Hpl as [(Hp & Hs & Hf)|(Hp & j & s & Hj & Hfj & Ha & Hn & Hu)].
  - rewrite Hp in H. cbn in H.
    destruct (match_nargs_pattern pos (drop i pattern)) as [n|] eqn:En;
      cbn in H.
    + apply bind_Return in H as ([st1 stop1] & H1 & H).
      injection H as <- <-.
      apply bind_Return in H1 as (st2 & H2 & H1). injection H1 as <- <-.
      apply take_action_Return in H2 as (v & ns & Hv2 & Hc & ->).
      apply call_Return in Hc as [_ ->]. rewrite pos_cls. cbn.
      destruct (positional_match _ _ _ pos_strings pos_nargs Hd En)
        as (s & Hl & Hcase).
      rewrite (_get_values_positional _ _ Hl) in Hv2. injection Hv2 as <-.
      assert (Hplaced : forall j,
                 i <= j < i + n -> pattern !! j = Some pat_A ->
                 free false pattern j = true -> args !! j = Some s ->
                 (forall j', i <= j' < i + n ->
                             free false pattern j' = true -> j' = j) ->
                 placed (i + n)
                   (with_positionals
                      {| namespace := <[dest pos:=PStr s]> (namespace st);
                         seen_actions := dest pos :: seen_actions st;
                         positionals := positionals st;
                         extras := extras st |}
                      (drop 1 (positionals st)))).
      { intros j Hj HA Hfree Hs' Hu. right. cbn. rewrite Hp. cbn.
        split; [reflexivity|]. exists j, s.
        repeat split; [lia|exact Hfree|exact Hs'|apply lookup_insert_eq|].
        intros _ j' Hj' Hf'. destruct (decide (j' < i)) as [Hlt|Hge].
        - rewrite Hf in Hf' by exact Hlt. discriminate Hf'.
        - apply Hu; [lia|exact Hf']. }
      destruct Hcase as [(-> & HA & Hs')|[(-> & HA & Hs' & HD)
                                          |(-> & HD & HA & Hs')]].
      * split; [|split; [|lia]].
        -- apply (Hplaced i); [lia|exact HA| |exact Hs'|intros; lia].
           unfold free. now rewrite HA, Hv.
        -- replace (i + 1) with (S i) by lia. cbn. now rewrite HA.
      * split; [|split; [|lia]].
        -- apply (Hplaced i); [lia|exact HA| |exact Hs'|].
           ++ unfold free. now rewrite HA, Hv.
           ++ intros j' Hj' Hf'. destruct (decide (j' = i)); [assumption|].
              replace j' with (S i) in Hf' by lia.
              rewrite free_dash in Hf' by exact HD. discriminate Hf'.
        -- replace (i + 2) with (S (S i)) by lia. cbn. now rewrite HD.
      * split; [|split; [|lia]].
        -- apply (Hplaced (S i)); [lia|exact HA| |exact Hs'|].
           ++ unfold free. rewrite HA. cbn. now rewrite HD.
           ++ intros j' Hj' Hf'. destruct (decide (j' = S i)); [assumption|].
              replace j' with i in Hf' by lia.
              rewrite free_dash in Hf' by exact HD. discriminate Hf'.
        -- replace (i + 2) with (S (S i)) by lia. cbn. now rewrite HA.
    + injection H as <- <-. cbn. rewrite Hp. cbn.
      split; [left; cbn; auto|]. split; [exact Hv|]. intros _. split.
      * red. cbn. auto.
      * intros HA.
        now apply (positional_match_argument pos i pos_strings pos_nargs)
          in HA.
  - rewrite Hp in H. cbn in H. injection H as <- <-. cbn. rewrite Hp. cbn.
    split; [|split; [exact Hv|]].
    + right. cbn. split; [reflexivity|]. exists j, s. auto.
    + intros _. split; [|auto]. red. cbn. auto.
Qed.


Lemma option_after_dash j j' t :
  pattern !! j = Some pat_dash -> j < j' ->
  pattern !! j' <> Some (pat_O t).
Proof.
  intros Hj Hlt Hj'.
  destruct (arg_strings_pattern_dash _ _ _ _ pattern_of_args Hj)
    as (_ & _ & Hafter).
  now apply (Hafter _ _ Hlt) in Hj'.
Qed.

(** No [--] stands before an option. *)
Lemma no_dash_before_next i next t :
  no_dash_before pattern i -> pattern !! next = Some (pat_O t) ->
  no_dash_before pattern (S next).
Proof.
  intros Hd Ht j Hj Hp.
  destruct (decide (j = next)) as [->|Hne]; [congruence|].
  eapply option_after_dash; [exact Hp| |exact Ht]. lia.
Qed.

Definition at_turn (i : nat) (st : state) : Prop :=
  value_at false pattern i = false /\ placed i st
  /\ no_dash_before pattern i.

Lemma consume_optional_placed i st st' stop :
  at_turn i st ->
  consume_optional self args pattern i st = Return (st', stop) ->
  at_turn stop st'.
Proof.
  intros (Hv & Hp & Hd) H.
  apply consume_optional_exact in H as (Hk & (t & Ht) & Hv' & Hstop).
  pose proof (no_dash_before_next _ _ _ Hd Ht) as Hd'.
  split; [exact Hv'|]. split.
  - eapply placed_kept; [exact Hp|exact Hk| |].
    + destruct Hstop as [->|[-> _]]; lia.
    + intros j Hj. destruct (decide (j = i)) as [->|Hne];
        [eapply free_option, Ht|].
      destruct Hstop as [->|(-> & Hvi & _)]; [lia|].
      replace j with (S i) by lia. now apply free_value.
  - destruct Hstop as [->|(-> & _ & HA)]; [exact Hd'|].
    intros j Hj Hp'. destruct (decide (j = S i)) as [->|Hne];
      [congruence|].
    apply (Hd' j); [lia|exact Hp'].
Qed.

Section continue_placed.
Variable continue : nat -> state -> outcome (state * nat).
Variable Goal : Prop.
Variable r : state * nat.
Hypothesis continue_placed :
  forall j st, at_turn j st -> continue j st = Return r -> Goal.

Lemma consume_next_option_placed next i st :
  at_turn i st ->
  next_option_string_index pattern i = Some next ->
  (pattern !! i = Some pat_A -> positionals st = []) ->
  consume_next_option self args pattern continue next i st = Return r ->
  Goal.
Proof.
  unfold consume_next_option, option_string_indices.
  intros Hat Hnext Hpos H.
  apply next_option_string_index_spec in Hnext as (Hle & (t & Ht) & Hn).
  destruct (pattern !! i) as [[| |t']|] eqn:E;
    inv_Return H; destruct r0 as [st3 j];
    try (eapply continue_placed; [|exact H];
         eapply consume_optional_placed; [|exact H0]; exact Hat).
  all: destruct Hat as (Hv & Hp & Hd).
  all: assert (Hlt : i < next)
    by (destruct (decide (i = next)) as [->|]; [congruence|lia]).
  all: try (exfalso; eapply option_after_dash; [exact E|exact Hlt|exact Ht]).
  all: try (apply lookup_lt_Some in Ht; apply lookup_ge_None in E; lia).
  eapply continue_placed; [|exact H].
  eapply consume_optional_placed; [|exact H0].
  assert (Hnd : no_dash_before pattern next).
  { intros j' Hj' Hp'.
    eapply option_after_dash; [exact Hp'|exact Hj'|exact Ht]. }
  split; [|split; [|exact Hnd]].
  - destruct next as [|k]; [lia|]. cbn.
    destruct (Hn k) as (p & Hpk & Hpo); [lia|]. rewrite Hpk.
    now destruct p.
  - specialize (Hpos eq_refl).
    destruct Hp as [(Hp & _)|(_ & j' & s & Hj' & Hfj & Ha & Hns & _)];
      [congruence|].
    right. cbn. split; [exact Hpos|]. exists j', s.
    repeat split; [lia|exact Hfj|exact Ha|exact Hns|].
    intros He. apply app_eq_nil in He as [_ He]. exfalso.
    apply (f_equal (@List.length _)) in He.
    rewrite length_take, length_drop in He.
    pose proof (arg_strings_pattern_length _ _ _ pattern_of_args) as Hlen.
    apply lookup_lt_Some in Ht. cbn in He. lia.
Qed.

Lemma consume_turn_placed next i st :
  at_turn i st ->
  next_option_string_index pattern i = Some next ->
  consume_turn self args pattern continue next i st = Return r ->
  Goal.
Proof.
  unfold consume_turn. intros Hat Hnext H.
  destruct (i =? next) eqn:Ei; cbn [negb] in H; cbv iota in H.
  { apply Nat.eqb_eq in Ei as ->.
    eapply consume_next_option_placed; [exact Hat|exact Hnext| |exact H].
    apply next_option_string_index_spec in Hnext as (_ & (t & Ht) & _).
    congruence. }
  inv_Return H. destruct r0 as [st1 pend].
  pose proof Hat as (Hv & Hp & Hd).
  pose proof (consume_positionals_exact _ _ _ _ Hv Hp Hd H0)
    as (Hp1 & Hv1 & Hsame).
  apply consume_positionals_spec in H0 as (Hle & Hno & _).
  pose proof (next_option_string_index_spec _ _ _ Hnext)
    as (Hle' & (t & Ht) & _).
  assert (Hnd : forall k, k <= next -> no_dash_before pattern k).
  { intros k Hk j' Hj' Hp'.
    eapply option_after_dash; [exact Hp'| |exact Ht]. lia. }
  destruct (i <? pend) eqn:El.
  - eapply continue_placed; [|exact H].
    split; [exact Hv1|]. split; [exact Hp1|]. apply Hnd.
    destruct (decide (pend <= next)) as [?|Hgt]; [assumption|].
    destruct (Hno next) as (p & Hp' & Ep); [lia|].
    rewrite Ht in Hp'. injection Hp' as <-. discriminate Ep.
  - apply Nat.ltb_ge in El. replace pend with i in * by lia.
    destruct (Hsame eq_refl) as ((K1 & _) & HA).
    eapply consume_next_option_placed; [|exact Hnext| |exact H].
    + split; [exact Hv1|]. split; [exact Hp1|exact Hd].
    + intros HAi. rewrite K1. now apply HA.
Qed.

End continue_placed.

Lemma consume_loop_placed fuel :
  forall i st st' stop,
    at_turn i st ->
    consume_loop self args pattern fuel i st = Return (st', stop) ->
    at_turn stop st'
    /\ forall j t, stop <= j -> pattern !! j <> Some (pat_O t).
Proof.
  induction fuel as [|fuel IH]; intros i st st' stop Hat H;
    simpl consume_loop in H;
    destruct (Z.of_nat i <=? max_option_string_index pattern)%Z eqn:E;
    try discriminate H.
  - injection H as <- <-. split; [exact Hat|]. intros j t Hj Hp.
    apply max_option_string_index_ge in Hp. lia.
  - destruct (next_option_string_index pattern i) as [next|] eqn:En;
      [|discriminate H].
    eapply (consume_turn_placed _ _ (st', stop));
      [|exact Hat|exact En|exact H].
    intros j st1 Hat1 H1. eapply IH; eauto.
  - injection H as <- <-. split; [exact Hat|]. intros j t Hj Hp.
    apply max_option_string_index_ge in Hp. lia.
Qed.

Hypothesis the_positional : _get_positional_actions self = [pos].
Hypothesis pos_required : required pos = true.
Hypothesis pos_action : pos ∈ _actions self.
Hypothesis string_defaults :
  forall action d,
    action ∈ _actions self -> default action = Value (PStr d) ->
    _get_value action d = Return (PStr d).

(** After a parse that returns without extras, one string of the list
    is a free argument, and the positional holds it. *)
Lemma consume_all_exact ns0 ns :
  consume_all self args pattern ns0 = Return (ns, []) ->
  exists j s,
    free false pattern j = true /\ args !! j = Some s
    /\ ns !! dest pos = Some (PStr s)
    /\ forall j', free false pattern j' = true -> j' = j.
Proof.
  intros H. unfold consume_all in H.
  inv_Return H. destruct r as [st1 i1].
  inv_Return H. destruct r as [st2 i2].
  inv_Return H. destruct r as [ns' req]. destruct req; [|discriminate H].
  injection H as <- He.
  apply app_eq_nil in He as [He Hdrop].
  apply consume_loop_placed in H0 as ((Hv1 & Hp1 & Hd1) & Hopt).
  2:{ split; [reflexivity|]. split; [|intros j Hj; lia].
      left. cbn. rewrite the_positional.
      repeat split; [apply not_elem_of_nil|intros j Hj; lia]. }
  apply consume_positionals_exact in H1 as (Hp2 & _); auto.
  apply (finish_actions_spec self string_defaults) in H2 as [-> Hreq]; auto.
  destruct (Hreq eq_refl) as [_ Hseen].
  destruct Hp2 as [(_ & Hs & _)|(_ & j & s & Hj & Hfj & Ha & Hns & Hu)].
  - now apply Hseen in pos_action.
  - exists j, s. repeat split; auto.
    intros j' Hf'. apply Hu; [exact He| |exact Hf'].
    apply (f_equal (@List.length _)) in Hdrop.
    rewrite length_drop in Hdrop. cbn in Hdrop.
    pose proof (arg_strings_pattern_length _ _ _ pattern_of_args) as Hlen.
    unfold free in Hf'. destruct (pattern !! j') eqn:E; [|discriminate Hf'].
    apply lookup_lt_Some in E. lia.
Qed.


End positional_index.

(** The strings at the free indices are the positional values. *)
Lemma free_cons v p parts j :
  free v (p :: parts) (S j) = free (takes_value p) parts j.
Proof.
  unfold free. change ((p :: parts) !! S j) with (parts !! j).
  destruct (parts !! j) as [[| |t]|]; try reflexivity.
  now destruct j.
Qed.

Lemma free_after_dash (r : list string) v j :
  j < List.length r ->
  free v (map (fun _ => pat_A) r) j = negb (value_at v (map (fun _ => pat_A) r) j).
Proof.
  intros Hj. unfold free. rewrite list_lookup_fmap.
  destruct (lookup_lt_is_Some_2 r j Hj) as [x ->]. reflexivity.
Qed.

Lemma arguments_from_free self :
  forall args pattern v,
    arg_strings_pattern self args = Return pattern ->
    arguments_from self v args
    = omap (fun j => if free v pattern j then args !! j else None)
           (seq 0 (List.length args)).
Proof.
  induction args as [|s r IH]; intros pattern v H; [reflexivity|].
  rewrite pattern_cons in H. cbn [arguments_from List.length].
  rewrite omap_seq_cons.
  destruct (String.eqb s "--") eqn:Es.
  - injection H as <-. change (free v (pat_dash :: _) 0) with false.
    cbv iota. rewrite <- (omap_lookup_seq r) at 1.
    apply omap_seq_ext. intros j Hj. rewrite free_cons.
    change ((s :: r) !! S j) with (r !! j).
    rewrite free_after_dash by exact Hj.
    destruct j as [|j]; [reflexivity|]. unfold value_at.
    rewrite list_lookup_fmap.
    destruct (lookup_lt_is_Some_2 r j) as [x ->]; [lia|reflexivity].
  - inv_Return H. inv_Return H. injection H as <-.
    assert (Htail : forall p,
               omap (fun j => if free v (p :: r1) (S j)
                              then (s :: r) !! S j else None)
                    (seq 0 (List.length r))
               = arguments_from self (takes_value p) r).
    { intros p. rewrite (IH _ (takes_value p) H1).
      apply omap_seq_ext. intros j Hj. now rewrite free_cons. }
    rewrite Htail. unfold takes_argument. rewrite H0.
    destruct r0 as [t|]; [reflexivity|].
    unfold free. change ((pat_A :: r1) !! 0) with (Some pat_A).
    change ((s :: r) !! 0) with (Some s). cbn [value_at takes_value].
    now destruct v.
Qed.

(** After a parse that returns, the argument list has one positional
    value, and the positional holds it. *)
Lemma parse_args_positional self pos args ns :
  option_strings pos = [] -> nargs pos = nargs_None ->
  cls pos = _StoreAction ->
  (forall s, _get_value pos s = Return (PStr s)) ->
  choices pos = None ->
  (forall key a,
     (key, a) ∈ _option_string_actions self ->
     option_strings a <> [] /\ dest a <> dest pos
     /\ (single_dash key = true -> cls a = _HelpAction)) ->
  _get_positional_actions self = [pos] ->
  required pos = true -> pos ∈ _actions self ->
  (forall action d,
     action ∈ _actions self -> default action = Value (PStr d) ->
     _get_value action d = Return (PStr d)) ->
  parse_args self args = Return ns ->
  exists s,
    positional_arguments self args = [s]
    /\ ns !! dest pos = Some (PStr s).
Proof.
  intros P1 P2 P3 P4 P5 Ho P6 P7 P8 Hd H.
  unfold parse_args, parse_known_args, _parse_known_args in H.
  inv_Return H. destruct r as [ns' argv]. destruct argv; [|discriminate H].
  injection H as <-. inv_Return H0.
  destruct (consume_all_exact self args r H1 pos P1 P2 P3 P4 P5 Ho P6 P7 P8
              Hd _ _ H0) as (j & s & Hf & Ha & Hns & Hu).
  exists s. split; [|exact Hns].
  unfold positional_arguments. rewrite (arguments_from_free _ _ _ _ H1).
  apply (omap_seq_one _ _ j).
  - eapply lookup_lt_Some, Ha.
  - now rewrite Hf.
  - intros j' _ Hn. apply Hu.
    destruct (free false r j'); [reflexivity|contradiction].
Qed.

Lemma build_parser_options key a :
  (key, a) ∈ _option_string_actions build_parser ->
  option_strings a <> [] /\ dest a <> dest action_svs
  /\ (single_dash key = true -> cls a = _HelpAction).
Proof.
  revert key a.
  enough (H : Forall (fun p => option_strings p.2 <> []
                               /\ dest p.2 <> dest action_svs
                               /\ (single_dash p.1 = true ->
                                   cls p.2 = _HelpAction))
                     (_option_string_actions build_parser)).
  { intros key a Hin. rewrite Forall_forall in H. exact (H _ Hin). }
  let l := eval vm_compute in (_option_string_actions build_parser) in
  change (_option_string_actions build_parser) with l.
  repeat (constructor;
          [cbn; repeat split;
           try discriminate; intros; (reflexivity || discriminate)|]).
  constructor.
Qed.

(** The slide is the one positional value of the argument list. *)
Lemma build_parser_positional args ns :
  parse_args build_parser args = Return ns ->
  exists s,
    positional_arguments build_parser args = [s]
    /\ ns !! "svs" = Some (PStr s).
Proof.
  intros H.
  destruct (wf_parts build_parser build_parser_well_formed) as (_ & _ & H3).
  rewrite Forall_forall in H3.
  apply (parse_args_positional build_parser action_svs args ns);
    try reflexivity; try exact H.
  - exact build_parser_options.
  - rewrite build_parser_declares. apply list_elem_of_further, list_elem_of_here.
  - intros a d Hin. now apply H3.
Qed.

(** * The command line of PyHIST *)

(** ** The selectors *)

Lemma binary_digit_spec c :
  binary_digit c = true -> c = "0"%char \/ c = "1"%char.
Proof.
  unfold binary_digit. intros H. apply orb_true_iff in H as [H|H];
    apply Ascii.eqb_eq in H; auto.
Qed.

Lemma four_bits_spec s : four_bits s = true <-> s ∈ bits4.
Proof.
  split.
  - unfold four_bits. intros H. apply andb_true_iff in H as [Hl Hd].
    destruct s as [|c1 [|c2 [|c3 [|c4 [|c5 r]]]]]; try discriminate Hl.
    cbn in Hd.
    repeat match type of Hd with
           | _ && _ = true =>
               let H := fresh "H" in
               apply andb_true_iff in Hd as [H Hd];
               apply binary_digit_spec in H
           end.
    destruct H as [-> | ->], H0 as [-> | ->], H1 as [-> | ->],
      H2 as [-> | ->]; apply (bool_decide_unpack _); vm_compute; exact I.
  - revert s. apply Forall_forall.
    repeat (constructor; [reflexivity|]). constructor.
Qed.

Lemma bits4_plain s : s ∈ bits4 -> plain s = true.
Proof.
  revert s. apply Forall_forall.
  repeat (constructor; [reflexivity|]). constructor.
Qed.

Lemma borders_declared :
  _parse_optional build_parser "--borders"
  = Return (Some (Some (store_option "--borders" "borders" builtin_str
                                     (PStr "1111") (Some bits4) None),
                  "--borders", None)).
Proof. vm_compute. reflexivity. Qed.

Lemma corners_declared :
  _parse_optional build_parser "--corners"
  = Return (Some (Some (store_option "--corners" "corners" builtin_str
                                     (PStr "0000") (Some bits4) None),
                  "--corners", None)).
Proof. vm_compute. reflexivity. Qed.

(** A selector followed by any string [s]: [s] is stored when it is one of
    the sixteen, and the parse is an error otherwise. *)
Lemma parse_selector opt d v0 s img :
  String.eqb opt "--" = false ->
  _parse_optional build_parser opt
  = Return (Some (Some (store_option opt d builtin_str v0 (Some bits4) None),
                  opt, None)) ->
  d <> "svs" ->
  is_argument build_parser img ->
  if four_bits s
  then exists ns,
         parse_args build_parser [opt; s; img] = Return ns
         /\ ns !! d = Some (PStr s)
  else exists e, parse_args build_parser [opt; s; img] = Error e.
Proof.
  intros Ho Hopt Hd Himg.
  destruct (four_bits s) eqn:E.
  - apply four_bits_spec in E.
    rewrite (parse_store_choice opt d v0 bits4 s img Ho Hopt
               (plain_is_argument _ _ (bits4_plain s E)) Himg).
    rewrite (proj2 (value_in_elem s bits4) E).
    eexists. split; [reflexivity|]. now apply lookup_option_svs.
  - destruct (_parse_optional_cases build_parser s) as [->|[Ha|[Es H]]].
    + apply (parse_store_no_argument opt opt d builtin_str v0 (Some bits4)
                                       None "--" img Ho Hopt);
        [|exact Himg].
      intros [H _]. discriminate H.
    + rewrite (parse_store_choice opt d v0 bits4 s img Ho Hopt Ha Himg).
      destruct (value_in (PStr s) bits4) eqn:Ev; [|eauto].
      apply value_in_elem, four_bits_spec in Ev. congruence.
    + apply (parse_store_no_argument opt opt d builtin_str v0 (Some bits4)
                                       None s img Ho Hopt);
        [|exact Himg].
      intros [_ Hn]. destruct H as [[t Ht]|[e He]]; congruence.
Qed.

(** Whatever the argument list, a string left at a selector is one of the
    sixteen. *)
Lemma selector_value args ns d s :
  parse_args build_parser args = Return ns ->
  store_dest build_parser d builtin_str (Some bits4) = true ->
  (exists v, default_namespace build_parser !! d = Some (PStr v)
             /\ four_bits v = true) ->
  ns !! d = Some (PStr s) ->
  four_bits s = true.
Proof.
  intros Hp Hd (v & Hv & Hf) Hs.
  pose proof (store_value build_parser build_parser_well_formed args ns Hp
                          d builtin_str (Some bits4) Hd) as H.
  destruct (option_given build_parser args d).
  - destruct H as (x & Hx & [->|(s' & Hc & Hin)]); [congruence|].
    cbn in Hc. injection Hc as <-.
    assert (s' = s) as -> by congruence.
    now apply four_bits_spec, value_in_elem.
  - rewrite H, Hv in Hs. now injection Hs as <-.
Qed.

(** The two selectors, each followed by one of the sixteen strings. *)
Lemma parse_selectors b c img :
  b ∈ bits4 -> c ∈ bits4 -> is_argument build_parser img ->
  parse_args build_parser ["--borders"; b; "--corners"; c; img]
  = Return (<["svs" := PStr img]>
              (<["corners" := PStr c]>
                 (<["borders" := PStr b]> (default_namespace build_parser)))).
Proof.
  intros Hb Hc Himg.
  pose proof (plain_is_argument build_parser _ (bits4_plain b Hb)) as Ab.
  pose proof (plain_is_argument build_parser _ (bits4_plain c Hc)) as Ac.
  rewrite (parse_store_store "--borders" _ _ _ _ _ _ b
                             "--corners" _ _ _ _ _ _ c img
             eq_refl borders_declared Ab eq_refl corners_declared Ac Himg).
  rewrite (_get_values_one _ b (PStr b));
    [|reflexivity|apply Ab|reflexivity|].
  2: { unfold _check_value. cbn [choices store_option].
       now rewrite (proj2 (value_in_elem b bits4) Hb). }
  cbn [mbind outcome_bind].
  rewrite (_get_values_one _ c (PStr c));
    [|reflexivity|apply Ac|reflexivity|].
  2: { unfold _check_value. cbn [choices store_option].
       now rewrite (proj2 (value_in_elem c bits4) Hc). }
  reflexivity.
Qed.

Lemma lookup_selectors (x y z : pyval) (m : gmap string pyval) :
  <["svs" := z]> (<["corners" := y]> (<["borders" := x]> m)) !! "borders"
  = Some x
  /\ <["svs" := z]> (<["corners" := y]> (<["borders" := x]> m)) !! "corners"
     = Some y
  /\ <["svs" := z]> (<["corners" := y]> (<["borders" := x]> m)) !! "svs"
     = Some z.
Proof.
  split; [|split].
  - rewrite !lookup_insert_ne by discriminate. apply lookup_insert_eq.
  - now apply lookup_option_svs.
  - apply lookup_insert_eq.
Qed.

(** C1, as the code has it.  [build_parser] declares no check across
    [--borders] and [--corners]: each value is looked up among the
    sixteen choices on its own.  Whatever two strings of four binary
    digits are given, both of them non-zero included, [parse_args]
    returns a namespace that holds the two; no [ConflictingSelectors]
    error is raised. *)
Theorem selectors_parse_independently b c img :
  four_bits b = true -> four_bits c = true ->
  is_argument build_parser img ->
  exists ns,
    parse_args build_parser ["--borders"; b; "--corners"; c; img] = Return ns
    /\ ns !! "borders" = Some (PStr b)
    /\ ns !! "corners" = Some (PStr c)
    /\ ns !! "svs" = Some (PStr img).
Proof.
  intros Hb Hc Himg.
  apply four_bits_spec in Hb, Hc.
  eexists. split; [now apply parse_selectors|].
  exact (lookup_selectors _ _ _ _).
Qed.

Lemma selectors_parse_independently_witness :
  exists ns,
    parse_args build_parser
      ["--borders"; "1010"; "--corners"; "0101"; "slide.svs"] = Return ns
    /\ ns !! "borders" = Some (PStr "1010")
    /\ ns !! "corners" = Some (PStr "0101")
    /\ ns !! "svs" = Some (PStr "slide.svs").
Proof.
  apply (selectors_parse_independently "1010" "0101" "slide.svs").
  - reflexivity.
  - reflexivity.
  - split; vm_compute; reflexivity.
Defined.

(** C1 does not hold: with both selectors non-zero, [parse_args] returns
    a namespace and raises no error. *)
Lemma nonzero_selectors_accepted :
  exists ns,
    parse_args build_parser
      ["--borders"; "1111"; "--corners"; "1111"; "slide.svs"] = Return ns
    /\ ns !! "borders" = Some (PStr "1111")
    /\ ns !! "corners" = Some (PStr "1111")
    /\ "1111" <> "0000".
Proof.
  eexists. split; [|split; [|split]].
  - apply parse_selectors; [| |exact slide_is_argument];
      apply four_bits_spec; reflexivity.
  - exact (proj1 (lookup_selectors _ _ _ _)).
  - exact (proj1 (proj2 (lookup_selectors _ _ _ _))).
  - discriminate.
Qed.

(** C4.  The choices [combs] of [--borders] and [--corners], built from
    the permutations without repeats, are the strings of four binary
    digits.  A selector followed by such a string stores it; followed by
    any other string, the parse is an error; and whatever the argument
    list, a string found at a selector after a parse is one of them. *)
Theorem selector_choices_four_bits :
  (forall s, s ∈ combs <-> four_bits s = true)
  /\ forall opt d,
       (opt, d) ∈ selectors ->
       (exists a,
          dict_get (_option_string_actions build_parser) opt = Some a
          /\ dest a = d /\ choices a = Some combs)
       /\ (forall s img,
             is_argument build_parser img ->
             if four_bits s
             then exists ns,
                    parse_args build_parser [opt; s; img] = Return ns
                    /\ ns !! d = Some (PStr s)
             else exists e, parse_args build_parser [opt; s; img] = Error e)
       /\ (forall args ns s,
             parse_args build_parser args = Return ns ->
             ns !! d = Some (PStr s) -> four_bits s = true).
Proof.
  split.
  { intros s. rewrite combs_bits4. symmetry. apply four_bits_spec. }
  intros opt d H.
  apply elem_of_cons in H as [H|H]; [injection H as -> ->|].
  2: apply elem_of_cons in H as [H|H]; [injection H as -> ->|].
  3: now apply elem_of_nil in H.
  - repeat split.
    + eexists. split; [vm_compute; reflexivity|].
      split; vm_compute; reflexivity.
    + intros s img Himg.
      apply (parse_selector "--borders" "borders" (PStr "1111") s img
                            eq_refl borders_declared); [discriminate|exact Himg].
    + intros args ns s Hp Hs.
      apply (selector_value args ns "borders" s Hp);
        [vm_compute; reflexivity| |exact Hs].
      exists "1111". split; vm_compute; reflexivity.
  - repeat split.
    + eexists. split; [vm_compute; reflexivity|].
      split; vm_compute; reflexivity.
    + intros s img Himg.
      apply (parse_selector "--corners" "corners" (PStr "0000") s img
                            eq_refl corners_declared); [discriminate|exact Himg].
    + intros args ns s Hp Hs.
      apply (selector_value args ns "corners" s Hp);
        [vm_compute; reflexivity| |exact Hs].
      exists "0000". split; vm_compute; reflexivity.
Qed.

Lemma selector_choices_four_bits_witness :
  "0101" ∈ combs
  /\ (exists ns,
        parse_args build_parser ["--borders"; "0101"; "slide.svs"] = Return ns
        /\ ns !! "borders" = Some (PStr "0101"))
  /\ (exists e,
        parse_args build_parser ["--corners"; "0102"; "slide.svs"] = Error e).
Proof.
  destruct selector_choices_four_bits as [H1 H2].
  split; [apply H1; reflexivity|]. split.
  - destruct (H2 "--borders" "borders") as (_ & H & _);
      [apply list_elem_of_here|].
    exact (H "0101" "slide.svs" slide_is_argument).
  - destruct (H2 "--corners" "corners") as (_ & H & _);
      [apply list_elem_of_further, list_elem_of_here|].
    exact (H "0102" "slide.svs" slide_is_argument).
Defined.

(** C5.  After a parse in which [--borders] is not given, [borders] holds
    the string [1111]; in which [--corners] is not given, [corners] holds
    the string [0000]: whether "not given" is read as the parser reads
    the argument strings ([option_given]) or on the strings themselves
    ([omitted]).  Each default is the one its option declares, it passes
    the check of the option against its choices, and it is a member of
    [combs]. *)
Theorem selector_defaults args ns :
  parse_args build_parser args = Return ns ->
  (option_given build_parser args "borders" = false ->
   ns !! "borders" = Some (PStr "1111"))
  /\ (option_given build_parser args "corners" = false ->
      ns !! "corners" = Some (PStr "0000"))
  /\ (omitted args "--borders" = true ->
      ns !! "borders" = Some (PStr "1111"))
  /\ (omitted args "--corners" = true ->
      ns !! "corners" = Some (PStr "0000"))
  /\ (exists a,
        dict_get (_option_string_actions build_parser) "--borders" = Some a
        /\ default a = Value (PStr "1111")
        /\ _check_value a (PStr "1111") = Return tt)
  /\ (exists a,
        dict_get (_option_string_actions build_parser) "--corners" = Some a
        /\ default a = Value (PStr "0000")
        /\ _check_value a (PStr "0000") = Return tt)
  /\ "1111" ∈ combs /\ "0000" ∈ combs.
Proof.
  intros Hp. repeat apply conj.
  - apply (omitted_option_default args ns _ _ Hp); vm_compute; reflexivity.
  - apply (omitted_option_default args ns _ _ Hp); vm_compute; reflexivity.
  - apply (omitted_default args ns _ _ _ Hp); vm_compute; reflexivity.
  - apply (omitted_default args ns _ _ _ Hp); vm_compute; reflexivity.
  - eexists. split; [vm_compute; reflexivity|]. split; vm_compute; reflexivity.
  - eexists. split; [vm_compute; reflexivity|]. split; vm_compute; reflexivity.
  - rewrite combs_bits4. apply four_bits_spec. vm_compute. reflexivity.
  - rewrite combs_bits4. apply four_bits_spec. vm_compute. reflexivity.
Qed.

Lemma selector_defaults_witness :
  exists ns,
    parse_args build_parser ["slide.svs"] = Return ns
    /\ ns !! "borders" = Some (PStr "1111")
    /\ ns !! "corners" = Some (PStr "0000").
Proof.
  pose proof (parse_positional "slide.svs" slide_is_argument) as Hp.
  eexists. split; [exact Hp|].
  destruct (selector_defaults _ _ Hp) as (_ & _ & H1 & H2 & _).
  split; [apply H1|apply H2]; vm_compute; reflexivity.
Defined.

(** C6.  After a parse in which the option is not given ([option_given],
    as the parser reads the argument strings, or [omitted], on the
    strings themselves), [k_const] and [minimum_segmentsize] hold the
    integer 10000, [lines] (the destination of [--number-of-lines])
    holds the integer 100, and [sigma] holds the float 0.5. *)
Theorem segmentation_defaults args ns :
  parse_args build_parser args = Return ns ->
  (option_given build_parser args "k_const" = false ->
   ns !! "k_const" = Some (PInt 10000))
  /\ (option_given build_parser args "minimum_segmentsize" = false ->
      ns !! "minimum_segmentsize" = Some (PInt 10000))
  /\ (option_given build_parser args "lines" = false ->
      ns !! "lines" = Some (PInt 100))
  /\ (option_given build_parser args "sigma" = false ->
      ns !! "sigma" = Some (PFloat float_0_5))
  /\ (omitted args "--k-const" = true ->
      ns !! "k_const" = Some (PInt 10000))
  /\ (omitted args "--minimum_segmentsize" = true ->
      ns !! "minimum_segmentsize" = Some (PInt 10000))
  /\ (omitted args "--number-of-lines" = true ->
      ns !! "lines" = Some (PInt 100))
  /\ (omitted args "--sigma" = true ->
      ns !! "sigma" = Some (PFloat float_0_5))
  /\ builtins.float "0.5" = Some float_0_5.
Proof.
  intros Hp. repeat apply conj;
    try (apply (omitted_option_default args ns _ _ Hp);
         vm_compute; reflexivity);
    try (apply (omitted_default args ns _ _ _ Hp); vm_compute; reflexivity).
  vm_compute. reflexivity.
Qed.

Lemma segmentation_defaults_witness :
  exists ns,
    parse_args build_parser ["slide.svs"] = Return ns
    /\ ns !! "k_const" = Some (PInt 10000)
    /\ ns !! "minimum_segmentsize" = Some (PInt 10000)
    /\ ns !! "lines" = Some (PInt 100)
    /\ ns !! "sigma" = Some (PFloat float_0_5).
Proof.
  pose proof (parse_positional "slide.svs" slide_is_argument) as Hp.
  eexists. split; [exact Hp|].
  destruct (segmentation_defaults _ _ Hp)
    as (_ & _ & _ & _ & H1 & H2 & H3 & H4 & _).
  repeat apply conj; [apply H1|apply H2|apply H3|apply H4];
    vm_compute; reflexivity.
Defined.

(** C8.  After a parse in which the option is not given ([option_given],
    as the parser reads the argument strings, or [omitted], on the
    strings themselves), [output] holds the string [output/], and
    [output_downsample] and [downsample_mask] hold the integer 16. *)
Theorem output_defaults args ns :
  parse_args build_parser args = Return ns ->
  (option_given build_parser args "output" = false ->
   ns !! "output" = Some (PStr "output/"))
  /\ (option_given build_parser args "output_downsample" = false ->
      ns !! "output_downsample" = Some (PInt 16))
  /\ (option_given build_parser args "downsample_mask" = false ->
      ns !! "downsample_mask" = Some (PInt 16))
  /\ (omitted args "--output" = true ->
      ns !! "output" = Some (PStr "output/"))
  /\ (omitted args "--output-downsample" = true ->
      ns !! "output_downsample" = Some (PInt 16))
  /\ (omitted args "--downsample-mask" = true ->
      ns !! "downsample_mask" = Some (PInt 16)).
Proof.
  intros Hp. repeat apply conj;
    try (apply (omitted_option_default args ns _ _ Hp);
         vm_compute; reflexivity);
    apply (omitted_default args ns _ _ _ Hp); vm_compute; reflexivity.
Qed.

Lemma output_defaults_witness :
  exists ns,
    parse_args build_parser ["slide.svs"] = Return ns
    /\ ns !! "output" = Some (PStr "output/")
    /\ ns !! "output_downsample" = Some (PInt 16)
    /\ ns !! "downsample_mask" = Some (PInt 16).
Proof.
  pose proof (parse_positional "slide.svs" slide_is_argument) as Hp.
  eexists. split; [exact Hp|].
  destruct (output_defaults _ _ Hp) as (_ & _ & _ & H1 & H2 & H3).
  repeat apply conj; [apply H1|apply H2|apply H3]; vm_compute; reflexivity.
Defined.

(** ** Options with a converted value *)

(** A [store] option without choices followed by a string its type
    converts. *)
Lemma parse_store_converted opt d f v0 m s x img :
  String.eqb opt "--" = false ->
  _parse_optional build_parser opt
  = Return (Some (Some (store_option opt d f v0 None m), opt, None)) ->
  d <> "svs" ->
  is_argument build_parser s ->
  call f s = Some x ->
  is_argument build_parser img ->
  exists ns,
    parse_args build_parser [opt; s; img] = Return ns
    /\ ns !! d = Some x
    /\ ns !! "svs" = Some (PStr img).
Proof.
  intros Ho Hopt Hd Hs Hx Himg.
  rewrite (parse_store_value opt d f v0 m s img Ho Hopt Hs Himg), Hx.
  eexists. split; [reflexivity|]. split.
  - now apply lookup_option_svs.
  - apply lookup_insert_eq.
Qed.

Lemma content_threshold_declared :
  _parse_optional build_parser "--content-threshold"
  = Return (Some (Some (store_option "--content-threshold" "thres"
                          builtin_float (PFloat float_0_5) None
                          (Some "CONTENT_THRESHOLD")),
                  "--content-threshold", None)).
Proof. vm_compute. reflexivity. Qed.

Lemma k_const_declared :
  _parse_optional build_parser "--k-const"
  = Return (Some (Some (store_option "--k-const" "k_const" builtin_int
                          (PInt 10000) None None),
                  "--k-const", None)).
Proof. vm_compute. reflexivity. Qed.

Lemma minimum_segmentsize_declared :
  _parse_optional build_parser "--minimum_segmentsize"
  = Return (Some (Some (store_option "--minimum_segmentsize"
                          "minimum_segmentsize" builtin_int
                          (PInt 10000) None None),
                  "--minimum_segmentsize", None)).
Proof. vm_compute. reflexivity. Qed.

Lemma patch_size_declared :
  _parse_optional build_parser "--patch-size"
  = Return (Some (Some (store_option "--patch-size" "patch_size" builtin_int
                          (PInt 512) None None),
                  "--patch-size", None)).
Proof. vm_compute. reflexivity. Qed.

(** C2, as the code has it.  [--content-threshold] is declared with
    [type=float] and nothing else: every argument that [float] converts
    is accepted and stored as it is, whether or not it lies between 0
    and 1; no [InvalidParameter] error is raised.  After a parse in
    which the option is not given ([option_given], as the parser reads
    the argument strings, or [omitted], on the strings themselves),
    [thres] holds the float 0.5. *)
Theorem content_threshold_any_float :
  (forall s f img,
     is_argument build_parser s ->
     builtins.float s = Some f ->
     is_argument build_parser img ->
     exists ns,
       parse_args build_parser ["--content-threshold"; s; img] = Return ns
       /\ ns !! "thres" = Some (PFloat f)
       /\ ns !! "svs" = Some (PStr img))
  /\ (forall args ns,
        parse_args build_parser args = Return ns ->
        option_given build_parser args "thres" = false ->
        ns !! "thres" = Some (PFloat float_0_5))
  /\ (forall args ns,
        parse_args build_parser args = Return ns ->
        omitted args "--content-threshold" = true ->
        ns !! "thres" = Some (PFloat float_0_5)).
Proof.
  split; [|split].
  - intros s f img Hs Hf Himg.
    apply (parse_store_converted "--content-threshold" "thres" builtin_float
             (PFloat float_0_5) (Some "CONTENT_THRESHOLD") s (PFloat f) img
             eq_refl content_threshold_declared);
      [discriminate|exact Hs| |exact Himg].
    cbn [call]. now rewrite Hf.
  - intros args ns Hp.
    apply (omitted_option_default args ns _ _ Hp); vm_compute; reflexivity.
  - intros args ns Hp.
    apply (omitted_default args ns _ _ _ Hp); vm_compute; reflexivity.
Qed.

Lemma content_threshold_any_float_witness :
  (exists ns,
     parse_args build_parser ["--content-threshold"; "-0.5"; "slide.svs"]
     = Return ns
     /\ ns !! "thres" = Some (PFloat (S754_finite true 4503599627370496 (-53)))
     /\ ns !! "svs" = Some (PStr "slide.svs"))
  /\ (exists ns,
        parse_args build_parser ["slide.svs"] = Return ns
        /\ ns !! "thres" = Some (PFloat float_0_5)).
Proof.
  destruct content_threshold_any_float as (H1 & _ & H2). split.
  - apply (H1 "-0.5" _ "slide.svs").
    + split; vm_compute; reflexivity.
    + vm_compute. reflexivity.
    + exact slide_is_argument.
  - pose proof (parse_positional "slide.svs" slide_is_argument) as Hp.
    eexists. split; [exact Hp|].
    apply (H2 _ _ Hp). vm_compute. reflexivity.
Defined.

(** C2 does not hold: 1.5 is greater than 1, and [parse_args] returns a
    namespace in which [thres] is 1.5. *)
Lemma content_threshold_above_one_accepted :
  exists ns,
    parse_args build_parser ["--content-threshold"; "1.5"; "slide.svs"]
    = Return ns
    /\ ns !! "thres" = Some (PFloat float_1_5)
    /\ builtins.float "1" = Some float_1
    /\ SFltb float_1 float_1_5 = true.
Proof.
  destruct (parse_store_converted "--content-threshold" "thres" builtin_float
              (PFloat float_0_5) (Some "CONTENT_THRESHOLD") "1.5"
              (PFloat float_1_5) "slide.svs"
              eq_refl content_threshold_declared)
    as (ns & Hp & Hv & _).
  - discriminate.
  - split; vm_compute; reflexivity.
  - vm_compute. reflexivity.
  - exact slide_is_argument.
  - exists ns. repeat apply conj; [exact Hp|exact Hv| |];
      vm_compute; reflexivity.
Qed.

(** C3, as the code has it.  [--k-const] and [--minimum_segmentsize] are
    declared with [type=int] and nothing else: every argument that [int]
    converts is accepted and stored as it is, zero and the negative
    integers included; no [InvalidParameter] error is raised. *)
Theorem segment_parameters_any_int s z img :
  is_argument build_parser s ->
  builtins.int s = Some z ->
  is_argument build_parser img ->
  (exists ns,
     parse_args build_parser ["--k-const"; s; img] = Return ns
     /\ ns !! "k_const" = Some (PInt z)
     /\ ns !! "svs" = Some (PStr img))
  /\ (exists ns,
        parse_args build_parser ["--minimum_segmentsize"; s; img] = Return ns
        /\ ns !! "minimum_segmentsize" = Some (PInt z)
        /\ ns !! "svs" = Some (PStr img)).
Proof.
  intros Hs Hz Himg.
  assert (Hc : call builtin_int s = Some (PInt z))
    by (cbn [call]; now rewrite Hz).
  split.
  - apply (parse_store_converted "--k-const" "k_const" builtin_int
             (PInt 10000) None s (PInt z) img eq_refl k_const_declared);
      [discriminate|exact Hs|exact Hc|exact Himg].
  - apply (parse_store_converted "--minimum_segmentsize"
             "minimum_segmentsize" builtin_int
             (PInt 10000) None s (PInt z) img
             eq_refl minimum_segmentsize_declared);
      [discriminate|exact Hs|exact Hc|exact Himg].
Qed.

Lemma segment_parameters_any_int_witness :
  (exists ns,
     parse_args build_parser ["--k-const"; "-5"; "slide.svs"] = Return ns
     /\ ns !! "k_const" = Some (PInt (-5))
     /\ ns !! "svs" = Some (PStr "slide.svs"))
  /\ (exists ns,
        parse_args build_parser ["--minimum_segmentsize"; "-5"; "slide.svs"]
        = Return ns
        /\ ns !! "minimum_segmentsize" = Some (PInt (-5))
        /\ ns !! "svs" = Some (PStr "slide.svs")).
Proof.
  apply (segment_parameters_any_int "-5" (-5) "slide.svs").
  - split; vm_compute; reflexivity.
  - vm_compute. reflexivity.
  - exact slide_is_argument.
Defined.

(** C3 does not hold: [--k-const 0] and [--minimum_segmentsize -5] are
    parsed, and the namespace holds 0 and -5. *)
Lemma nonpositive_segment_parameters_accepted :
  (exists ns,
     parse_args build_parser ["--k-const"; "0"; "slide.svs"] = Return ns
     /\ ns !! "k_const" = Some (PInt 0))
  /\ (exists ns,
        parse_args build_parser ["--minimum_segmentsize"; "-5"; "slide.svs"]
        = Return ns
        /\ ns !! "minimum_segmentsize" = Some (PInt (-5)))
  /\ (0 <= 0)%Z /\ (-5 <= 0)%Z.
Proof.
  repeat apply conj; [| |lia|lia].
  - destruct (parse_store_converted "--k-const" "k_const" builtin_int
                (PInt 10000) None "0" (PInt 0) "slide.svs"
                eq_refl k_const_declared)
      as (ns & Hp & Hv & _);
      [discriminate|split; vm_compute; reflexivity|vm_compute; reflexivity
      |exact slide_is_argument|].
    exists ns. now split.
  - destruct (parse_store_converted "--minimum_segmentsize"
                "minimum_segmentsize" builtin_int
                (PInt 10000) None "-5" (PInt (-5)) "slide.svs"
                eq_refl minimum_segmentsize_declared)
      as (ns & Hp & Hv & _);
      [discriminate|split; vm_compute; reflexivity|vm_compute; reflexivity
      |exact slide_is_argument|].
    exists ns. now split.
Qed.

(** C7.  After a parse in which [--patch-size] is not given
    ([option_given], as the parser reads the argument strings, or
    [omitted], on the strings themselves), [patch_size] holds the
    integer 512.  A value given to the option is converted by [int]: the
    integer is stored, and a string that [int] does not convert is an
    error. *)
Theorem patch_size_int :
  (forall args ns,
     parse_args build_parser args = Return ns ->
     option_given build_parser args "patch_size" = false ->
     ns !! "patch_size" = Some (PInt 512))
  /\ (forall args ns,
        parse_args build_parser args = Return ns ->
        omitted args "--patch-size" = true ->
        ns !! "patch_size" = Some (PInt 512))
  /\ (forall s img,
        is_argument build_parser s ->
        is_argument build_parser img ->
        match builtins.int s with
        | Some z =>
            exists ns,
              parse_args build_parser ["--patch-size"; s; img] = Return ns
              /\ ns !! "patch_size" = Some (PInt z)
        | None =>
            parse_args build_parser ["--patch-size"; s; img]
            = Error (ArgumentError "--patch-size" (invalid_value "int" s))
        end).
Proof.
  split; [|split].
  - intros args ns Hp.
    apply (omitted_option_default args ns _ _ Hp); vm_compute; reflexivity.
  - intros args ns Hp.
    apply (omitted_default args ns _ _ _ Hp); vm_compute; reflexivity.
  - intros s img Hs Himg.
    rewrite (parse_store_value "--patch-size" "patch_size" builtin_int
               (PInt 512) None s img eq_refl patch_size_declared Hs Himg).
    cbn [call __name__]. destruct (builtins.int s) as [z|]; [|reflexivity].
    eexists. split; [reflexivity|]. now apply lookup_option_svs.
Qed.

Lemma patch_size_int_witness :
  (exists ns,
     parse_args build_parser ["slide.svs"] = Return ns
     /\ ns !! "patch_size" = Some (PInt 512))
  /\ (exists ns,
        parse_args build_parser ["--patch-size"; "256"; "slide.svs"]
        = Return ns
        /\ ns !! "patch_size" = Some (PInt 256))
  /\ parse_args build_parser ["--patch-size"; "2.5"; "slide.svs"]
     = Error (ArgumentError "--patch-size" (invalid_value "int" "2.5")).
Proof.
  destruct patch_size_int as (_ & H1 & H2). repeat apply conj.
  - pose proof (parse_positional "slide.svs" slide_is_argument) as Hp.
    eexists. split; [exact Hp|].
    apply (H1 _ _ Hp). vm_compute. reflexivity.
  - apply (H2 "256" "slide.svs");
      [split; vm_compute; reflexivity|exact slide_is_argument].
  - apply (H2 "2.5" "slide.svs");
      [split; vm_compute; reflexivity|exact slide_is_argument].
Defined.

(** ** The flags and the positional *)

Lemma flags_declared :
  Forall (fun p =>
            String.eqb (fst p) "--" = false
            /\ _parse_optional build_parser (fst p)
               = Return (Some (Some (flag_option (fst p) (snd p)),
                               fst p, None))
            /\ flag_dest build_parser (snd p) = true
            /\ selects build_parser (fst p) (snd p) = true
            /\ snd p <> "svs"
            /\ dict_get (_option_string_actions build_parser) (fst p)
               = Some (flag_option (fst p) (snd p))
            /\ sole_option build_parser (snd p) (fst p) = true)
         flags.
Proof.
  repeat (constructor;
          [repeat apply conj; try discriminate; vm_compute; reflexivity|]).
  constructor.
Qed.

(** C9.  For each of the six flags: its action is a [store_true], which
    takes no argument ([nargs=0]) and is [False] by default; after a
    parse, its destination holds [True] when the option is given and
    [False] when it is not; it is given as soon as its option string
    stands before the separator, and it is not given when no argument
    string before the separator abbreviates it; and the string that
    follows it is not consumed: it is left to the positional. *)
Theorem flags_store_true opt d :
  (opt, d) ∈ flags ->
  dict_get (_option_string_actions build_parser) opt
  = Some (flag_option opt d)
  /\ (forall args ns,
     parse_args build_parser args = Return ns ->
     ns !! d = Some (PBool (option_given build_parser args d)))
  /\ (forall args,
        opt ∈ before_separator args ->
        option_given build_parser args d = true)
  /\ (forall args,
        omitted args opt = true ->
        option_given build_parser args d = false)
  /\ (forall img,
        is_argument build_parser img ->
        exists ns,
          parse_args build_parser [opt; img] = Return ns
          /\ ns !! d = Some (PBool true)
          /\ ns !! "svs" = Some (PStr img)).
Proof.
  intros Hin.
  pose proof (proj1 (Forall_forall _ _) flags_declared _ Hin)
    as (Ho & Hopt & Hd & Hsel & Hne & Hdecl & Hsole).
  cbn [fst snd] in Ho, Hopt, Hd, Hsel, Hne, Hdecl, Hsole. repeat apply conj.
  - exact Hdecl.
  - intros args ns Hp.
    exact (flag_value build_parser build_parser_well_formed args ns Hp d Hd).
  - intros args Hopt'. unfold option_given. apply existsb_exists.
    exists opt. split; [now apply list_elem_of_In|exact Hsel].
  - intros args. apply omitted_not_given, Hsole.
  - intros img Himg.
    rewrite (parse_flag opt opt d img Ho Hopt Himg).
    eexists. split; [reflexivity|]. split.
    + now apply lookup_option_svs.
    + apply lookup_insert_eq.
Qed.

Lemma flags_store_true_witness :
  (exists ns,
     parse_args build_parser ["--verbose"; "slide.svs"] = Return ns
     /\ ns !! "verbose" = Some (PBool true)
     /\ ns !! "svs" = Some (PStr "slide.svs"))
  /\ (exists ns,
        parse_args build_parser ["slide.svs"] = Return ns
        /\ ns !! "verbose" = Some (PBool false)).
Proof.
  destruct (flags_store_true "--verbose" "verbose")
    as (_ & H1 & H2 & H3 & H4); [apply list_elem_of_here|].
  split.
  - exact (H4 "slide.svs" slide_is_argument).
  - pose proof (parse_positional "slide.svs" slide_is_argument) as Hp.
    eexists. split; [exact Hp|].
    rewrite (H1 _ _ Hp), (H3 ["slide.svs"]); [reflexivity|].
    vm_compute. reflexivity.
Defined.

Lemma svs_positional_dest : positional_dest build_parser "svs" = true.
Proof. vm_compute. reflexivity. Qed.

(** C10.  [svs] is a required positional.  Without any argument string
    the parse is the error that [input_image] is required; an argument
    list without positional value never parses (it is an error, or the
    help is printed); one argument is stored in [svs] as a string; and
    after every parse [svs] holds, as a string, a positional value of
    the argument list. *)
Theorem svs_required_positional :
  parse_args build_parser [] = Error (arguments_required ["input_image"])
  /\ (forall args,
        positional_values build_parser args = [] ->
        (exists e, parse_args build_parser args = Error e)
        \/ parse_args build_parser args = HelpExit)
  /\ (forall s,
        is_argument build_parser s ->
        exists ns,
          parse_args build_parser [s] = Return ns
          /\ ns !! "svs" = Some (PStr s))
  /\ (forall args ns,
        parse_args build_parser args = Return ns ->
        exists s,
          s ∈ positional_values build_parser args
          /\ ns !! "svs" = Some (PStr s)).
Proof.
  assert (H4 : forall args ns,
             parse_args build_parser args = Return ns ->
             exists s,
               s ∈ positional_values build_parser args
               /\ ns !! "svs" = Some (PStr s)).
  { intros args ns Hp.
    destruct (positional_value build_parser build_parser_well_formed
                               args ns Hp "svs" svs_positional_dest)
      as (s & Hs & Hv).
    exists s. split; [now apply positional_string_values|exact Hv]. }
  repeat apply conj; [vm_compute; reflexivity| | |exact H4].
  - intros args Hn.
    pose proof (parse_args_total build_parser build_parser_well_formed args)
      as Ht.
    destruct (parse_args build_parser args) as [ns|e| |] eqn:E;
      [|left; now exists e|now right|congruence].
    destruct (H4 _ _ E) as (s & Hs & _).
    rewrite Hn in Hs. now apply elem_of_nil in Hs.
  - intros s Hs. rewrite (parse_positional s Hs).
    eexists. split; [reflexivity|]. apply lookup_insert_eq.
Qed.

Lemma svs_required_positional_witness :
  (exists e, parse_args build_parser ["--verbose"] = Error e)
  /\ (exists ns,
        parse_args build_parser ["slide.svs"] = Return ns
        /\ ns !! "svs" = Some (PStr "slide.svs")).
Proof.
  destruct svs_required_positional as (_ & H2 & H3 & _). split.
  - destruct (H2 ["--verbose"]) as [H|H]; [vm_compute; reflexivity|exact H|].
    vm_compute in H. discriminate H.
  - exact (H3 "slide.svs" slide_is_argument).
Defined.

(** * Further properties of the command line *)

(** ** One slide only *)

Section one_slide.
Local Opaque build_parser default_namespace.

(** X5.  The parser takes one slide: when every argument string is an
    argument and there are two or more, the first is taken for [svs]
    and the parse is the error that the others are not recognised. *)
Theorem one_slide_only s s' rest :
  Forall (is_argument build_parser) (s :: s' :: rest) ->
  parse_args build_parser (s :: s' :: rest)
  = Error (unrecognized_arguments (s' :: rest)).
Proof.
  intros H. pose proof (arguments_pattern _ _ H) as Hp.
  apply Forall_cons in H as [[H1 _] _].
  rewrite (parse_with_pattern _ _ _ Hp).
  unfold consume_all. rewrite positionals_eq.
  rewrite consume_loop_no_option
    by (cbn; apply (last_option_index_arguments rest)).
  run. rewrite (_get_values_one _ s (PStr s)) by (reflexivity || assumption).
  run. rewrite finish_build_parser by (repeat constructor). run. reflexivity.
Qed.

End one_slide.

(** ** The two ways to give a value, the place of the slide, repetitions *)

(** X1.  A declared [store] option can be given with its value attached
    by [=]: the value is converted and checked as the one string of the
    option (the value [--] is dropped, which leaves the empty list), and
    when the value is an argument the two forms [--opt=value] and
    [--opt value] are the same parse. *)
Theorem explicit_argument_form o d f v c m s img :
  store_option o d f v c m ∈ declared_options ->
  is_argument build_parser img ->
  parse_args build_parser [o +:+ "=" +:+ s; img]
  = (x ← _get_values (store_option o d f v c m) [s];
     Return (<["svs" := PStr img]>
               (<[d := x]> (default_namespace build_parser))))
  /\ (is_argument build_parser s ->
      parse_args build_parser [o +:+ "=" +:+ s; img]
      = parse_args build_parser [o; s; img]).
Proof.
  intros Hin Himg.
  destruct (declared_store _ _ _ _ _ _ Hin) as (Ho & Hopt & _ & He).
  destruct (He s) as [Hs Hes].
  pose proof (parse_store_explicit _ _ _ _ _ _ _ _ _ Hs Hes Himg) as H.
  split; [exact H|]. intros Harg. rewrite H. symmetry.
  exact (parse_store o o d f v c m s img Ho Hopt Harg Himg).
Qed.

Lemma explicit_argument_form_witness :
  parse_args build_parser ["--k-const=-5_0"; "slide.svs"]
  = Return (<["svs" := PStr "slide.svs"]>
              (<["k_const" := PInt (-50)]> (default_namespace build_parser)))
  /\ parse_args build_parser ["--k-const=7"; "slide.svs"]
     = parse_args build_parser ["--k-const"; "7"; "slide.svs"].
Proof.
  destruct (explicit_argument_form _ _ _ _ _ _ "-5_0" "slide.svs"
              k_const_option slide_is_argument) as [H _].
  destruct (explicit_argument_form _ _ _ _ _ _ "7" "slide.svs"
              k_const_option slide_is_argument) as [_ H'].
  split; [exact H|]. apply H'. split; vm_compute; reflexivity.
Defined.

(** X2.  The slide may stand before or after an option: the parse is
    the same. *)
Theorem slide_before_or_after :
  (forall o d f v c m s img,
     store_option o d f v c m ∈ declared_options ->
     is_argument build_parser s ->
     is_argument build_parser img ->
     parse_args build_parser [img; o; s] = parse_args build_parser [o; s; img])
  /\ (forall o d img,
        flag_option o d ∈ declared_options ->
        is_argument build_parser img ->
        parse_args build_parser [img; o] = parse_args build_parser [o; img]).
Proof.
  split.
  - intros o d f v c m s img Hin Hs Himg.
    destruct (declared_store _ _ _ _ _ _ Hin) as (Ho & Hopt & Hd & _).
    rewrite (parse_positional_store o o d f v c m s img Ho Hopt Hs Himg).
    rewrite (parse_store o o d f v c m s img Ho Hopt Hs Himg).
    destruct (_get_values _ [s]) as [x|e| |]; try reflexivity.
    cbn [mbind outcome_bind]. f_equal. now apply insert_insert_ne.
  - intros o d img Hin Himg.
    destruct (declared_flag _ _ Hin) as (Ho & Hopt & Hd).
    rewrite (parse_positional_flag o o d img Ho Hopt Himg).
    rewrite (parse_flag o o d img Ho Hopt Himg).
    f_equal. now apply insert_insert_ne.
Qed.

Lemma slide_before_or_after_witness :
  parse_args build_parser ["slide.svs"; "--k-const"; "7"]
  = parse_args build_parser ["--k-const"; "7"; "slide.svs"]
  /\ parse_args build_parser ["slide.svs"; "--verbose"]
     = parse_args build_parser ["--verbose"; "slide.svs"].
Proof.
  destruct slide_before_or_after as [H1 H2]. split.
  - apply (H1 _ _ _ _ _ _ "7" "slide.svs" k_const_option);
      [split; vm_compute; reflexivity|exact slide_is_argument].
  - apply (H2 _ _ "slide.svs" verbose_option slide_is_argument).
Defined.

(** X3.  When a [store] option is given twice, the second value is
    kept: provided the first value is accepted, the parse is the one
    with the second value alone. *)
Theorem repeated_option_last_wins o d f v c m s1 s2 x1 img :
  store_option o d f v c m ∈ declared_options ->
  is_argument build_parser s1 ->
  is_argument build_parser s2 ->
  is_argument build_parser img ->
  _get_values (store_option o d f v c m) [s1] = Return x1 ->
  parse_args build_parser [o; s1; o; s2; img]
  = parse_args build_parser [o; s2; img].
Proof.
  intros Hin Hs1 Hs2 Himg Hx1.
  destruct (declared_store _ _ _ _ _ _ Hin) as (Ho & Hopt & Hd & _).
  rewrite (parse_store_store o o d f v c m s1 o o d f v c m s2 img
             Ho Hopt Hs1 Ho Hopt Hs2 Himg), Hx1.
  rewrite (parse_store o o d f v c m s2 img Ho Hopt Hs2 Himg).
  cbn [mbind outcome_bind].
  destruct (_get_values _ [s2]) as [x2|e| |]; try reflexivity.
  cbn [mbind outcome_bind]. do 2 f_equal. apply insert_insert_eq.
Qed.

Lemma repeated_option_last_wins_witness :
  parse_args build_parser ["--k-const"; "7"; "--k-const"; "9"; "slide.svs"]
  = parse_args build_parser ["--k-const"; "9"; "slide.svs"].
Proof.
  apply (repeated_option_last_wins _ _ _ _ _ _ "7" "9" (PInt 7) "slide.svs"
           k_const_option).
  - split; vm_compute; reflexivity.
  - split; vm_compute; reflexivity.
  - exact slide_is_argument.
  - vm_compute. reflexivity.
Defined.

(** X4.  After the separator [--] a string is the slide whatever it
    is, a string that reads as an option included; the other
    destinations keep their defaults. *)
Theorem separator_slide s :
  exists ns,
    parse_args build_parser ["--"; s] = Return ns
    /\ ns !! "svs" = Some (PStr s)
    /\ forall d, d <> "svs" -> ns !! d = default_namespace build_parser !! d.
Proof.
  eexists. split; [apply parse_separator|]. split.
  - apply lookup_insert_eq.
  - intros d Hd. apply lookup_insert_ne. congruence.
Qed.

Lemma one_slide_only_witness :
  parse_args build_parser ["a.svs"; "b.svs"; "c.svs"]
  = Error (unrecognized_arguments ["b.svs"; "c.svs"]).
Proof.
  apply one_slide_only.
  repeat (constructor; [now apply plain_is_argument|]). constructor.
Defined.

(** ** What the namespace holds *)

(** The default the namespace starts with at destination [d]: the one
    of the first action of destination [d] that has a default. *)
Fixpoint first_default (actions : list Action) (d : string) : option pyval :=
  match actions with
  | [] => None
  | a :: r =>
      match default a with
      | Value v => if String.eqb (dest a) d then Some v else first_default r d
      | SUPPRESS => first_default r d
      end
  end.

(** The action has a default that is not [SUPPRESS]. *)
Definition has_default (a : Action) : bool :=
  match default a with Value _ => true | SUPPRESS => false end.

(** The namespace starts with the default of the first declaration of
    each destination. *)
Lemma default_namespace_lookup self d :
  default_namespace self !! d = first_default (_actions self) d.
Proof.
  unfold default_namespace.
  enough (H : forall l (acc : gmap string pyval),
             fold_left (fun ns action =>
                          match ns !! dest action, default action with
                          | None, Value v => <[dest action := v]> ns
                          | _, _ => ns
                          end) l acc !! d
             = match acc !! d with
               | Some v => Some v
               | None => first_default l d
               end).
  { rewrite H. now rewrite lookup_empty. }
  induction l as [|a l IH]; intros acc; cbn.
  - now destruct (acc !! d).
  - rewrite IH. destruct (default a) as [|v].
    + now destruct (acc !! dest a).
    + destruct (String.eqb_spec (dest a) d) as [->|Hne].
      * destruct (acc !! d) as [w|] eqn:E; [now rewrite E|].
        now rewrite lookup_insert_eq.
      * destruct (acc !! dest a); [reflexivity|].
        now rewrite lookup_insert_ne.
Qed.

Lemma first_default_is_Some l d :
  is_Some (first_default l d) <-> d ∈ map dest (List.filter has_default l).
Proof.
  induction l as [|a l IH]; cbn.
  - split; [intros [? [=]]|intros H; now apply elem_of_nil in H].
  - unfold has_default at 1. destruct (default a) as [|v]; [exact IH|].
    cbn. rewrite elem_of_cons.
    destruct (String.eqb_spec (dest a) d) as [->|Hne].
    + split; [now left|eauto].
    + rewrite IH. split; [now right|]. intros [?|?]; [congruence|assumption].
Qed.

(** The destinations of [build_parser]. *)
Definition fields : list string := map fst declared_defaults.

Lemma build_parser_fields :
  map dest (List.filter has_default (_actions build_parser)) = fields.
Proof. vm_compute. reflexivity. Qed.

Lemma registered_fields :
  Forall (fun '(_, a) => cls a = _HelpAction \/ dest a ∈ fields)
         (_option_string_actions build_parser).
Proof.
  rewrite build_parser_declares. cbn [_option_string_actions].
  unfold declared_options. cbn [map].
  repeat (constructor;
          [first [left; reflexivity
                 |right; apply (bool_decide_unpack _); vm_compute; exact I]|]).
  constructor.
Qed.

Lemma positional_fields a :
  a ∈ _actions build_parser -> option_strings a = [] -> dest a ∈ fields.
Proof.
  rewrite build_parser_declares. cbn [_actions]. revert a.
  apply (proj1 (Forall_forall
                  (fun a => option_strings a = [] -> dest a ∈ fields) _)).
  unfold declared_options.
  repeat (constructor;
          [intros H; first [discriminate H
                           |apply (bool_decide_unpack _); vm_compute; exact I]|]).
  constructor.
Qed.

(** X6.  After every parse the namespace has a value at each of the
    eighteen destinations the parser declares, and at no other: [help]
    is never an attribute. *)
Theorem namespace_fields args ns :
  parse_args build_parser args = Return ns ->
  forall d, is_Some (ns !! d) <-> d ∈ fields.
Proof.
  intros Hp d.
  destruct (parse_args_parsed build_parser build_parser_well_formed
                              args ns Hp)
    as (pattern & seen & Hpat & [Hu Hs] & _).
  assert (Hdef : is_Some (default_namespace build_parser !! d) <-> d ∈ fields).
  { rewrite default_namespace_lookup, first_default_is_Some.
    now rewrite build_parser_fields. }
  destruct (decide (d ∈ seen)) as [Hin|Hnot].
  - destruct (Hs _ Hin) as (a & <- & Ha & (x & Hx & Hrec)).
    split; [intros _|intros _; rewrite Hx; eauto].
    destruct Ha as [Hsel|[Ha Ho]]; [|now apply positional_fields].
    destruct (selected_registered _ _ _ _ Hpat Hsel) as (key & Hkey).
    pose proof (proj1 (Forall_forall _ _) registered_fields _ Hkey) as H.
    cbn in H. destruct H as [H|H]; [|exact H].
    rewrite H in Hrec. contradiction.
  - rewrite (Hu _ Hnot). exact Hdef.
Qed.

Lemma namespace_fields_witness :
  exists ns,
    parse_args build_parser ["slide.svs"] = Return ns
    /\ is_Some (ns !! "thres") /\ ns !! "help" = None.
Proof.
  pose proof (parse_positional "slide.svs" slide_is_argument) as Hp.
  eexists. split; [exact Hp|]. split.
  - apply (namespace_fields _ _ Hp). apply (bool_decide_unpack _).
    vm_compute. exact I.
  - apply eq_None_not_Some. intros H. apply (namespace_fields _ _ Hp) in H.
    revert H. apply (bool_decide_unpack _). vm_compute. exact I.
Defined.

(** The kind of value a destination is declared to hold. *)
Inductive kind := bool_kind | int_kind | float_kind | str_kind.

Definition has_kind (k : kind) (x : pyval) : bool :=
  match k, x with
  | bool_kind, PBool _ | int_kind, PInt _
  | float_kind, PFloat _ | str_kind, PStr _ => true
  | _, _ => false
  end.

(** The kind of each destination, as declared: [type=], or
    [store_true]. *)
Definition field_kinds : list (string * kind) :=
  [("svs", str_kind); ("patch_size", int_kind); ("verbose", bool_kind);
   ("test_mode", bool_kind); ("output", str_kind);
   ("save_tilecrossed_image", bool_kind); ("save_edges", bool_kind);
   ("save_mask", bool_kind); ("save_patches", bool_kind);
   ("output_downsample", int_kind); ("downsample_mask", int_kind);
   ("borders", str_kind); ("corners", str_kind);
   ("k_const", int_kind); ("minimum_segmentsize", int_kind);
   ("lines", int_kind); ("sigma", float_kind); ("thres", float_kind)].

Lemma call_kind f s x :
  call f s = Some x ->
  has_kind match f with
           | builtin_str => str_kind
           | builtin_int => int_kind
           | builtin_float => float_kind
           end x = true.
Proof.
  destruct f; cbn; [intros [= <-]; reflexivity| |].
  - destruct (builtins.int s); [intros [= <-]; reflexivity|discriminate].
  - destruct (builtins.float s); [intros [= <-]; reflexivity|discriminate].
Qed.

Lemma store_kind args ns d f c k v :
  parse_args build_parser args = Return ns ->
  store_dest build_parser d f c = true ->
  default_namespace build_parser !! d = Some v ->
  has_kind k v = true ->
  k = match f with
      | builtin_str => str_kind
      | builtin_int => int_kind
      | builtin_float => float_kind
      end ->
  exists x, ns !! d = Some x /\ (has_kind k x = true \/ x = PList []).
Proof.
  intros Hp Hd Hv Hk ->.
  pose proof (store_value build_parser build_parser_well_formed args ns Hp
                          d f c Hd) as H.
  destruct (option_given build_parser args d).
  - destruct H as (x & Hx & [Hl|(s & Hc & _)]); exists x; split; auto.
    left. eapply call_kind, Hc.
  - exists v. split; [congruence|now left].
Qed.

(** X7.  After every parse each destination holds a value of the kind
    its declaration gives it: a boolean for the flags, an integer, a
    float or a string for the [store] options as their [type] says, a
    string for the slide.  The one exception is the empty list that a
    [store] option holds when it was given the explicit argument [--]. *)
Theorem namespace_kinds args ns :
  parse_args build_parser args = Return ns ->
  forall d k,
    (d, k) ∈ field_kinds ->
    exists x,
      ns !! d = Some x
      /\ (has_kind k x = true
          \/ (x = PList [] /\ k <> bool_kind /\ d <> "svs")).
Proof.
  intros Hp.
  enough (H : Forall (fun p =>
                exists x,
                  ns !! fst p = Some x
                  /\ (has_kind (snd p) x = true
                      \/ (x = PList [] /\ snd p <> bool_kind
                          /\ fst p <> "svs")))
              field_kinds).
  { intros d k Hin. rewrite Forall_forall in H. exact (H _ Hin). }
  assert (Hflag : forall d,
             flag_dest build_parser d = true ->
             exists x, ns !! d = Some x
                       /\ (has_kind bool_kind x = true
                           \/ (x = PList [] /\ bool_kind <> bool_kind
                               /\ d <> "svs"))).
  { intros d Hd. eexists.
    split; [exact (flag_value build_parser build_parser_well_formed
                              args ns Hp d Hd)|].
    left. reflexivity. }
  assert (Hstore : forall d f c k v,
             store_dest build_parser d f c = true ->
             default_namespace build_parser !! d = Some v ->
             has_kind k v = true ->
             k = match f with
                 | builtin_str => str_kind
                 | builtin_int => int_kind
                 | builtin_float => float_kind
                 end ->
             k <> bool_kind -> d <> "svs" ->
             exists x, ns !! d = Some x
                       /\ (has_kind k x = true
                           \/ (x = PList [] /\ k <> bool_kind /\ d <> "svs"))).
  { intros d f c k v Hd Hv Hk Ek Hb Hsvs.
    destruct (store_kind args ns d f c k v Hp Hd Hv Hk Ek) as (x & Hx & H).
    exists x. split; [exact Hx|]. destruct H; auto. }
  unfold field_kinds.
  constructor.
  { destruct (positional_value build_parser build_parser_well_formed
                               args ns Hp "svs" svs_positional_dest)
      as (s & _ & Hs).
    exists (PStr s). split; [exact Hs|left; reflexivity]. }
  repeat (constructor;
          [cbn [fst snd];
           first
             [ apply Hflag; vm_compute; reflexivity
             | eapply (Hstore _ builtin_int None);
               [vm_compute; reflexivity ..|discriminate|discriminate]
             | eapply (Hstore _ builtin_float None);
               [vm_compute; reflexivity ..|discriminate|discriminate]
             | eapply (Hstore _ builtin_str None);
               [vm_compute; reflexivity ..|discriminate|discriminate]
             | eapply (Hstore _ builtin_str (Some bits4));
               [vm_compute; reflexivity ..|discriminate|discriminate] ]
          |]).
  constructor.
Qed.

Lemma namespace_kinds_witness :
  exists ns x,
    parse_args build_parser ["slide.svs"] = Return ns
    /\ ns !! "sigma" = Some x
    /\ (has_kind float_kind x = true
        \/ (x = PList [] /\ float_kind <> bool_kind /\ "sigma" <> "svs")).
Proof.
  pose proof (parse_positional "slide.svs" slide_is_argument) as Hp.
  destruct (namespace_kinds _ _ Hp "sigma" float_kind) as (x & Hx & H).
  - unfold field_kinds. do 16 apply list_elem_of_further.
    apply list_elem_of_here.
  - eexists _, x. split; [exact Hp|]. split; [exact Hx|exact H].
Defined.

(** ** Abbreviations *)

(** No other option string than [opt] starts with [p]. *)
(** No other option string of [table] than [opt] starts with [p]. *)
Definition unambiguous_in (table : list (string * Action)) (p opt : string)
  : bool :=
  forallb (fun '(o, _) => String.eqb o opt || negb (Str.startswith o p)) table.

Definition unambiguous (self : ArgumentParser) (p opt : string) : bool :=
  unambiguous_in (_option_string_actions self) p opt.

Lemma startswith_contains c opt :
  forall p,
    Str.startswith opt p = true -> Str.contains c p = true ->
    Str.contains c opt = true.
Proof.
  induction opt as [|a opt IH]; intros [|b p] Hs Hc; try discriminate.
  cbn in *. destruct (Ascii.eqb b a) eqn:E; [|discriminate Hs].
  apply Ascii.eqb_eq in E as ->.
  destruct (Ascii.eqb c a); [reflexivity|]. eauto.
Qed.

Lemma dict_get_Some_elem {V} (d : list (string * V)) key v :
  NoDup (map fst d) -> (key, v) ∈ d -> dict_get d key = Some v.
Proof.
  induction d as [|[k w] d IH]; intros Hnd Hin; [now apply elem_of_nil in Hin|].
  cbn in *. apply NoDup_cons in Hnd as [Hk Hnd].
  apply elem_of_cons in Hin as [[= -> ->]|Hin].
  - now rewrite String.eqb_refl.
  - destruct (String.eqb_spec key k) as [->|Hne]; [|auto].
    contradiction Hk. apply list_elem_of_fmap. now exists (k, v).
Qed.

Lemma omap_unique (table : list (string * Action)) p opt a
    (e : option string) :
  NoDup (map fst table) -> (opt, a) ∈ table ->
  Str.startswith opt p = true ->
  unambiguous_in table p opt = true ->
  omap (fun '(o, action) =>
          if Str.startswith o p then Some (Some action, o, e) else None)
       table
  = [(Some a, opt, e)].
Proof.
  intros Hnd Hin Hs Hu.
  assert (Hnone : forall t : list (string * Action),
             opt ∉ map fst t ->
             unambiguous_in t p opt = true ->
             omap (fun '(o, action) =>
                     if Str.startswith o p then Some (Some action, o, e)
                     else None) t = []).
  { induction t as [|[k w] t IH]; intros Hk Ht; [reflexivity|].
    cbn in *. apply not_elem_of_cons in Hk as [Hne Hk].
    apply andb_true_iff in Ht as [H1 Ht].
    destruct (String.eqb_spec k opt) as [->|_]; [congruence|].
    cbn in H1. apply negb_true_iff in H1. rewrite H1. auto. }
  induction table as [|[k w] t IH]; [now apply elem_of_nil in Hin|].
  cbn in *. apply NoDup_cons in Hnd as [Hk Hnd].
  apply andb_true_iff in Hu as [H1 Hu].
  apply elem_of_cons in Hin as [[= <- <-]|Hin].
  - rewrite Hs. now rewrite Hnone.
  - destruct (String.eqb_spec k opt) as [->|Hne].
    + contradiction Hk. apply list_elem_of_fmap. now exists (opt, a).
    + cbn in H1. apply negb_true_iff in H1. rewrite H1. auto.
Qed.

Lemma startswith_append p :
  forall s, Str.startswith s p = true -> exists r, s = String.append p r.
Proof.
  induction p as [|a p IH]; intros s H; [now exists s|].
  destruct s as [|b s]; [discriminate H|]. cbn in H.
  destruct (Ascii.eqb_spec a b) as [<-|]; [|discriminate H].
  destruct (IH _ H) as (r & ->). now exists r.
Qed.

Lemma startswith_dashes p :
  Str.startswith p "--" = true -> exists r, p = String "-" (String "-" r).
Proof. intros H. apply startswith_append in H as (r & ->). now exists r. Qed.

(** A string that starts with [--], without [=], and that only the
    option string [opt] starts with, is read as [opt]. *)
Lemma abbreviation_selects self p opt a :
  NoDup (map fst (_option_string_actions self)) ->
  (opt, a) ∈ _option_string_actions self ->
  Str.startswith p "--" = true ->
  Str.startswith opt p = true ->
  Str.contains "=" opt = false ->
  unambiguous self p opt = true ->
  _parse_optional self p = Return (Some (Some a, opt, None)).
Proof.
  intros Hnd Hin Hp Hs He Hu.
  assert (Hpe : Str.contains "=" p = false).
  { destruct (Str.contains "=" p) eqn:E; [|reflexivity].
    now rewrite (startswith_contains _ _ _ Hs E) in He. }
  apply startswith_dashes in Hp as (r & ->).
  unfold _parse_optional.
  change (negb (in_prefix_chars "-")) with false. cbv iota.
  destruct (dict_get (_option_string_actions self) (String "-" (String "-" r)))
    as [a'|] eqn:Ed.
  { apply dict_get_elem in Ed. unfold unambiguous, unambiguous_in in Hu.
    rewrite forallb_forall in Hu. apply list_elem_of_In in Ed.
    specialize (Hu _ Ed). cbv beta iota in Hu. rewrite startswith_refl in Hu.
    rewrite orb_false_r in Hu. apply String.eqb_eq in Hu. subst opt.
    apply list_elem_of_In in Ed.
    pose proof (dict_get_Some_elem _ _ _ Hnd Hin) as H1.
    pose proof (dict_get_Some_elem _ _ _ Hnd Ed) as H2.
    congruence. }
  rewrite Hpe. unfold _get_option_tuples.
  change (in_prefix_chars "-") with true. cbv iota beta.
  unfold allow_abbrev. rewrite Hpe. cbn [andb].
  rewrite (omap_unique _ _ opt a None Hnd Hin Hs Hu). reflexivity.
Qed.

(** The option strings that start with [p]. *)
Definition candidates (self : ArgumentParser) (p : string) : list string :=
  map fst (List.filter (fun '(o, _) => Str.startswith o p)
                       (_option_string_actions self)).

Lemma omap_candidates (table : list (string * Action)) p
    (e : option string) :
  map (fun t : option_tuple => snd (fst t))
      (omap (fun '(o, action) =>
               if Str.startswith o p then Some (Some action, o, e) else None)
            table)
  = map fst (List.filter (fun '(o, _) => Str.startswith o p) table).
Proof.
  induction table as [|[k w] t IH]; [reflexivity|]. cbn.
  destruct (Str.startswith k p); cbn; now rewrite IH.
Qed.

(** A string that starts with [--], without [=], that is no option
    string and that two option strings at least start with, is an
    error. *)
Lemma abbreviation_ambiguous self p o1 o2 l :
  Str.startswith p "--" = true ->
  Str.contains "=" p = false ->
  dict_get (_option_string_actions self) p = None ->
  candidates self p = o1 :: o2 :: l ->
  _parse_optional self p = Error (ambiguous_option p (o1 :: o2 :: l)).
Proof.
  intros Hp Hpe Hd Hc.
  apply startswith_dashes in Hp as (r & ->).
  unfold _parse_optional.
  change (negb (in_prefix_chars "-")) with false. cbv iota.
  rewrite Hd, Hpe. unfold _get_option_tuples.
  change (in_prefix_chars "-") with true. cbv iota beta.
  unfold allow_abbrev. rewrite Hpe. cbn [andb].
  unfold candidates in Hc. rewrite <- (omap_candidates _ _ None) in Hc.
  cbn [mbind outcome_bind]. cbv beta.
  destruct (omap _ (_option_string_actions self)) as [|t1 [|t2 ts]];
    try discriminate Hc.
  do 2 f_equal. exact Hc.
Qed.

Lemma build_parser_keys :
  NoDup (map fst (_option_string_actions build_parser)).
Proof. apply (bool_decide_unpack _). vm_compute. exact I. Qed.

Lemma declared_no_equals a o :
  a ∈ declared_options -> option_strings a = [o] ->
  Str.contains "=" o = false.
Proof.
  revert a.
  apply (proj1 (Forall_forall
                  (fun a => option_strings a = [o] ->
                            Str.contains "=" o = false) _)).
  unfold declared_options.
  repeat (constructor; [intros [= <-]; reflexivity|]). constructor.
Qed.

Lemma longer_than_separator p :
  2 < String.length p -> String.eqb p "--" = false.
Proof.
  intros H. destruct (String.eqb_spec p "--") as [->|]; [|reflexivity].
  cbn in H. lia.
Qed.

(** How the parser reads an unambiguous abbreviation of a declared
    option. *)
Lemma declared_abbreviation a o p :
  a ∈ declared_options -> option_strings a = [o] ->
  _parse_optional build_parser o = Return (Some (Some a, o, None)) ->
  Str.startswith p "--" = true -> Str.startswith o p = true ->
  unambiguous build_parser p o = true ->
  _parse_optional build_parser p = Return (Some (Some a, o, None)).
Proof.
  intros Hin Ho Hopt Hp Hs Hu.
  apply abbreviation_selects; auto.
  - exact build_parser_keys.
  - eapply _parse_optional_registered, Hopt.
  - eapply declared_no_equals; eauto.
Qed.

(** X8.  An abbreviation stands for its option: a string of more than
    two characters that starts with [--], that a declared option string
    starts with and no other one does, is parsed like the option string
    itself, for a flag and for a [store] option with its value. *)
Theorem abbreviation_accepted p img :
  2 < String.length p ->
  Str.startswith p "--" = true ->
  is_argument build_parser img ->
  (forall o d,
     flag_option o d ∈ declared_options ->
     Str.startswith o p = true ->
     unambiguous build_parser p o = true ->
     parse_args build_parser [p; img] = parse_args build_parser [o; img])
  /\ (forall o d f v c m s,
        store_option o d f v c m ∈ declared_options ->
        Str.startswith o p = true ->
        unambiguous build_parser p o = true ->
        is_argument build_parser s ->
        parse_args build_parser [p; s; img]
        = parse_args build_parser [o; s; img]).
Proof.
  intros Hlen Hp Himg. apply longer_than_separator in Hlen. split.
  - intros o d Hin Hs Hu.
    destruct (declared_flag _ _ Hin) as (Ho & Hopt & _).
    pose proof (declared_abbreviation _ o p Hin eq_refl Hopt Hp Hs Hu) as H.
    rewrite (parse_flag p o d img Hlen H Himg).
    now rewrite (parse_flag o o d img Ho Hopt Himg).
  - intros o d f v c m s Hin Hs Hu Harg.
    destruct (declared_store _ _ _ _ _ _ Hin) as (Ho & Hopt & _).
    pose proof (declared_abbreviation _ o p Hin eq_refl Hopt Hp Hs Hu) as H.
    rewrite (parse_store p o d f v c m s img Hlen H Harg Himg).
    now rewrite (parse_store o o d f v c m s img Ho Hopt Harg Himg).
Qed.

Lemma test_mode_option :
  flag_option "--test-mode" "test_mode" ∈ declared_options.
Proof.
  unfold declared_options. do 2 apply list_elem_of_further.
  apply list_elem_of_here.
Qed.

Lemma abbreviation_accepted_witness :
  parse_args build_parser ["--test"; "slide.svs"]
  = parse_args build_parser ["--test-mode"; "slide.svs"].
Proof.
  destruct (abbreviation_accepted "--test" "slide.svs") as [H _].
  - cbn. lia.
  - reflexivity.
  - exact slide_is_argument.
  - apply (H _ _ test_mode_option); vm_compute; reflexivity.
Defined.

(** X9.  An ambiguous abbreviation is an error: when a first argument
    string starts with [--], has no [=], is no option string and two
    option strings at least start with it, the parse is the error
    [ambiguous option], which lists these option strings. *)
Theorem abbreviation_ambiguous_error p o1 o2 l rest :
  2 < String.length p ->
  Str.startswith p "--" = true ->
  Str.contains "=" p = false ->
  dict_get (_option_string_actions build_parser) p = None ->
  candidates build_parser p = o1 :: o2 :: l ->
  parse_args build_parser (p :: rest)
  = Error (ambiguous_option p (o1 :: o2 :: l)).
Proof.
  intros Hlen Hp He Hd Hc. apply longer_than_separator in Hlen.
  unfold parse_args, parse_known_args, _parse_known_args.
  rewrite pattern_cons, Hlen.
  now rewrite (abbreviation_ambiguous _ _ _ _ _ Hp He Hd Hc).
Qed.

Lemma abbreviation_ambiguous_error_witness :
  parse_args build_parser ["--save"; "slide.svs"]
  = Error (ambiguous_option "--save"
             ["--save-tilecrossed-image"; "--save-edges"; "--save-mask";
              "--save-patches"]).
Proof.
  apply abbreviation_ambiguous_error;
    [cbn; lia|reflexivity|reflexivity|vm_compute; reflexivity
    |vm_compute; reflexivity].
Defined.

(** ** Strings that start with one [-] *)

(** The second character of a string. *)
Definition second (s : string) : option ascii :=
  match s with
  | String _ (String c _) => Some c
  | _ => None
  end.

(** Every option string has [-] or [h] as its second character: it is
    a long option, or [-h]. *)
Definition long_or_h (self : ArgumentParser) : bool :=
  forallb (fun '(k, _) =>
             match second k with
             | Some c => Ascii.eqb c "-" || Ascii.eqb c "h"
             | None => false
             end)
          (_option_string_actions self).

Lemma eqb_second s k : second s <> second k -> String.eqb s k = false.
Proof.
  intros H. destruct (String.eqb_spec s k) as [->|]; [congruence|reflexivity].
Qed.

Lemma startswith_second o s :
  is_Some (second s) -> second o <> second s -> Str.startswith o s = false.
Proof.
  destruct s as [|b0 [|b1 s]]; intros [c [=]] Hne.
  destruct o as [|a0 [|a1 o]]; cbn; [reflexivity| |].
  - now destruct (Ascii.eqb b0 a0).
  - destruct (Ascii.eqb b0 a0); [|reflexivity].
    destruct (Ascii.eqb_spec b1 a1) as [->|]; [|reflexivity].
    now contradiction Hne.
Qed.

Lemma dict_get_None {V} (d : list (string * V)) key :
  Forall (fun p => String.eqb key (fst p) = false) d -> dict_get d key = None.
Proof.
  induction 1 as [|[k v] d H _ IH]; [reflexivity|]. cbn in *. now rewrite H.
Qed.

Lemma omap_nil {A B} (f : A -> option B) l :
  Forall (fun x => f x = None) l -> omap f l = [].
Proof. induction 1 as [|x l H _ IH]; [reflexivity|]. cbn. now rewrite H. Qed.

Section single_dash.
Variable self : ArgumentParser.
Hypothesis keys : long_or_h self = true.
Hypothesis no_negative : _has_negative_number_optionals self = false.
Variable c1 : ascii.
Variable r : string.
Hypothesis not_dash : c1 <> "-"%char.
Hypothesis not_h : c1 <> "h"%char.

Lemma key_second k a :
  (k, a) ∈ _option_string_actions self ->
  second k = Some "-"%char \/ second k = Some "h"%char.
Proof.
  intros Hin. unfold long_or_h in keys. rewrite forallb_forall in keys.
  apply list_elem_of_In in Hin. specialize (keys _ Hin). cbv beta iota in keys.
  destruct (second k) as [c|]; [|discriminate keys].
  apply orb_true_iff in keys as [H|H]; apply Ascii.eqb_eq in H; subst; auto.
Qed.

Lemma not_key q :
  second q = None \/ second q = Some c1 ->
  dict_get (_option_string_actions self) q = None.
Proof.
  intros Hq. apply dict_get_None. apply Forall_forall. intros [k a] Hin.
  apply eqb_second. cbn. destruct (key_second _ _ Hin) as [H|H]; rewrite H;
    destruct Hq as [Hq|Hq]; rewrite Hq; congruence.
Qed.

Lemma option_part_second :
  second (fst (Str.split1 "=" (String "-" (String c1 r)))) = None
  \/ second (fst (Str.split1 "=" (String "-" (String c1 r)))) = Some c1.
Proof.
  cbn [Str.split1].
  change (Ascii.eqb "-" "=") with false. cbv iota.
  destruct (Ascii.eqb c1 "="); [left|right].
  - reflexivity.
  - destruct (Str.split1 "=" r). reflexivity.
Qed.

(** A string that starts with one [-] followed by another character
    than [-] and [h]: a negative number and a string with a space are
    arguments, any other is an option that is not known. *)
Lemma single_dash_parse :
  _parse_optional self (String "-" (String c1 r))
  = if _negative_number_matcher (String "-" (String c1 r)) then Return None
    else if Str.contains " " (String "-" (String c1 r)) then Return None
    else Return (Some (None, String "-" (String c1 r), None)).
Proof.
  unfold _parse_optional.
  change (negb (in_prefix_chars "-")) with false. cbv iota.
  rewrite not_key by (right; reflexivity).
  assert (He : (if Str.contains "=" (String "-" (String c1 r))
                then let '(option_string, explicit_arg) :=
                       Str.split1 "=" (String "-" (String c1 r)) in
                     match dict_get (_option_string_actions self)
                                    option_string with
                     | Some action =>
                         Some (Some action, option_string, Some explicit_arg)
                     | None => None
                     end
                else None) = None).
  { destruct (Str.contains "=" (String "-" (String c1 r))); [|reflexivity].
    pose proof option_part_second as H.
    destruct (Str.split1 "=" (String "-" (String c1 r))) as [o e].
    cbn [fst] in H. now rewrite (not_key o H). }
  rewrite He. unfold _get_option_tuples.
  change (in_prefix_chars "-") with true.
  assert (Hc1 : in_prefix_chars c1 = false).
  { unfold in_prefix_chars, prefix_chars. cbn.
    destruct (Ascii.eqb_spec c1 "-"); [contradiction|reflexivity]. }
  rewrite Hc1. cbn [andb negb].
  rewrite omap_nil.
  - cbn [mbind outcome_bind]. cbv beta iota. rewrite no_negative.
    rewrite andb_true_r. reflexivity.
  - apply Forall_forall. intros [k a] Hin. cbv beta iota.
    assert (Hk : second k <> Some c1).
    { destruct (key_second _ _ Hin) as [H|H]; rewrite H; congruence. }
    rewrite eqb_second by exact Hk.
    rewrite startswith_second; [reflexivity|now exists c1|exact Hk].
Qed.

End single_dash.

Lemma code_points_ascii c r :
  (N_of_ascii c <? 0x80)%N = true ->
  Str.code_points (String c r) = N_of_ascii c :: Str.code_points r.
Proof.
  intros Hc. unfold Str.code_points.
  cbn [list_ascii_of_string List.length Str.decode Str.decode1].
  now rewrite Hc.
Qed.

Lemma drop_final_newline_cons c t :
  c <> 10%N -> exists t', drop_final_newline (c :: t) = c :: t'.
Proof.
  intros Hc. unfold drop_final_newline. cbn [rev].
  destruct (rev t) as [|x u] eqn:E; cbn [app].
  - exists t. destruct c as [|[p|[[p|[p|p|]|]|p|]|]]; congruence.
  - destruct (N.eq_dec x 10%N) as [->|Hx].
    + rewrite rev_app_distr. cbn. now eexists.
    + exists t. destruct x as [|[p|[[p|[p|p|]|]|p|]|]]; congruence.
Qed.

Lemma negative_number_shape s :
  _negative_number_matcher s = true ->
  exists c1 r,
    s = String "-" (String c1 r) /\ c1 <> "-"%char /\ c1 <> "h"%char.
Proof.
  intros H. destruct s as [|c0 r0]; [discriminate H|].
  destruct c0 as [[] [] [] [] [] [] [] []]; try discriminate H.
  destruct r0 as [|c1 r]; [discriminate H|].
  exists c1, r. split; [reflexivity|].
  unfold _negative_number_matcher in H.
  split; intros ->; rewrite code_points_ascii in H by reflexivity.
  - destruct (drop_final_newline_cons (N_of_ascii "-") (Str.code_points r))
      as (t' & E); [discriminate|].
    rewrite E in H. discriminate H.
  - destruct (drop_final_newline_cons (N_of_ascii "h") (Str.code_points r))
      as (t' & E); [discriminate|].
    rewrite E in H. discriminate H.
Qed.

Lemma build_parser_long_or_h : long_or_h build_parser = true.
Proof. vm_compute. reflexivity. Qed.

Lemma build_parser_no_negative :
  _has_negative_number_optionals build_parser = false.
Proof. vm_compute. reflexivity. Qed.

(** A negative number is an argument. *)
Lemma negative_number_is_argument s :
  _negative_number_matcher s = true -> is_argument build_parser s.
Proof.
  intros H. destruct (negative_number_shape s H) as (c1 & r & -> & H1 & H2).
  split.
  - destruct (String.eqb_spec (String "-" (String c1 r)) "--") as [E|];
      [|reflexivity].
    injection E as -> _. now contradiction H1.
  - rewrite (single_dash_parse build_parser build_parser_long_or_h
               build_parser_no_negative c1 r H1 H2).
    now rewrite H.
Qed.

(** ** Options that are not known *)
Section unknown_options.
Variable self : ArgumentParser.
Variable arg_strings : list string.
Variable pattern : list pattern_part.
Hypothesis table_options :
  forall key action,
    dict_get (_option_string_actions self) key = Some action ->
    option_strings action <> [].
Hypothesis pattern_options :
  forall action, selected pattern action -> option_strings action <> [].
Hypothesis pattern_length : List.length pattern = List.length arg_strings.

Lemma take_actions_extras tuples :
  forall st st', take_actions tuples st = Return st' -> extras st' = extras st.
Proof.
  induction tuples as [|[[a args] os] tuples IH]; intros st st' H; cbn in H.
  - now injection H as <-.
  - inv_Return H. apply take_action_Return in H0 as (v & ns & _ & _ & ->).
    now apply IH in H.
Qed.

Lemma take_positionals_extras counts :
  forall i st st' stop,
    take_positionals arg_strings counts i st = Return (st', stop) ->
    extras st' = extras st.
Proof.
  induction counts as [|[a n] counts IH]; intros i st st' stop H; cbn in H.
  - now injection H as <- _.
  - inv_Return H. apply take_action_Return in H0 as (v & ns & _ & _ & ->).
    now apply IH in H.
Qed.

Lemma consume_positionals_extras i st st' stop :
  consume_positionals arg_strings pattern i st = Return (st', stop) ->
  extras st' = extras st.
Proof.
  unfold consume_positionals. intros H. inv_Return H. destruct r as [st1 j].
  injection H as <- _. cbn. eapply take_positionals_extras, H0.
Qed.

(** An option that is not known goes to the extras, where the strings
    stay. *)
Lemma consume_optional_extras i st st' stop :
  consume_optional self arg_strings pattern i st = Return (st', stop) ->
  (extras st <> [] -> extras st' <> [])
  /\ forall os e,
       pattern !! i = Some (pat_O (None, os, e)) -> extras st' <> [].
Proof.
  unfold consume_optional, option_string_indices. intros H.
  destruct (pattern !! i) as [[| |[[[a|] os] e]]|] eqn:E; try discriminate H.
  - inv_Return H. destruct r as [tuples j]. inv_Return H.
    injection H as <- _. apply take_actions_extras in H1. rewrite H1.
    split; [auto|]. intros os' e' [=].
  - injection H as <- _. cbn.
    assert (Hi : i < List.length arg_strings).
    { rewrite <- pattern_length. eapply lookup_lt_Some, E. }
    destruct (drop i arg_strings) as [|s l] eqn:Ed.
    { apply (f_equal (@List.length _)) in Ed. rewrite length_drop in Ed.
      cbn in Ed. lia. }
    cbn. split; intros; now destruct (extras st).
Qed.

(** The options before index [i] that are not known have left extras. *)
Definition flagged (i : nat) (st : state) : Prop :=
  forall j os e,
    j < i -> pattern !! j = Some (pat_O (None, os, e)) -> extras st <> [].

Lemma flagged_step i i' st st' :
  flagged i st ->
  (extras st <> [] -> extras st' <> []) ->
  (forall j, i <= j < i' -> not_option pattern j) ->
  flagged i' st'.
Proof.
  intros Hf Hs Hn j os e Hj Hp.
  destruct (decide (j < i)) as [Hlt|Hge]; [eapply Hs, Hf; eauto|].
  destruct (Hn j) as (p & Hp' & E); [lia|].
  rewrite Hp in Hp'. injection Hp' as <-. discriminate E.
Qed.

Lemma flagged_optional i st st' stop :
  flagged i st ->
  consume_optional self arg_strings pattern i st = Return (st', stop) ->
  flagged stop st' /\ i < stop.
Proof.
  intros Hf H. pose proof (consume_optional_extras _ _ _ _ H) as [Hs Hi].
  apply consume_optional_spec in H as ((t & Ht & _) & Hstop & _); auto.
  split; [|lia].
  intros j os e Hj Hp.
  destruct (decide (j < i)) as [Hlt|Hge]; [eapply Hs, Hf; eauto|].
  destruct (decide (j = i)) as [->|Hne]; [eapply Hi, Hp|].
  destruct Hstop as [->|[-> HA]]; [lia|].
  replace j with (S i) in Hp by lia. congruence.
Qed.

Section continue_flags.
Variable continue : nat -> state -> outcome (state * nat).
Variable Goal : Prop.
Variable r : state * nat.
Variable bound : nat.
Hypothesis continue_flags :
  forall j st, bound < j -> flagged j st -> continue j st = Return r -> Goal.

Lemma consume_next_option_flags next i st :
  bound <= i -> flagged i st ->
  next_option_string_index pattern i = Some next ->
  consume_next_option self arg_strings pattern continue next i st
    = Return r -> Goal.
Proof.
  unfold consume_next_option. intros Hb Hf Hnext H.
  apply next_option_string_index_spec in Hnext as (Hle & _ & Hn).
  destruct (option_string_indices pattern i);
    inv_Return H; destruct r0 as [st3 j''];
    apply flagged_optional in H0 as [Hf3 Hlt];
    try (eapply continue_flags; [|exact Hf3|exact H]; lia).
  - exact Hf.
  - eapply flagged_step; [exact Hf| |exact Hn].
    cbn. intros He. now destruct (extras st).
Qed.

Lemma consume_turn_flags next i st :
  bound <= i -> flagged i st ->
  next_option_string_index pattern i = Some next ->
  consume_turn self arg_strings pattern continue next i st = Return r ->
  Goal.
Proof.
  unfold consume_turn. intros Hb Hf Hnext H.
  destruct (negb (i =? next));
    [|eapply consume_next_option_flags; eauto].
  inv_Return H. destruct r0 as [st1 pend].
  pose proof (consume_positionals_extras _ _ _ _ H0) as He.
  apply consume_positionals_spec in H0 as (Hle & Hn & _).
  assert (Hf1 : flagged pend st1).
  { eapply flagged_step; [exact Hf| |exact Hn]. now rewrite He. }
  destruct (i <? pend) eqn:E.
  - apply Nat.ltb_lt in E.
    apply (continue_flags pend st1); [lia|exact Hf1|exact H].
  - apply Nat.ltb_ge in E. replace pend with i in * by lia.
    eapply consume_next_option_flags; eauto.
Qed.

End continue_flags.

Lemma consume_loop_flags fuel :
  forall i st st' stop,
    flagged i st ->
    consume_loop self arg_strings pattern fuel i st = Return (st', stop) ->
    flagged (List.length pattern) st'.
Proof.
  induction fuel as [|fuel IH]; intros i st st' stop Hf H;
    simpl consume_loop in H;
    destruct (Z.of_nat i <=? max_option_string_index pattern)%Z eqn:E;
    try discriminate H.
  - injection H as <- <-. intros j os e _ Hp. eapply Hf; [|exact Hp].
    apply max_option_string_index_ge in Hp. lia.
  - destruct (next_option_string_index pattern i) as [next|] eqn:En;
      [|discriminate H].
    eapply (consume_turn_flags _ _ _ i); [|reflexivity|exact Hf|exact En|exact H].
    intros j st1 _ Hf1 H1. eapply IH; eauto.
  - injection H as <- <-. intros j os e _ Hp. eapply Hf; [|exact Hp].
    apply max_option_string_index_ge in Hp. lia.
Qed.

(** With an option that is not known in the pattern, what
    [parse_known_args] returns has extras. *)
Lemma consume_all_extras ns0 ns extras' os e :
  pat_O (None, os, e) ∈ pattern ->
  consume_all self arg_strings pattern ns0 = Return (ns, extras') ->
  extras' <> [].
Proof.
  intros Hin H. unfold consume_all in H.
  inv_Return H. destruct r as [st1 i1].
  inv_Return H. destruct r as [st2 i2].
  inv_Return H. destruct r as [ns' req]. destruct req; [|discriminate H].
  injection H as _ <-.
  apply consume_loop_flags in H0; [|intros j ? ? Hj; lia].
  apply consume_positionals_extras in H1.
  apply list_elem_of_lookup in Hin as (j & Hj).
  pose proof (lookup_lt_Some _ _ _ Hj) as Hlt.
  specialize (H0 _ _ _ Hlt Hj). rewrite <- H1 in H0.
  now destruct (extras st2).
Qed.

End unknown_options.
